(** * Secrets-Beyond-Sight: LSB steganography with a noisy embedding count

    A shallow embedding of [utils.py], [core_engine.py] and the analyzer of
    [steganalysis.py], and the properties of the specification checked
    against it.

    Conventions of the embedding.
    - A Python [str] is the list of its code points ([pystr]); a bit of a
      bit list is a [bool] (the code only ever builds the ints 0 and 1).
    - A Python [int] is a [Z]; lengths, dimensions and array positions,
      which the code only produces non-negative, are [nat].
    - A numpy [uint8] sample is a [Z] in [0, 256).
    - A Python or numpy [float] is idealised as an exact rational [Q];
      where the code can produce [inf] or [nan] the result type says so.
    - A raised exception is a value of [exn]; functions that can raise
      return a [result].
    - numpy arrays are mutable objects: they live in a [heap] and the code
      holds references to them. *)

From Stdlib Require Import ZArith QArith Qabs Qround Lia Ascii String.
From stdpp Require Import base list strings.

Local Open Scope Z_scope.

(* ===================================================================== *)
(** * Python values and exceptions                                        *)
(* ===================================================================== *)

(** The [ValueError]s the code raises, with the numbers their messages
    report. *)
Inductive value_error : Type :=
| MessageTooLarge (need have max_chars : Z)   (* embed: "Message too large!" *)
| InvalidMessageLength (requested have : Z)   (* extract: "Invalid message length!" *)
| TooManyChannels (requested have : Z)        (* get_pixel_indices *)
| InvalidLiteral                              (* int('', 2) *)
| BadChannel                                  (* chi_square_attack *)
| DimensionMismatch.                          (* calculate_visual_difference *)

Inductive exn : Type :=
| ValueError (what : value_error)
| IndexError
| TypeError
| ZeroDivisionError.

Inductive result (A : Type) : Type :=
| Ok (a : A)
| Raise (e : exn).
Arguments Ok {A} a.
Arguments Raise {A} e.

Definition rbind {A B} (r : result A) (k : A -> result B) : result B :=
  match r with
  | Ok a => k a
  | Raise e => Raise e
  end.

Definition of_option {A} (o : option A) (e : exn) : result A :=
  match o with
  | Some a => Ok a
  | None => Raise e
  end.

Declare Scope result_scope.
Delimit Scope result_scope with res.
Notation "x <-- c ;; k" := (rbind c (fun x => k))
  (at level 60, c at next level, right associativity) : result_scope.

(** A [str] as its code points; [ord] and [chr] are the identity on a
    code point. *)
Abbreviation pystr := (list N).

(** [range(0, stop, step)]. *)
Definition py_range_step (stop step : nat) : list nat :=
  (fun k => (k * step)%nat) <$> seq 0 (Nat.div (stop + step - 1) step).

(** [l[i:j]] for [0 <= i <= j]. *)
Definition py_slice {A} (l : list A) (i j : nat) : list A :=
  take (j - i) (drop i l).

(** [l[:n]] for any int [n]: a negative [n] counts from the end. *)
Definition py_prefix {A} (l : list A) (n : Z) : list A :=
  if n <? 0 then take (Z.to_nat (Z.of_nat (length l) + n)) l
  else take (Z.to_nat n) l.

(** [int(x)] of a float: truncation toward zero. *)
Definition py_int (x : Q) : Z := Z.quot (Qnum x) (Z.pos (Qden x)).

(** [max(a, b)] of two floats: [b] when [b > a], else [a]. *)
Definition py_max (a b : Q) : Q := if Qlt_le_dec a b then b else a.

(** [a / b] of two ints: true division. *)
Definition py_truediv (a b : Z) : result Q :=
  if b =? 0 then Raise ZeroDivisionError else Ok (inject_Z a / inject_Z b)%Q.

(* ===================================================================== *)
(** * utils.py: the bit codec                                             *)
(* ===================================================================== *)

(** Binary digits of a positive number, most significant first. *)
Fixpoint bin_digits_pos (p : positive) : list bool :=
  match p with
  | xH => [true]
  | xO q => bin_digits_pos q ++ [false]
  | xI q => bin_digits_pos q ++ [true]
  end.

(** [format(v, 'b')], each character ['0']/['1'] read back by [int]. *)
Definition bin_digits (v : N) : list bool :=
  match v with
  | N0 => [false]
  | Npos p => bin_digits_pos p
  end.

(** [format(v, '08b')]: zero-padded on the left to a width of AT LEAST 8;
    a value of 256 or more keeps all its digits. *)
Definition format_08b (v : N) : list bool :=
  replicate (8 - length (bin_digits v)) false ++ bin_digits v.

(** [string_to_bits]: the loop [for char in text: bits.extend(...)]. *)
Definition string_to_bits (text : pystr) : list bool :=
  fold_left (fun bits char => bits ++ format_08b char) text [].

(** [int(binary_str, 2)] on a string of ['0']/['1']: its value, most
    significant digit first; the empty string is not a literal. *)
Definition binary_value (binary_str : list bool) : N :=
  fold_left (fun acc b => (2 * acc + N.b2n b)%N) binary_str 0%N.

Definition int_base2 (binary_str : list bool) : result N :=
  match binary_str with
  | [] => Raise (ValueError InvalidLiteral)
  | _ => Ok (binary_value binary_str)
  end.

(** [bits_to_string]: the loop [for i in range(0, len(bits), 8)]. *)
Definition bits_to_string (bits : list bool) : result pystr :=
  fold_left
    (fun text i =>
       (t <-- text ;;
        ascii_val <-- int_base2 (py_slice bits i (i + 8)) ;;
        Ok (t ++ [ascii_val]))%res)
    (py_range_step (length bits) 8)
    (Ok []).

(* ===================================================================== *)
(** * Pixel buffers                                                       *)
(* ===================================================================== *)

(** The array [np.array(Image.open(path).convert("RGB"))]: [uint8] samples
    of shape [(height, width, 3)], stored row-major. Decoding a file and
    saving a buffer as PNG are lossless and belong to the codec; the
    engine works on the decoded buffer. *)
Record ndarray : Type := mk_ndarray {
  height : nat;
  width : nat;
  data : list Z
}.

(** Number of channels after [convert("RGB")]. *)
Definition rgb : nat := 3.

Definition shape (a : ndarray) : nat * nat * nat := (height a, width a, rgb).

(** [a.size] *)
Definition size (a : ndarray) : nat := (height a * width a * rgb)%nat.

(** The invariant of a [uint8] array of this shape: one sample per slot,
    every sample in [0, 256). *)
Definition wf_array (a : ndarray) : Prop :=
  length (data a) = size a /\
  Forall (fun v => 0 <= v < 256) (data a).

(** What a decoded image satisfies besides: positive dimensions. *)
Definition wf_image (a : ndarray) : Prop :=
  (0 < height a)%nat /\ (0 < width a)%nat /\ wf_array a.

(** Position of [a[row, col, channel]] in the row-major storage; this is
    also [pixel_to_index] of utils.py. *)
Definition pixel_to_index (row col channel width channels : nat) : nat :=
  (row * (width * channels) + col * channels + channel)%nat.

(** [index_to_pixel] of utils.py, the arithmetic [embed] and [extract]
    repeat inline. *)
Definition index_to_pixel (index width channels : nat) : nat * nat * nat :=
  let row := (index / (width * channels))%nat in
  let col := ((index mod (width * channels)) / channels)%nat in
  let channel := (index mod channels)%nat in
  (row, col, channel).

Definition in_bounds (a : ndarray) (row col channel : nat) : bool :=
  (row <? height a)%nat && (col <? width a)%nat && (channel <? rgb)%nat.

(** [a[row, col, channel]]; out of range is an [IndexError]. *)
Definition getitem (a : ndarray) (row col channel : nat) : result Z :=
  if in_bounds a row col channel
  then of_option (data a !! pixel_to_index row col channel (width a) rgb) IndexError
  else Raise IndexError.

(** [a[row, col, channel] = v], as the updated array. *)
Definition setitem (a : ndarray) (row col channel : nat) (v : Z) : result ndarray :=
  let i := pixel_to_index row col channel (width a) rgb in
  if in_bounds a row col channel && (i <? length (data a))%nat
  then Ok (mk_ndarray (height a) (width a) (<[i := v]> (data a)))
  else Raise IndexError.

(** ** The object store

    A reference is a position in the store; [np_copy] allocates. A
    computation may raise after it has written: the store comes back in
    both cases. *)
Abbreviation ref := nat.
Abbreviation heap := (list ndarray).
Definition M (A : Type) : Type := heap -> result A * heap.

Definition ret {A} (a : A) : M A := fun h => (Ok a, h).
Definition raise {A} (e : exn) : M A := fun h => (Raise e, h).
Definition lift {A} (r : result A) : M A := fun h => (r, h).
Definition bind {A B} (c : M A) (k : A -> M B) : M B :=
  fun h =>
    match c h with
    | (Ok a, h') => k a h'
    | (Raise e, h') => (Raise e, h')
    end.

Declare Scope heap_scope.
Delimit Scope heap_scope with heap.
Notation "x <-- c ;; k" := (bind c (fun x => k))
  (at level 60, c at next level, right associativity) : heap_scope.

(** Reading through a reference. *)
Definition deref (r : ref) : M ndarray :=
  fun h => (of_option (h !! r) IndexError, h).

(** [a.copy()]: a fresh array with the same contents. *)
Definition np_copy (r : ref) : M ref :=
  fun h =>
    match h !! r with
    | Some a => (Ok (length h), h ++ [a])
    | None => (Raise IndexError, h)
    end.

(** [stego_array[row, col, channel]] *)
Definition load (r : ref) (row col channel : nat) : M Z :=
  (a <-- deref r ;; lift (getitem a row col channel))%heap.

(** [stego_array[row, col, channel] = v]: the write goes to the object
    the reference names. *)
Definition store (r : ref) (row col channel : nat) (v : Z) : M unit :=
  fun h =>
    match h !! r with
    | Some a =>
        match setitem a row col channel v with
        | Ok a' => (Ok tt, <[r := a']> h)
        | Raise e => (Raise e, h)
        end
    | None => (Raise IndexError, h)
    end.

(* ===================================================================== *)
(** * utils.py and core_engine.py: the engine                             *)
(* ===================================================================== *)

(** The statistics [embed] returns. [image_dimensions] is kept as the
    pair (width, height); [save_path] belongs to the codec. *)
Record stats : Type := mk_stats {
  message_length_bits : Z;
  message_length_chars : Z;
  noisy_count : Z;
  noise_added : Z;
  total_pixels_modified : Z;
  decoy_pixels : Z;
  epsilon : Q;
  laplace_scale : Q;
  total_capacity : Z;
  capacity_used_percent : Q;
  image_dimensions : nat * nat
}.

(** [int.from_bytes(bs, byteorder='big')] *)
Definition int_from_bytes_big (bs : list Z) : Z :=
  fold_left (fun acc b => acc * 256 + b) bs 0.

(** [(pixel_value & 0xFE) | bit_to_embed] *)
Definition lsb_substitute (pixel_value : Z) (bit_to_embed : bool) : Z :=
  Z.lor (Z.land pixel_value 254) (Z.b2z bit_to_embed).

(** [pixel_value & 1], as a bit. *)
Definition lsb_of (pixel_value : Z) : bool := Z.land pixel_value 1 =? 1.

Section Engine.

(** What the engine takes from its libraries: the UTF-8 encoder, the
    SHA-256 digest, and the in-place shuffle of numpy's seeded
    generator, [np.random.default_rng(seed).shuffle], as a function of
    the seed and the array it is given. *)
Variable utf8_encode : pystr -> list Z.
Variable sha256 : list Z -> list Z.
Variable shuffle : Z -> list nat -> list nat.

Definition password_to_seed (password : pystr) : Z :=
  let hash_bytes := sha256 (utf8_encode password) in
  int_from_bytes_big (py_slice hash_bytes 0 8).

Definition get_pixel_indices (image_shape : nat * nat * nat)
    (num_channels : Z) (seed : Z) : result (list nat) :=
  let '(height, width, channels) := image_shape in
  let total_channels := (height * width * channels)%nat in
  if Z.of_nat total_channels <? num_channels
  then Raise (ValueError (TooManyChannels num_channels (Z.of_nat total_channels)))
  else
    let all_indices := seq 0 total_channels in
    let all_indices := shuffle seed all_indices in
    Ok (py_prefix all_indices num_channels).

(** The embedding loop [for bit_index, channel_index in
    enumerate(pixel_indices)], from [bit_index] on. [decoy i] is the bit
    [np.random.randint(0, 2)] draws in iteration [i]. The divisor
    [width * channels] is positive whenever the body runs: an image
    without slots has an empty path. *)
Fixpoint embed_loop (stego_array : ref) (width channels : nat)
    (message_bits : list bool) (true_count : nat) (decoy : nat -> bool)
    (bit_index : nat) (pixel_indices : list nat) : M unit :=
  match pixel_indices with
  | [] => ret tt
  | channel_index :: rest =>
      let row := (channel_index / (width * channels))%nat in
      let col := ((channel_index mod (width * channels)) / channels)%nat in
      let channel := (channel_index mod channels)%nat in
      (pixel_value <-- load stego_array row col channel ;;
       bit_to_embed <--
         (if (bit_index <? true_count)%nat
          then lift (of_option (message_bits !! bit_index) IndexError)
          else ret (decoy bit_index)) ;;
       let new_pixel_value := lsb_substitute pixel_value bit_to_embed in
       _ <-- store stego_array row col channel new_pixel_value ;;
       embed_loop stego_array width channels message_bits true_count decoy
         (S bit_index) rest)%heap
  end.

(** [embed]. [cover] is the decoded cover buffer, [noise] the sample
    [np.random.laplace(loc=0, scale=laplace_scale)] returns, [decoy] the
    bits drawn for the decoy slots. The result is the reference of the
    stego buffer that is then saved, and the statistics. *)
Definition embed (cover : ref) (message password : pystr)
    (epsilon noise : Q) (decoy : nat -> bool) : M (ref * stats) :=
  (img_array <-- deref cover ;;
   let '(height, width, channels) := shape img_array in
   let message_bits := string_to_bits message in
   let true_count := Z.of_nat (length message_bits) in
   let total_capacity := Z.of_nat (height * width * channels) in
   if total_capacity <? true_count
   then raise (ValueError
                 (MessageTooLarge true_count total_capacity (total_capacity / 8)))
   else
     let epsilon := py_max (1 # 100) epsilon in
     let sensitivity := 8%Q in
     let laplace_scale := (sensitivity / epsilon)%Q in
     let noisy_count := true_count + py_int noise in
     let total_channels_to_modify := Z.max true_count noisy_count in
     let total_channels_to_modify := Z.min total_channels_to_modify total_capacity in
     let seed := password_to_seed password in
     pixel_indices <--
       lift (get_pixel_indices (shape img_array) total_channels_to_modify seed) ;;
     stego_array <-- np_copy cover ;;
     _ <-- embed_loop stego_array width channels message_bits
             (length message_bits) decoy 0 pixel_indices ;;
     ratio <-- lift (py_truediv total_channels_to_modify total_capacity) ;;
     ret (stego_array,
          {| message_length_bits := true_count;
             message_length_chars := Z.of_nat (length message);
             noisy_count := noisy_count;
             noise_added := noisy_count - true_count;
             total_pixels_modified := total_channels_to_modify;
             decoy_pixels := total_channels_to_modify - true_count;
             epsilon := epsilon;
             laplace_scale := laplace_scale;
             total_capacity := total_capacity;
             capacity_used_percent := (ratio * 100)%Q;
             image_dimensions := (width, height) |}))%heap.

(** The extraction loop [for channel_index in pixel_indices]. *)
Fixpoint extract_loop (img_array : ndarray) (width channels : nat)
    (extracted_bits : list bool) (pixel_indices : list nat)
    : result (list bool) :=
  match pixel_indices with
  | [] => Ok extracted_bits
  | channel_index :: rest =>
      let row := (channel_index / (width * channels))%nat in
      let col := ((channel_index mod (width * channels)) / channels)%nat in
      let channel := (channel_index mod channels)%nat in
      (pixel_value <-- getitem img_array row col channel ;;
       let lsb := lsb_of pixel_value in
       extract_loop img_array width channels (extracted_bits ++ [lsb]) rest)%res
  end.

(** [extract], on the decoded stego buffer. *)
Definition extract (stego : ref) (password : pystr) (message_length_bits : Z)
    : M pystr :=
  (img_array <-- deref stego ;;
   let '(height, width, channels) := shape img_array in
   let total_capacity := Z.of_nat (height * width * channels) in
   if total_capacity <? message_length_bits
   then raise (ValueError (InvalidMessageLength message_length_bits total_capacity))
   else
     let seed := password_to_seed password in
     pixel_indices <--
       lift (get_pixel_indices (shape img_array) message_length_bits seed) ;;
     extracted_bits <-- lift (extract_loop img_array width channels [] pixel_indices) ;;
     lift (bits_to_string extracted_bits))%heap.

End Engine.

(* ===================================================================== *)
(** * steganalysis.py: the analyzer                                       *)
(* ===================================================================== *)

(** The floats the analyzer computes: an exact rational, [inf], or [nan]
    (numpy divides by zero without raising). *)
Inductive pyfloat : Type :=
| Finite (q : Q)
| PosInf
| NaN.

(** Arithmetic that keeps [inf] and [nan] as they are: scaling by a
    positive constant, [abs] of a shift. *)
Definition fmap_pos (f : Q -> Q) (x : pyfloat) : pyfloat :=
  match x with
  | Finite q => Finite (f q)
  | PosInf => PosInf
  | NaN => NaN
  end.

(** [x < c], [x > c], [x >= c], [x == c] against a finite constant;
    every comparison with [nan] is false. *)
Definition flt (x : pyfloat) (c : Q) : bool :=
  match x with
  | Finite q => negb (Qle_bool c q)
  | PosInf => false
  | NaN => false
  end.

Definition fgt (x : pyfloat) (c : Q) : bool :=
  match x with
  | Finite q => negb (Qle_bool q c)
  | PosInf => true
  | NaN => false
  end.

Definition feq (x : pyfloat) (c : Q) : bool :=
  match x with
  | Finite q => Qeq_bool q c
  | PosInf => false
  | NaN => false
  end.

Definition is_inf (x : pyfloat) : bool :=
  match x with
  | PosInf => true
  | _ => false
  end.

(** [a / b] of a non-negative numpy integer by an int. *)
Definition np_truediv (a b : Z) : pyfloat :=
  if b =? 0 then (if a =? 0 then NaN else PosInf)
  else Finite (inject_Z a / inject_Z b)%Q.

(** [np.sum(cond)]: how many elements satisfy [cond]. *)
Definition np_count {A} (cond : A -> bool) (l : list A) : Z :=
  Z.of_nat (length (List.filter cond l)).

(** [a[:, :, k].flatten()]: the samples of channel [k], in storage order;
    [i] is the position of the head of [l]. *)
Fixpoint plane (k i : nat) (l : list Z) : list Z :=
  match l with
  | [] => []
  | v :: l' =>
      if (i mod rgb =? k)%nat then v :: plane k (S i) l' else plane k (S i) l'
  end.

(** [str.lower] on ASCII letters. *)
Definition ascii_lower (c : ascii) : ascii :=
  let n := nat_of_ascii c in
  if (65 <=? n)%nat && (n <=? 90)%nat then ascii_of_nat (n + 32) else c.

Fixpoint lower (s : string) : string :=
  match s with
  | EmptyString => EmptyString
  | String c s' => String (ascii_lower c) (lower s')
  end.

(** The dictionary [chi_square_attack] returns; [explanation], a text
    formatted from the other fields, is left out. *)
Record report : Type := mk_report {
  channel : string;
  total_pixels : Z;
  lsb_0_count : Z;
  lsb_1_count : Z;
  lsb_0_percent : pyfloat;
  lsb_1_percent : pyfloat;
  deviation_from_50_50 : pyfloat;
  chi_square_statistic : pyfloat;
  p_value : pyfloat;
  verdict : string;
  detection_confidence : string;
  threshold_alpha : Q
}.

(** A value stored in the dictionary of [multi_channel_analysis]. *)
Inductive pyval : Type :=
| VReport (r : report)
| VStr (s : string)
| VList (l : list string).

(** [r['verdict']]: a [str] cannot be indexed by a key. *)
Definition get_verdict (r : pyval) : result string :=
  match r with
  | VReport rep => Ok (verdict rep)
  | VStr _ => Raise TypeError
  | VList _ => Raise TypeError
  end.

(** [results[key] = v] on an insertion-ordered dictionary. *)
Fixpoint dict_set (results : list (string * pyval)) (key : string) (v : pyval)
    : list (string * pyval) :=
  match results with
  | [] => [(key, v)]
  | (k, w) :: rest =>
      if String.eqb k key then (k, v) :: rest else (k, w) :: dict_set rest key v
  end.

(** [results[key]] *)
Fixpoint dict_get (results : list (string * pyval)) (key : string) : option pyval :=
  match results with
  | [] => None
  | (k, w) :: rest => if String.eqb k key then Some w else dict_get rest key
  end.

(** [any(r['verdict'] == 'DETECTED' for r in values)], left to right,
    stopping at the first hit. *)
Fixpoint any_detected_in (values : list pyval) : result bool :=
  match values with
  | [] => Ok false
  | r :: rest =>
      (v <-- get_verdict r ;;
       if String.eqb v "DETECTED" then Ok true else any_detected_in rest)%res
  end.

(** [[ch for ch, r in items if ch != 'overall_verdict' and
    r['verdict'] == 'DETECTED']]; [and] does not evaluate its right side
    when the left is false. *)
Fixpoint channels_detected_in (items : list (string * pyval)) : result (list string) :=
  match items with
  | [] => Ok []
  | (ch, r) :: rest =>
      (keep <-- (if negb (String.eqb ch "overall_verdict")
                 then (v <-- get_verdict r ;; Ok (String.eqb v "DETECTED"))
                 else Ok false) ;;
       tail <-- channels_detected_in rest ;;
       Ok (if keep then ch :: tail else tail))%res
  end.

(** The result of [calculate_visual_difference]. *)
Record visual_difference : Type := mk_visual_difference {
  mse : pyfloat;
  psnr : pyfloat;
  quality_rating : string;
  pixels_changed : Z;
  vd_total_pixels : Z;
  percent_pixels_changed : pyfloat
}.

(** The result of [calculate_epsilon_visibility]; of [recommendation],
    a formatted text, the branch taken is kept. *)
Inductive recommendation_kind : Type :=
| WillBeVisible
| CapacityTooLow
| Marginal.

Record epsilon_visibility : Type := mk_epsilon_visibility {
  scale_low_epsilon : Q;
  scale_high_epsilon : Q;
  expected_noise_difference : Q;
  capacity_usage_percent : Q;
  statistically_visible : bool;
  recommendation : recommendation_kind
}.

(** [np.mean] of integer-valued samples; the mean of nothing is [nan].
    The squared differences of [uint8] samples are integers, which floats
    add exactly, so the sum is exact and the mean is zero exactly when
    the sum is. *)
Definition np_mean (l : list Z) : pyfloat :=
  np_truediv (fold_left Z.add l 0) (Z.of_nat (length l)).

Section Analyzer.

(** From the libraries: scipy's [chisquare(f_obs, f_exp)], returning
    the statistic and the p-value, and numpy's [sqrt] and [log10]. *)
Variable chisquare : Z * Z -> Q * Q -> pyfloat * pyfloat.
Variable np_sqrt : Q -> Q.
Variable np_log10 : Q -> Q.

Definition chi_square_attack (img_array : ndarray) (channel : string)
    : result report :=
  (selected <--
     (if String.eqb (lower channel) "red"
      then Ok (plane 0 0 (data img_array), "Red")
      else if String.eqb (lower channel) "green"
      then Ok (plane 1 0 (data img_array), "Green")
      else if String.eqb (lower channel) "blue"
      then Ok (plane 2 0 (data img_array), "Blue")
      else if String.eqb (lower channel) "all"
      then Ok (data img_array, "All (RGB)")
      else Raise (ValueError BadChannel)) ;;
   let '(channel_data, channel_name) := selected in
   let lsbs := (fun v => Z.land v 1) <$> channel_data in
   let count_0 := np_count (fun b => b =? 0) lsbs in
   let count_1 := np_count (fun b => b =? 1) lsbs in
   let observed_freq := (count_0, count_1) in
   let total := Z.of_nat (length lsbs) in
   let expected_freq := (inject_Z total / 2, inject_Z total / 2)%Q in
   let '(chi2_stat, p_value) := chisquare observed_freq expected_freq in
   let expected_percent := 50%Q in
   let actual_percent_0 := fmap_pos (fun x => x * 100)%Q (np_truediv count_0 total) in
   let actual_percent_1 := fmap_pos (fun x => x * 100)%Q (np_truediv count_1 total) in
   let deviation := fmap_pos (fun x => Qabs (x - expected_percent))%Q actual_percent_0 in
   let alpha := (5 # 100)%Q in
   let '(verdict, confidence) :=
     if flt p_value alpha
     then ("NON-RANDOM LSB DISTRIBUTION", "High")
     else ("RANDOM-LOOKING LSB DISTRIBUTION",
           if flt p_value (2 # 10) then "Low" else "Very Low") in
   Ok {| channel := channel_name;
         total_pixels := total;
         lsb_0_count := count_0;
         lsb_1_count := count_1;
         lsb_0_percent := actual_percent_0;
         lsb_1_percent := actual_percent_1;
         deviation_from_50_50 := deviation;
         chi_square_statistic := chi2_stat;
         p_value := p_value;
         verdict := verdict;
         detection_confidence := confidence;
         threshold_alpha := alpha |})%res.

(** The loop [for channel in ['red', 'green', 'blue']]. *)
Fixpoint channel_loop (img_array : ndarray) (results : list (string * pyval))
    (channels : list string) : result (list (string * pyval)) :=
  match channels with
  | [] => Ok results
  | channel :: rest =>
      (rep <-- chi_square_attack img_array channel ;;
       channel_loop img_array (dict_set results channel (VReport rep)) rest)%res
  end.

Definition multi_channel_analysis (img_array : ndarray)
    : result (list (string * pyval)) :=
  (results <-- channel_loop img_array [] ["red"; "green"; "blue"] ;;
   any_detected <-- any_detected_in (snd <$> results) ;;
   let results :=
     dict_set results "overall_verdict"
       (VStr (if any_detected then "DETECTED" else "UNDETECTED")) in
   detected <-- channels_detected_in results ;;
   let results := dict_set results "channels_detected" (VList detected) in
   Ok results)%res.

(** [20 * np.log10(max_pixel / np.sqrt(mse))]; [np_mean] never gives
    [inf]. *)
Definition psnr_of (mse : pyfloat) : pyfloat :=
  if feq mse 0 then PosInf
  else
    match mse with
    | Finite m =>
        let max_pixel := 255%Q in
        Finite (20 * np_log10 (max_pixel / np_sqrt m))%Q
    | PosInf => NaN
    | NaN => NaN
    end.

Definition calculate_visual_difference (orig_img stego_img : ndarray)
    : result visual_difference :=
  if negb ((height orig_img =? height stego_img)%nat
           && (width orig_img =? width stego_img)%nat)
  then Raise (ValueError DimensionMismatch)
  else
    let mse :=
      np_mean (zip_with (fun o s => (o - s) ^ 2) (data orig_img) (data stego_img)) in
    let psnr := psnr_of mse in
    let pixels_changed :=
      np_count (fun p => negb (fst p =? snd p))
        (zip (data orig_img) (data stego_img)) in
    let total_pixels := Z.of_nat (size orig_img) in
    let percent_changed :=
      fmap_pos (fun x => x * 100)%Q (np_truediv pixels_changed total_pixels) in
    let quality :=
      if is_inf psnr then "Identical (no changes)"
      else if fgt psnr 40 then "Excellent (imperceptible changes)"
      else if fgt psnr 30 then "Good (barely perceptible)"
      else if fgt psnr 20 then "Fair (noticeable if inspected)"
      else "Poor (visibly different)" in
    Ok {| mse := mse;
          psnr := psnr;
          quality_rating := quality;
          pixels_changed := pixels_changed;
          vd_total_pixels := total_pixels;
          percent_pixels_changed := percent_changed |}.

End Analyzer.

Definition calculate_epsilon_visibility (message_bits image_capacity : Z)
    (epsilon_low epsilon_high : Q) : result epsilon_visibility :=
  let sensitivity := 8%Q in
  let scale_low := (sensitivity / py_max (1 # 100) epsilon_low)%Q in
  let scale_high := (sensitivity / py_max (1 # 100) epsilon_high)%Q in
  let expected_noise_low := scale_low in
  let expected_noise_high := scale_high in
  let noise_difference := Qabs (expected_noise_low - expected_noise_high) in
  (ratio <-- py_truediv message_bits image_capacity ;;
   let capacity_percent := (ratio * 100)%Q in
   let visible := Qle_bool 5 capacity_percent && Qle_bool 10 noise_difference in
   let recommendation :=
     if visible then WillBeVisible
     else if negb (Qle_bool 5 capacity_percent) then CapacityTooLow
     else Marginal in
   Ok {| scale_low_epsilon := scale_low;
         scale_high_epsilon := scale_high;
         expected_noise_difference := noise_difference;
         capacity_usage_percent := capacity_percent;
         statistically_visible := visible;
         recommendation := recommendation |})%res.

(* ===================================================================== *)
(** * Specification-level functions and concrete instances                *)
(* ===================================================================== *)

(** The count of slots [embed] modifies: floor at the true count, clip at
    the capacity. *)
Definition final_count (true_count : Z) (noise : Q) (capacity : Z) : Z :=
  Z.min (Z.max true_count (true_count + py_int noise)) capacity.

(** The secret path: the shuffled index domain of an image of [total]
    slots, of which [get_pixel_indices] returns a prefix. *)
Definition full_path (shuffle : Z -> list nat -> list nat) (seed : Z) (total : nat)
    : list nat :=
  shuffle seed (seq 0 total).

(** The bit iteration [i] of the embedding loop writes. *)
Definition bit_written (message_bits : list bool) (decoy : nat -> bool) (i : nat) : bool :=
  if (i <? length message_bits)%nat then default false (message_bits !! i) else decoy i.

(** The effect of the embedding loop on the samples: slot [path[k]] gets
    the bit of iteration [i + k]. *)
Fixpoint lsb_writes (bit_at : nat -> bool) (i : nat) (path : list nat) (d : list Z)
    : list Z :=
  match path with
  | [] => d
  | slot :: rest =>
      lsb_writes bit_at (S i) rest
        (alter (fun v => lsb_substitute v (bit_at i)) slot d)
  end.

(** A dictionary value that is a channel report with one of the two
    verdicts [chi_square_attack] gives. *)
Definition plain_verdict (v : pyval) : Prop :=
  exists rep,
    v = VReport rep /\
    (verdict rep = "NON-RANDOM LSB DISTRIBUTION" \/
     verdict rep = "RANDOM-LOOKING LSB DISTRIBUTION").

(** A message of the data model: single-byte characters. *)
Definition single_byte (message : pystr) : Prop :=
  Forall (fun c => (c < 256)%N) message.

(** ** Instances of the library functions, to evaluate the engine

    A seeded Fisher-Yates shuffle (inside-out form) driven by a linear
    congruential generator, an encoder that is UTF-8 on ASCII text, and a
    32-byte digest. *)
Definition lcg (s : Z) : Z :=
  (6364136223846793005 * s + 1442695040888963407) mod 2 ^ 64.

Fixpoint lcg_shuffle (s : Z) (l : list nat) : list nat :=
  match l with
  | [] => []
  | x :: l' =>
      let r := lcg_shuffle (lcg s) l' in
      let k := Z.to_nat (s mod (Z.of_nat (length r) + 1)) in
      take k r ++ x :: drop k r
  end.

Definition ascii_encode (text : pystr) : list Z := Z.of_N <$> text.

Definition toy_digest (bs : list Z) : list Z :=
  let s := fold_left (fun acc b => (acc * 31 + b + 7) mod 2 ^ 64) bs 0 in
  (fun i => (s / 2 ^ (Z.of_nat i)) mod 256) <$> seq 0 32.

(** Rational stand-ins for [np.sqrt] (four Newton steps) and [np.log10]
    (from the binary logarithm of the integer part). *)
Definition newton_sqrt (x : Q) : Q :=
  let step y := Qred ((y + x / y) / 2) in
  step (step (step (step (Qred ((x + 1) / 2))))).

Definition log10_approx (x : Q) : Q :=
  inject_Z (Z.log2 (Qfloor x)) * (30103 # 100000).

(** A cover image of height 2 and width 3 (18 slots) and a store holding
    only it. *)
Definition cover_2x3 : ndarray :=
  mk_ndarray 2 3
    [156; 33; 0; 255; 17; 200; 91; 64; 8; 77; 128; 250; 3; 142; 61; 19; 84; 230].

Definition heap_2x3 : heap := [cover_2x3].

(** The messages "Hi" and, with a character outside one byte, the single
    code point U+0100; the password "pw". *)
Definition msg_Hi : pystr := [72; 105]%N.
Definition msg_wide : pystr := [256]%N.
Definition pw : pystr := [112; 119]%N.

Definition no_decoy : nat -> bool := fun _ => false.
Definition all_decoy : nat -> bool := fun _ => true.

(* ===================================================================== *)
(** * The rest of the engine and of the analyzer                          *)
(* ===================================================================== *)

(** ** core_engine.py: [get_image_capacity]

    [img.size] is (width, height); the fields 'dimensions' and
    'total_pixels' are named [cap_dimensions] and [cap_total_pixels]. *)
Record capacity_info : Type := mk_capacity_info {
  cap_dimensions : nat * nat;
  cap_total_pixels : Z;
  max_bits : Z;
  max_characters : Z;
  max_characters_with_overhead : Z
}.

Definition get_image_capacity (img : ndarray) : capacity_info :=
  let '(width, height) := (width img, height img) in
  let total_pixels := Z.of_nat (width * height * 3) in
  let max_chars := total_pixels / 8 in
  {| cap_dimensions := (width, height);
     cap_total_pixels := total_pixels;
     max_bits := total_pixels;
     max_characters := max_chars;
     max_characters_with_overhead := py_int (inject_Z max_chars * (8 # 10)) |}.

(** ** core_engine.py: [embed_standard_lsb]

    The statistics it returns ('save_path' belongs to the codec). Its
    "Message too large!" [ValueError] reports the bits needed and the
    slots available; the third number of [MessageTooLarge], which only
    the text of [embed] prints, is filled in the same way. *)
Record std_stats : Type := mk_std_stats {
  std_message_length_bits : Z;
  std_message_length_chars : Z;
  std_total_pixels_modified : Z;
  std_total_capacity : Z;
  std_capacity_used_percent : Q;
  std_image_dimensions : nat * nat;
  method : string
}.

(** The innermost loop [for channel in range(channels)], with its
    [break]; it returns the [bit_index] it reached. *)
Fixpoint std_channel_loop (stego_array : ref) (row col : nat)
    (message_bits : list bool) (message_length : nat)
    (bit_index : nat) (channels : list nat) : M nat :=
  match channels with
  | [] => ret bit_index
  | channel :: rest =>
      if (message_length <=? bit_index)%nat then ret bit_index
      else
        (pixel_value <-- load stego_array row col channel ;;
         bit_to_embed <-- lift (of_option (message_bits !! bit_index) IndexError) ;;
         let new_pixel_value := lsb_substitute pixel_value bit_to_embed in
         _ <-- store stego_array row col channel new_pixel_value ;;
         std_channel_loop stego_array row col message_bits message_length
           (S bit_index) rest)%heap
  end.

(** The loop [for col in range(width)], with the [break] after its body. *)
Fixpoint std_col_loop (stego_array : ref) (row : nat) (channels : nat)
    (message_bits : list bool) (message_length : nat)
    (bit_index : nat) (cols : list nat) : M nat :=
  match cols with
  | [] => ret bit_index
  | col :: rest =>
      (bit_index <-- std_channel_loop stego_array row col message_bits
                       message_length bit_index (seq 0 channels) ;;
       if (message_length <=? bit_index)%nat then ret bit_index
       else std_col_loop stego_array row channels message_bits message_length
              bit_index rest)%heap
  end.

(** The loop [for row in range(height)], with the [break] after its body. *)
Fixpoint std_row_loop (stego_array : ref) (width channels : nat)
    (message_bits : list bool) (message_length : nat)
    (bit_index : nat) (rows : list nat) : M nat :=
  match rows with
  | [] => ret bit_index
  | row :: rest =>
      (bit_index <-- std_col_loop stego_array row channels message_bits
                       message_length bit_index (seq 0 width) ;;
       if (message_length <=? bit_index)%nat then ret bit_index
       else std_row_loop stego_array width channels message_bits message_length
              bit_index rest)%heap
  end.

Definition embed_standard_lsb (cover : ref) (message : pystr)
    : M (ref * std_stats) :=
  (img_array <-- deref cover ;;
   let '(height, width, channels) := shape img_array in
   let message_bits := string_to_bits message in
   let message_length := Z.of_nat (length message_bits) in
   let total_capacity := Z.of_nat (height * width * channels) in
   if total_capacity <? message_length
   then raise (ValueError
                 (MessageTooLarge message_length total_capacity (total_capacity / 8)))
   else
     stego_array <-- np_copy cover ;;
     let bit_index := 0%nat in
     _ <-- std_row_loop stego_array width channels message_bits
             (length message_bits) bit_index (seq 0 height) ;;
     ratio <-- lift (py_truediv message_length total_capacity) ;;
     ret (stego_array,
          {| std_message_length_bits := message_length;
             std_message_length_chars := Z.of_nat (length message);
             std_total_pixels_modified := message_length;
             std_total_capacity := total_capacity;
             std_capacity_used_percent := (ratio * 100)%Q;
             std_image_dimensions := (width, height);
             method := "Standard Sequential LSB (No DP)" |}))%heap.

(** ** steganalysis.py: [compare_images]

    Differences of floats can be negative or [-inf]: the full range of a
    float, zero unsigned. *)
Inductive xfloat : Type :=
| XFinite (q : Q)
| XPosInf
| XNegInf
| XNaN.

Definition of_pyfloat (x : pyfloat) : xfloat :=
  match x with
  | Finite q => XFinite q
  | PosInf => XPosInf
  | NaN => XNaN
  end.

(** [a - b] *)
Definition xsub (a b : xfloat) : xfloat :=
  match a, b with
  | XNaN, _ | _, XNaN => XNaN
  | XFinite x, XFinite y => XFinite (x - y)
  | XFinite _, XPosInf => XNegInf
  | XFinite _, XNegInf => XPosInf
  | XPosInf, XPosInf => XNaN
  | XPosInf, _ => XPosInf
  | XNegInf, XNegInf => XNaN
  | XNegInf, _ => XNegInf
  end.

(** [abs(a)] *)
Definition xabs (a : xfloat) : xfloat :=
  match a with
  | XFinite x => XFinite (Qabs x)
  | XPosInf => XPosInf
  | XNegInf => XPosInf
  | XNaN => XNaN
  end.

(** [a / b] of numpy floats: a zero divisor gives [inf] or [nan]. *)
Definition xdiv (a b : xfloat) : xfloat :=
  match a, b with
  | XNaN, _ | _, XNaN => XNaN
  | XFinite x, XFinite y =>
      if Qeq_bool y 0
      then (if Qeq_bool x 0 then XNaN
            else if Qle_bool 0 x then XPosInf else XNegInf)
      else XFinite (x / y)
  | XFinite _, _ => XFinite 0
  | XPosInf, XFinite y => if Qle_bool 0 y then XPosInf else XNegInf
  | XNegInf, XFinite y => if Qle_bool 0 y then XNegInf else XPosInf
  | _, _ => XNaN
  end.

(** [a * 100] *)
Definition xtimes100 (a : xfloat) : xfloat :=
  match a with
  | XFinite x => XFinite (x * 100)
  | other => other
  end.

(** [a < c] and [a > 0]; false on [nan]. *)
Definition xlt (a : xfloat) (c : Q) : bool :=
  match a with
  | XFinite x => negb (Qle_bool c x)
  | XNegInf => true
  | XPosInf => false
  | XNaN => false
  end.

Definition xpositive (a : xfloat) : bool :=
  match a with
  | XFinite x => negb (Qle_bool x 0)
  | XPosInf => true
  | XNegInf => false
  | XNaN => false
  end.

(** The result of [compare_images]: the two reports, the 'changes' and
    the 'effectiveness' (its 'summary' and 'interpretation', formatted
    texts, are left out). *)
Record comparison : Type := mk_comparison {
  cmp_original : report;
  cmp_stego : report;
  p_value_change : xfloat;
  p_value_change_percent : xfloat;
  deviation_change : xfloat;
  original_deviation : pyfloat;
  stego_deviation : pyfloat;
  detection_changed : bool;
  rating : string;
  color : string;
  cmp_verdict : string
}.

Section Comparison.

Variable chisquare : Z * Z -> Q * Q -> pyfloat * pyfloat.

Definition compare_images (original stego : ndarray) : result comparison :=
  (original_result <-- chi_square_attack chisquare original "all" ;;
   stego_result <-- chi_square_attack chisquare stego "all" ;;
   let p_value_change :=
     xsub (of_pyfloat (p_value stego_result)) (of_pyfloat (p_value original_result)) in
   let deviation_change :=
     xabs (xsub (of_pyfloat (deviation_from_50_50 stego_result))
                (of_pyfloat (deviation_from_50_50 original_result))) in
   let '(effectiveness, color_code, dp_verdict) :=
     if xlt deviation_change (5 # 10)
     then ("EXCELLENT", "green", "STEGANOGRAPHY UNDETECTABLE")
     else if xlt deviation_change 1
     then ("GOOD", "lightgreen", "STEGANOGRAPHY MOSTLY UNDETECTABLE")
     else if xlt deviation_change 2
     then ("FAIR", "yellow", "STEGANOGRAPHY POSSIBLY DETECTABLE")
     else ("POOR", "red", "STEGANOGRAPHY DETECTABLE") in
   Ok {| cmp_original := original_result;
         cmp_stego := stego_result;
         p_value_change := p_value_change;
         p_value_change_percent :=
           (if xpositive (of_pyfloat (p_value original_result))
            then xtimes100 (xdiv p_value_change (of_pyfloat (p_value original_result)))
            else XFinite 0);
         deviation_change := deviation_change;
         original_deviation := deviation_from_50_50 original_result;
         stego_deviation := deviation_from_50_50 stego_result;
         detection_changed :=
           negb (String.eqb (verdict original_result) (verdict stego_result));
         rating := effectiveness;
         color := color_code;
         cmp_verdict := dp_verdict |})%res.

End Comparison.

(** ** gui.py: what the front end computes around the engine *)

(** [update_message_stats], on the stripped text of the message box: the
    character count and the bit count it displays. *)
Definition update_message_stats (text : pystr) : Z * Z :=
  let char_count := Z.of_nat (length text) in
  let bit_count := char_count * 8 in
  (char_count, bit_count).

(** The epsilon analysis [embed_message] runs on the statistics of a
    successful [embed], with [epsilon_low=0.1] and [epsilon_high=5.0]. *)
Definition embed_epsilon_analysis (st : stats) : result epsilon_visibility :=
  calculate_epsilon_visibility (message_length_bits st) (total_capacity st)
    (1 # 10) 5.

(** ** Specification-level helpers for the added functions *)

(** The array [a] with its samples replaced. *)
Definition with_data (a : ndarray) (d : list Z) : ndarray :=
  mk_ndarray (height a) (width a) d.

(** The bit of the message at a position below its length. *)
Definition message_bit (message_bits : list bool) (i : nat) : bool :=
  default false (message_bits !! i).

(** A stand-in for scipy's [chisquare] on two categories, to evaluate the
    analyzer: the exact statistic, and for the p-value the decreasing
    function 1 / (1 + statistic) of it; [nan] when an expected frequency
    is zero. *)
Definition chisquare_standin (f_obs : Z * Z) (f_exp : Q * Q) : pyfloat * pyfloat :=
  let '(o0, o1) := f_obs in
  let '(e0, e1) := f_exp in
  if Qeq_bool e0 0 || Qeq_bool e1 0 then (NaN, NaN)
  else
    let stat := ((inject_Z o0 - e0) * (inject_Z o0 - e0) / e0
                 + (inject_Z o1 - e1) * (inject_Z o1 - e1) / e1)%Q in
    (Finite (Qred stat), Finite (Qred (1 / (1 + stat)))).

(** A larger cover, 24 x 24 pixels, to evaluate the comparison on a
    message that uses little of the capacity. *)
Definition cover_24x24 : ndarray :=
  mk_ndarray 24 24 ((fun i => Z.of_nat ((i * 37 + 11) mod 256)) <$> seq 0 1728).

Definition msg_H : pystr := [72]%N.

(* ===================================================================== *)
(** * Properties of the bit codec                                         *)
(* ===================================================================== *)

Lemma rbind_ok {A B} (r : result A) (k : A -> result B) b :
  rbind r k = Ok b -> exists a, r = Ok a /\ k a = Ok b.
Proof. destruct r as [a|e]; simpl; [eauto | discriminate]. Qed.

Lemma binary_value_snoc bs b :
  binary_value (bs ++ [b]) = (2 * binary_value bs + N.b2n b)%N.
Proof. unfold binary_value. by rewrite fold_left_app. Qed.

Lemma binary_value_zeros k bs :
  binary_value (replicate k false ++ bs) = binary_value bs.
Proof.
  unfold binary_value. rewrite fold_left_app.
  replace (fold_left _ (replicate k false) 0%N) with 0%N; [done|].
  induction k as [|k IH]; simpl; [done|]. exact IH.
Qed.

Lemma binary_value_digits_pos p : binary_value (bin_digits_pos p) = Npos p.
Proof.
  induction p as [p IH|p IH|]; simpl; [| |done];
    rewrite binary_value_snoc, IH; simpl; lia.
Qed.

Lemma binary_value_digits v : binary_value (bin_digits v) = v.
Proof. destruct v as [|p]; [done|]. apply binary_value_digits_pos. Qed.

Lemma binary_value_format v : binary_value (format_08b v) = v.
Proof. unfold format_08b. by rewrite binary_value_zeros, binary_value_digits. Qed.

Lemma bin_digits_pos_length p n :
  (Z.pos p < 2 ^ Z.of_nat n)%Z -> (length (bin_digits_pos p) <= n)%nat.
Proof.
  revert n. induction p as [p IH|p IH|]; intros n Hp.
  - destruct n as [|n]; [simpl in Hp; lia|].
    simpl. rewrite length_app. simpl.
    rewrite Nat2Z.inj_succ, Z.pow_succ_r in Hp by lia.
    specialize (IH n). lia.
  - destruct n as [|n]; [simpl in Hp; lia|].
    simpl. rewrite length_app. simpl.
    rewrite Nat2Z.inj_succ, Z.pow_succ_r in Hp by lia.
    specialize (IH n). lia.
  - destruct n as [|n]; [simpl in Hp; lia|]. simpl. lia.
Qed.

Lemma bin_digits_pos_length_ge p n :
  (2 ^ Z.of_nat n <= Z.pos p)%Z -> (n < length (bin_digits_pos p))%nat.
Proof.
  revert n. induction p as [p IH|p IH|]; intros n Hp.
  - simpl. rewrite length_app. simpl. destruct n as [|n]; [lia|].
    rewrite Nat2Z.inj_succ, Z.pow_succ_r in Hp by lia.
    specialize (IH n). lia.
  - simpl. rewrite length_app. simpl. destruct n as [|n]; [lia|].
    rewrite Nat2Z.inj_succ, Z.pow_succ_r in Hp by lia.
    specialize (IH n). lia.
  - destruct n as [|n]; [simpl; lia|].
    rewrite Nat2Z.inj_succ, Z.pow_succ_r in Hp by lia.
    assert (0 < 2 ^ Z.of_nat n)%Z by (apply Z.pow_pos_nonneg; lia). lia.
Qed.

Lemma format_08b_length v : (v < 256)%N -> length (format_08b v) = 8%nat.
Proof.
  intros Hv. unfold format_08b. rewrite length_app, length_replicate.
  assert (1 <= length (bin_digits v) <= 8)%nat; [|lia].
  destruct v as [|p]; simpl; [lia|]. split.
  - destruct p; simpl; rewrite ?length_app; simpl; lia.
  - apply (bin_digits_pos_length p 8). simpl. lia.
Qed.

Lemma format_08b_length_wide v : (256 <= v)%N -> (8 < length (format_08b v))%nat.
Proof.
  intros Hv. unfold format_08b. rewrite length_app.
  destruct v as [|p]; [lia|]. simpl.
  pose proof (bin_digits_pos_length_ge p 8). simpl in *. lia.
Qed.

Lemma string_to_bits_acc text acc :
  fold_left (fun bits char => bits ++ format_08b char) text acc
  = acc ++ string_to_bits text.
Proof.
  unfold string_to_bits. revert acc.
  induction text as [|c text IH]; intros acc; simpl.
  - by rewrite app_nil_r.
  - rewrite IH, (IH (format_08b c)). by rewrite app_assoc.
Qed.

Lemma string_to_bits_cons c text :
  string_to_bits (c :: text) = format_08b c ++ string_to_bits text.
Proof. unfold string_to_bits at 1. simpl. apply string_to_bits_acc. Qed.

Lemma string_to_bits_length text :
  single_byte text -> length (string_to_bits text) = (8 * length text)%nat.
Proof.
  induction 1 as [|c text Hc _ IH]; [done|].
  rewrite string_to_bits_cons, length_app, format_08b_length, IH by done.
  simpl. lia.
Qed.

Lemma int_base2_nonempty bs : bs <> [] -> int_base2 bs = Ok (binary_value bs).
Proof. destruct bs; [congruence | done]. Qed.

Lemma py_slice_nonempty {A} (l : list A) i j :
  (i < length l)%nat -> (i < j)%nat -> py_slice l i j <> [].
Proof.
  intros Hi Hj Hnil. apply (f_equal length) in Hnil.
  unfold py_slice in Hnil. rewrite length_take, length_drop in Hnil.
  simpl in Hnil. lia.
Qed.

(** The decoding loop over any list of in-range offsets. *)
Lemma bits_to_string_fold bits offsets acc :
  Forall (fun i => (i < length bits)%nat) offsets ->
  fold_left
    (fun text i =>
       (t <-- text ;;
        ascii_val <-- int_base2 (py_slice bits i (i + 8)) ;;
        Ok (t ++ [ascii_val]))%res)
    offsets (Ok acc)
  = Ok (acc ++ ((fun i => binary_value (py_slice bits i (i + 8))) <$> offsets)).
Proof.
  intros Hoff. revert acc.
  induction Hoff as [|i offsets Hi _ IH]; intros acc; simpl.
  - by rewrite app_nil_r.
  - rewrite int_base2_nonempty by (apply py_slice_nonempty; lia).
    simpl. rewrite IH. by rewrite <- app_assoc.
Qed.

Lemma py_range_step_length stop step :
  length (py_range_step stop step) = ((stop + step - 1) / step)%nat.
Proof. unfold py_range_step. by rewrite length_fmap, length_seq. Qed.

Lemma py_range_step_lookup stop step k :
  (k < (stop + step - 1) / step)%nat ->
  py_range_step stop step !! k = Some (k * step)%nat.
Proof.
  intros Hk. unfold py_range_step.
  rewrite list_lookup_fmap, lookup_seq_lt by done. done.
Qed.

Lemma py_range_step_bound stop step :
  (0 < step)%nat ->
  Forall (fun i => (i < stop)%nat) (py_range_step stop step).
Proof.
  intros Hstep. unfold py_range_step. apply Forall_fmap, Forall_forall.
  intros k Hk. apply elem_of_seq in Hk. simpl in *.
  destruct Hk as [_ Hk].
  pose proof (Nat.Div0.mul_div_le (stop + step - 1) step) as Hle.
  assert (step * S k <= step * ((stop + step - 1) / step))%nat
    by (apply Nat.mul_le_mono_l; lia).
  nia.
Qed.

Lemma bits_to_string_ok bits :
  bits_to_string bits
  = Ok ((fun i => binary_value (py_slice bits i (i + 8)))
          <$> py_range_step (length bits) 8).
Proof.
  unfold bits_to_string.
  rewrite bits_to_string_fold by (apply py_range_step_bound; lia). done.
Qed.

Lemma string_to_bits_group text k c :
  single_byte text -> text !! k = Some c ->
  py_slice (string_to_bits text) (k * 8) (k * 8 + 8) = format_08b c.
Proof.
  intros Htext. revert k. induction Htext as [|c0 text Hc0 Htext IH]; intros k Hk.
  - done.
  - rewrite string_to_bits_cons. unfold py_slice.
    replace (k * 8 + 8 - k * 8)%nat with 8%nat by lia.
    destruct k as [|k]; simpl in Hk.
    + injection Hk as ->. change (0 * 8)%nat with 0%nat. rewrite drop_0.
      rewrite take_app_length'; [done | by rewrite format_08b_length].
    + rewrite drop_app_ge by (rewrite format_08b_length by done; lia).
      rewrite format_08b_length by done.
      replace (S k * 8 - 8)%nat with (k * 8)%nat by lia.
      specialize (IH k Hk). unfold py_slice in IH.
      by replace (k * 8 + 8 - k * 8)%nat with 8%nat in IH by lia.
Qed.

Lemma bits_to_string_string_to_bits text :
  single_byte text -> bits_to_string (string_to_bits text) = Ok text.
Proof.
  intros Htext. rewrite bits_to_string_ok. f_equal.
  apply list_eq. intros k.
  rewrite list_lookup_fmap, string_to_bits_length by done.
  destruct (decide (k < length text)%nat) as [Hk|Hk].
  - rewrite py_range_step_lookup
      by (replace (8 * length text + 8 - 1)%nat with (7 + length text * 8)%nat by lia;
          rewrite Nat.div_add by lia; simpl; lia).
    simpl. destruct (lookup_lt_is_Some_2 text k Hk) as [c Hc].
    rewrite (string_to_bits_group text k c), binary_value_format by done.
    by rewrite Hc.
  - rewrite (lookup_ge_None_2 text) by lia.
    rewrite lookup_ge_None_2; [done|].
    rewrite py_range_step_length.
    replace (8 * length text + 8 - 1)%nat with (7 + length text * 8)%nat by lia.
    rewrite Nat.div_add by lia. simpl. lia.
Qed.

(** C7 (as the code behaves): [bits_to_string] never fails. For every bit
    list it returns one character per started group of 8 bits, the k-th
    being the character whose code is the MSB-first binary value of
    [bits[8k : 8k+8]]; a last group of fewer than 8 bits is decoded like
    the others. For a message of single-byte characters, decoding its
    encoding gives the message back. *)
Theorem bits_to_string_groups (bits : list bool) (text : pystr) :
  single_byte text ->
  (exists decoded,
      bits_to_string bits = Ok decoded /\
      length decoded = ((length bits + 7) / 8)%nat /\
      forall k, (k < length decoded)%nat ->
        decoded !! k = Some (binary_value (py_slice bits (k * 8) (k * 8 + 8)))) /\
  bits_to_string (string_to_bits text) = Ok text.
Proof.
  intros Htext. split; [|by apply bits_to_string_string_to_bits].
  eexists. split; [apply bits_to_string_ok|].
  rewrite length_fmap, py_range_step_length.
  replace (length bits + 8 - 1)%nat with (length bits + 7)%nat by lia.
  split; [done|]. intros k Hk.
  rewrite list_lookup_fmap, py_range_step_lookup; [done|].
  by replace (length bits + 8 - 1)%nat with (length bits + 7)%nat by lia.
Qed.

Lemma bits_to_string_groups_witness :
  single_byte msg_Hi /\
  (exists decoded,
      bits_to_string [true; false; true] = Ok decoded /\
      length decoded = ((length [true; false; true] + 7) / 8)%nat /\
      forall k, (k < length decoded)%nat ->
        decoded !! k
        = Some (binary_value (py_slice [true; false; true] (k * 8) (k * 8 + 8)))) /\
  bits_to_string (string_to_bits msg_Hi) = Ok msg_Hi.
Proof.
  assert (H : single_byte msg_Hi) by (repeat constructor).
  split; [exact H|].
  exact (bits_to_string_groups [true; false; true] msg_Hi H).
Defined.

(** C7, the claim as written fails: a list of one bit, whose length is
    not a multiple of 8, is decoded without error to the character of
    code 1; ten bits give two characters. *)
Lemma bits_to_string_partial_group :
  (length [true] mod 8 <> 0)%nat /\
  bits_to_string [true] = Ok [1%N] /\
  bits_to_string [false; true; false; false; false; false; false; true; true; true]
  = Ok [65%N; 3%N].
Proof. split; [simpl; lia|]. split; reflexivity. Qed.

(* ===================================================================== *)
(** * Properties of the pixel buffers                                     *)
(* ===================================================================== *)

(** The flat index and the (row, col, channel) coordinates determine each
    other inside the image. *)
Lemma index_to_pixel_in_range index h w :
  (index < h * w * rgb)%nat ->
  let row := (index / (w * rgb))%nat in
  let col := ((index mod (w * rgb)) / rgb)%nat in
  let channel := (index mod rgb)%nat in
  (row < h)%nat /\ (col < w)%nat /\ (channel < rgb)%nat /\
  pixel_to_index row col channel w rgb = index.
Proof.
  intros Hidx. unfold rgb in *. cbv zeta.
  assert (Hw : (w * 3 <> 0)%nat) by (destruct w; lia).
  pose proof (Nat.div_mod_eq index (w * 3)) as Hq.
  pose proof (Nat.mod_upper_bound index (w * 3) Hw) as Hr.
  pose proof (Nat.div_mod_eq (index mod (w * 3)) 3) as Hq'.
  pose proof (Nat.mod_upper_bound (index mod (w * 3)) 3 ltac:(lia)) as Hr'.
  assert (Hch : (index mod 3 = (index mod (w * 3)) mod 3)%nat).
  { rewrite Hq at 1.
    replace (w * 3 * (index / (w * 3)) + index mod (w * 3))%nat
      with (index mod (w * 3) + (w * (index / (w * 3))) * 3)%nat by lia.
    apply Nat.Div0.mod_add. }
  repeat split.
  - apply Nat.Div0.div_lt_upper_bound. lia.
  - apply Nat.Div0.div_lt_upper_bound. lia.
  - lia.
  - unfold pixel_to_index. rewrite Hch. lia.
Qed.

Lemma getitem_flat a index v :
  length (data a) = size a -> data a !! index = Some v ->
  getitem a (index / (width a * rgb)) ((index mod (width a * rgb)) / rgb)
    (index mod rgb) = Ok v.
Proof.
  intros Hlen Hv.
  assert (Hidx : (index < height a * width a * rgb)%nat).
  { apply lookup_lt_Some in Hv. unfold size in Hlen. lia. }
  destruct (index_to_pixel_in_range index (height a) (width a) Hidx)
    as (Hrow & Hcol & Hch & Hflat).
  unfold getitem, in_bounds.
  rewrite (proj2 (Nat.ltb_lt _ _) Hrow), (proj2 (Nat.ltb_lt _ _) Hcol),
    (proj2 (Nat.ltb_lt _ _) Hch). cbn [andb].
  rewrite Hflat, Hv. done.
Qed.

Lemma setitem_flat a index v :
  length (data a) = size a -> (index < size a)%nat ->
  setitem a (index / (width a * rgb)) ((index mod (width a * rgb)) / rgb)
    (index mod rgb) v
  = Ok (mk_ndarray (height a) (width a) (<[index := v]> (data a))).
Proof.
  intros Hlen Hidx.
  destruct (index_to_pixel_in_range index (height a) (width a) Hidx)
    as (Hrow & Hcol & Hch & Hflat).
  unfold setitem, in_bounds.
  rewrite (proj2 (Nat.ltb_lt _ _) Hrow), (proj2 (Nat.ltb_lt _ _) Hcol),
    (proj2 (Nat.ltb_lt _ _) Hch), Hflat.
  rewrite (proj2 (Nat.ltb_lt _ _)) by lia. done.
Qed.

(** ** Substituting and reading the least-significant bit *)

Lemma lsb_of_substitute v b : lsb_of (lsb_substitute v b) = b.
Proof.
  unfold lsb_of, lsb_substitute.
  change 1 with (Z.ones 1) at 1. rewrite Z.land_ones by lia.
  change (2 ^ 1) with 2. rewrite <- Z.bit0_mod.
  rewrite Z.lor_spec, Z.land_spec, Z.b2z_bit0. simpl.
  rewrite andb_false_r. by destruct b.
Qed.

Lemma lsb_substitute_upper v b :
  0 <= v < 256 -> Z.shiftr (lsb_substitute v b) 1 = Z.shiftr v 1.
Proof.
  intros Hv. unfold lsb_substitute. apply Z.bits_inj'. intros n Hn.
  rewrite !Z.shiftr_spec, Z.lor_spec, Z.land_spec by lia.
  assert (Hb : Z.testbit (Z.b2z b) (n + 1) = false).
  { destruct b; simpl; [|apply Z.bits_0].
    change 1 with (2 ^ 0) at 1. rewrite Z.pow2_bits_eqb by lia.
    apply Z.eqb_neq. lia. }
  rewrite Hb, orb_false_r.
  destruct (decide (n + 1 < 8)) as [Hlt|Hge].
  - assert (Hm : Z.testbit 254 (n + 1) = true).
    { assert (n = 0 \/ n = 1 \/ n = 2 \/ n = 3 \/ n = 4 \/ n = 5 \/ n = 6) as Hcase by lia.
      destruct Hcase as [->|[->|[->|[->|[->|[->| ->]]]]]]; reflexivity. }
    by rewrite Hm, andb_true_r.
  - assert (Hhigh : Z.testbit v (n + 1) = false).
    { destruct (decide (v = 0)) as [->|Hnz]; [apply Z.bits_0|].
      apply Z.bits_above_log2; [lia|].
      assert (Z.log2 v < 8); [|lia].
      apply Z.log2_lt_pow2; simpl; lia. }
    by rewrite Hhigh.
Qed.

Lemma lsb_substitute_range v b : 0 <= v < 256 -> 0 <= lsb_substitute v b < 256.
Proof.
  intros Hv. unfold lsb_substitute.
  assert (Hland : 0 <= Z.land v 254 < 2 ^ 8).
  { split; [apply Z.land_nonneg; lia|].
    destruct (decide (Z.land v 254 = 0)) as [->|Hnz]; [simpl; lia|].
    apply Z.log2_lt_pow2; [pose proof (Z.land_nonneg v 254); lia|].
    eapply Z.le_lt_trans; [apply Z.log2_land; lia|]. simpl.
    apply Z.min_lt_iff. right. reflexivity. }
  split; [apply Z.lor_nonneg; destruct b; simpl; lia|].
  destruct (decide (Z.lor (Z.land v 254) (Z.b2z b) = 0)) as [->|Hnz]; [lia|].
  assert (0 <= Z.lor (Z.land v 254) (Z.b2z b))
    by (apply Z.lor_nonneg; destruct b; simpl; lia).
  change 256 with (2 ^ 8). apply Z.log2_lt_pow2; [lia|].
  rewrite Z.log2_lor by (destruct b; simpl; lia).
  apply Z.max_lub_lt.
  - destruct (decide (Z.land v 254 = 0)) as [->|Hnz']; [simpl; lia|].
    apply Z.log2_lt_pow2; lia.
  - destruct b; simpl; lia.
Qed.

(** ** The effect of the embedding loop on the samples *)

Lemma lsb_writes_length bit_at i path d :
  length (lsb_writes bit_at i path d) = length d.
Proof.
  revert i d. induction path as [|slot path IH]; intros i d; simpl; [done|].
  by rewrite IH, length_alter.
Qed.

Lemma lsb_writes_other bit_at i path d slot :
  slot ∉ path -> lsb_writes bit_at i path d !! slot = d !! slot.
Proof.
  revert i d. induction path as [|s path IH]; intros i d Hnot; simpl; [done|].
  apply not_elem_of_cons in Hnot as [Hne Hnot].
  rewrite IH by done. by apply list_lookup_alter_ne.
Qed.

Lemma lsb_writes_slot bit_at i path d k slot :
  NoDup path -> path !! k = Some slot ->
  lsb_writes bit_at i path d !! slot
  = (fun v => lsb_substitute v (bit_at (i + k)%nat)) <$> d !! slot.
Proof.
  revert i d k. induction path as [|s path IH]; intros i d k Hnd Hk; [done|].
  apply NoDup_cons in Hnd as [Hs Hnd]. simpl.
  destruct k as [|k]; simpl in Hk.
  - injection Hk as ->. rewrite lsb_writes_other by done.
    rewrite list_lookup_alter_eq. by rewrite Nat.add_0_r.
  - rewrite (IH (S i) _ k) by done.
    assert (s <> slot) by (intros ->; apply Hs; eapply list_elem_of_lookup_2; eauto).
    rewrite list_lookup_alter_ne by done.
    by replace (S i + k)%nat with (i + S k)%nat by lia.
Qed.

Lemma lsb_writes_range bit_at i path d :
  Forall (fun v => 0 <= v < 256) d ->
  Forall (fun v => 0 <= v < 256) (lsb_writes bit_at i path d).
Proof.
  revert i d. induction path as [|s path IH]; intros i d Hd; simpl; [done|].
  apply IH. apply Forall_alter; [done|]. intros v _ Hv.
  by apply lsb_substitute_range.
Qed.

(** Every sample keeps its upper seven bits, whatever the path. *)
Lemma lsb_writes_upper bit_at i path d slot v v' :
  Forall (fun v => 0 <= v < 256) d ->
  d !! slot = Some v -> lsb_writes bit_at i path d !! slot = Some v' ->
  Z.shiftr v' 1 = Z.shiftr v 1.
Proof.
  revert i d v. induction path as [|s path IH]; intros i d v Hd Hv Hv'; simpl in Hv'.
  - congruence.
  - assert (Hv256 : 0 <= v < 256).
    { eapply Forall_lookup_1 in Hd; eauto. }
    destruct (decide (s = slot)) as [->|Hne].
    + eapply IH in Hv'.
      * rewrite Hv'. by apply lsb_substitute_upper.
      * apply Forall_alter; [done|]. intros w _ Hw. by apply lsb_substitute_range.
      * rewrite list_lookup_alter_eq, Hv. done.
    + eapply IH in Hv'; [exact Hv'| |].
      * apply Forall_alter; [done|]. intros w _ Hw. by apply lsb_substitute_range.
      * by rewrite list_lookup_alter_ne.
Qed.

(** ** The embedding loop on the store *)

Lemma bind_ok {A B} (c : M A) (k : A -> M B) h a h' :
  c h = (Ok a, h') -> bind c k h = k a h'.
Proof. intros Hc. unfold bind. by rewrite Hc. Qed.

Lemma bind_raise {A B} (c : M A) (k : A -> M B) h e h' :
  c h = (Raise e, h') -> bind c k h = (Raise e, h').
Proof. intros Hc. unfold bind. by rewrite Hc. Qed.

Lemma load_flat (h : heap) r a slot v :
  h !! r = Some a -> length (data a) = size a -> data a !! slot = Some v ->
  load r (slot / (width a * rgb)) ((slot mod (width a * rgb)) / rgb)
    (slot mod rgb) h = (Ok v, h).
Proof.
  intros Hr Hlen Hv. unfold load.
  rewrite (bind_ok _ _ h a h) by (unfold deref; by rewrite Hr).
  unfold lift. by rewrite (getitem_flat a slot v).
Qed.

Lemma store_flat (h : heap) r a slot v :
  h !! r = Some a -> length (data a) = size a -> (slot < size a)%nat ->
  store r (slot / (width a * rgb)) ((slot mod (width a * rgb)) / rgb)
    (slot mod rgb) v h
  = (Ok tt, <[r := mk_ndarray (height a) (width a) (<[slot := v]> (data a))]> h).
Proof.
  intros Hr Hlen Hslot. unfold store. rewrite Hr.
  by rewrite setitem_flat.
Qed.

Lemma embed_loop_effect bits decoy path i (h : heap) stego a :
  h !! stego = Some a ->
  length (data a) = size a ->
  Forall (fun slot => (slot < size a)%nat) path ->
  embed_loop stego (width a) rgb bits (length bits) decoy i path h
  = (Ok tt,
     <[stego := mk_ndarray (height a) (width a)
                  (lsb_writes (bit_written bits decoy) i path (data a))]> h).
Proof.
  intros Hs Hlen Hpath. remember (size a) as n eqn:Hn.
  revert i h a Hs Hlen Hn.
  induction Hpath as [|slot path Hslot _ IH]; intros i h a Hs Hlen Hn.
  - simpl. unfold ret. f_equal. destruct a as [ht wd dt]. simpl.
    symmetry. by apply list_insert_id.
  - cbn [embed_loop lsb_writes].
    destruct (lookup_lt_is_Some_2 (data a) slot ltac:(lia)) as [v Hv].
    rewrite (bind_ok _ _ h v h) by (apply load_flat; congruence).
    rewrite (bind_ok _ _ h (bit_written bits decoy i) h).
    2:{ unfold bit_written. destruct (i <? length bits)%nat eqn:Hi; [|done].
        apply Nat.ltb_lt in Hi.
        destruct (lookup_lt_is_Some_2 bits i Hi) as [b Hb].
        unfold lift. by rewrite Hb. }
    set (a' := mk_ndarray (height a) (width a)
                 (<[slot := lsb_substitute v (bit_written bits decoy i)]> (data a))).
    rewrite (bind_ok _ _ h tt (<[stego := a']> h))
      by (apply store_flat; congruence || lia).
    assert (Hs' : <[stego := a']> h !! stego = Some a').
    { apply list_lookup_insert_eq. by eapply lookup_lt_Some. }
    specialize (IH (S i) (<[stego := a']> h) a' Hs').
    change (width a) with (width a') at 1.
    rewrite IH by (subst a'; simpl; unfold size in *; simpl; by rewrite ?length_insert).
    rewrite list_insert_insert_eq. do 3 f_equal.
    subst a'. simpl. f_equal.
    apply list_eq. intros j.
    destruct (decide (slot = j)) as [->|Hne].
    + rewrite list_lookup_insert_eq by (by eapply lookup_lt_Some).
      by rewrite list_lookup_alter_eq, Hv.
    + by rewrite list_lookup_insert_ne, list_lookup_alter_ne.
Qed.

(* ===================================================================== *)
(** * Properties of the engine                                            *)
(* ===================================================================== *)

(** Truncation toward zero is non-negative exactly above -1. *)
Lemma py_int_nonneg x : 0 <= py_int x <-> (-1 < x)%Q.
Proof.
  unfold py_int, Qlt. destruct x as [n d]. simpl.
  pose proof (Z.quot_rem' n (Z.pos d)) as Hqr.
  pose proof (Z.rem_bound_abs n (Z.pos d) ltac:(lia)) as Hrem.
  pose proof (Z.rem_nonneg n (Z.pos d) ltac:(lia)) as Hpos.
  pose proof (Z.rem_nonpos n (Z.pos d) ltac:(lia)) as Hneg.
  set (q := Z.quot n (Z.pos d)) in *. set (r := Z.rem n (Z.pos d)) in *.
  destruct (Z_lt_le_dec n 0) as [Hn|Hn].
  - specialize (Hneg ltac:(lia)). split; intros; nia.
  - specialize (Hpos ltac:(lia)). split; intros; nia.
Qed.

Section EngineProperties.

Context (utf8_encode : pystr -> list Z) (sha256 : list Z -> list Z).
Context (shuffle : Z -> list nat -> list nat).

(** What numpy's shuffle guarantees: the array it leaves is a
    rearrangement of the array it was given. *)
Hypothesis shuffle_perm : forall seed l, shuffle seed l ≡ₚ l.

Lemma full_path_perm seed total : full_path shuffle seed total ≡ₚ seq 0 total.
Proof. apply shuffle_perm. Qed.

Lemma full_path_length seed total : length (full_path shuffle seed total) = total.
Proof. by rewrite full_path_perm, length_seq. Qed.

Lemma full_path_NoDup seed total : NoDup (full_path shuffle seed total).
Proof. rewrite full_path_perm. apply NoDup_seq. Qed.

Lemma full_path_bound seed total :
  Forall (fun slot => (slot < total)%nat) (full_path shuffle seed total).
Proof.
  rewrite full_path_perm. apply Forall_forall. intros x Hx.
  apply elem_of_seq in Hx. lia.
Qed.

Lemma get_pixel_indices_ok h w c n seed :
  n <= Z.of_nat (h * w * c) ->
  get_pixel_indices shuffle (h, w, c) n seed
  = Ok (py_prefix (full_path shuffle seed (h * w * c)) n).
Proof.
  intros Hn. unfold get_pixel_indices.
  by rewrite (proj2 (Z.ltb_ge _ _) Hn).
Qed.

Lemma get_pixel_indices_too_many h w c n seed :
  Z.of_nat (h * w * c) < n ->
  get_pixel_indices shuffle (h, w, c) n seed
  = Raise (ValueError (TooManyChannels n (Z.of_nat (h * w * c)))).
Proof.
  intros Hn. unfold get_pixel_indices.
  by rewrite (proj2 (Z.ltb_lt _ _) Hn).
Qed.

Lemma py_prefix_take {A} (l : list A) n : exists m, py_prefix l n = take m l.
Proof. unfold py_prefix. destruct (n <? 0); eauto. Qed.

Lemma py_prefix_nonneg {A} (l : list A) n :
  0 <= n -> py_prefix l n = take (Z.to_nat n) l.
Proof. intros Hn. unfold py_prefix. by rewrite (proj2 (Z.ltb_ge _ _) Hn). Qed.

Lemma NoDup_take_prefix {A} (l : list A) m : NoDup l -> NoDup (take m l).
Proof.
  intros Hl. rewrite <- (take_drop m l) in Hl.
  by apply NoDup_app in Hl as (? & _ & _).
Qed.

Lemma py_prefix_NoDup {A} (l : list A) n : NoDup l -> NoDup (py_prefix l n).
Proof.
  intros Hl. destruct (py_prefix_take l n) as [m ->]. by apply NoDup_take_prefix.
Qed.

Lemma py_prefix_Forall {A} (P : A -> Prop) (l : list A) n :
  Forall P l -> Forall P (py_prefix l n).
Proof.
  intros Hl. destruct (py_prefix_take l n) as [m ->]. by apply Forall_take.
Qed.

(** ** The extraction loop *)

Lemma extract_loop_bits a path acc :
  length (data a) = size a ->
  Forall (fun slot => (slot < size a)%nat) path ->
  extract_loop a (width a) rgb acc path
  = Ok (acc ++ ((fun slot => lsb_of (data a !!! slot)) <$> path)).
Proof.
  intros Hlen Hpath. revert acc.
  induction Hpath as [|slot path Hslot _ IH]; intros acc; cbn [extract_loop fmap list_fmap].
  - by rewrite app_nil_r.
  - destruct (lookup_lt_is_Some_2 (data a) slot ltac:(lia)) as [v Hv].
    rewrite (getitem_flat a slot v) by done. cbn [rbind].
    rewrite IH, <- app_assoc. cbn [app].
    by rewrite (list_lookup_total_correct _ _ _ Hv).
Qed.

(** ** What a successful [embed] went through *)

Local Abbreviation embed' := (embed utf8_encode sha256 shuffle).
Local Abbreviation extract' := (extract utf8_encode sha256 shuffle).
Local Abbreviation seed_of := (password_to_seed utf8_encode sha256).

Lemma embed_ok_inv cover message password eps noise decoy (h h' : heap) stego st :
  embed' cover message password eps noise decoy h = (Ok (stego, st), h') ->
  exists img,
    h !! cover = Some img /\
    Z.of_nat (length (string_to_bits message)) <= Z.of_nat (size img) /\
    (0 < size img)%nat /\
    message_length_bits st = Z.of_nat (length (string_to_bits message)) /\
    total_capacity st = Z.of_nat (size img) /\
    noisy_count st = message_length_bits st + py_int noise /\
    total_pixels_modified st
    = final_count (message_length_bits st) noise (total_capacity st).
Proof.
  unfold embed, bind at 1, deref. intros Hembed.
  destruct (h !! cover) as [img|] eqn:Hcover; [|discriminate].
  exists img. split; [done|]. cbn [of_option shape] in Hembed.
  fold (size img) in Hembed.
  destruct (Z.of_nat (size img) <? Z.of_nat (length (string_to_bits message)))
    eqn:Hcap; [discriminate|].
  apply Z.ltb_ge in Hcap. split; [done|].
  unfold bind at 1, lift at 1 in Hembed.
  destruct (get_pixel_indices _ _ _ _) as [path|e]; [|discriminate].
  unfold bind at 1 in Hembed.
  destruct (np_copy cover h) as [[r|e] h1]; [|discriminate].
  unfold bind at 1 in Hembed.
  destruct (embed_loop _ _ _ _ _ _ _ _ h1) as [[u|e] h2]; [|discriminate].
  unfold bind at 1, lift at 1 in Hembed.
  destruct (py_truediv _ _) as [ratio|e] eqn:Hdiv; [|discriminate].
  unfold py_truediv in Hdiv.
  destruct (Z.of_nat (size img) =? 0) eqn:Hzero; [discriminate|].
  apply Z.eqb_neq in Hzero.
  unfold ret in Hembed. injection Hembed as <- <- <-. simpl.
  repeat split; try reflexivity. lia.
Qed.

Lemma final_count_bounds C noise T :
  0 <= C <= T -> C <= final_count C noise T <= T.
Proof. unfold final_count. lia. Qed.

Lemma wf_image_size_pos img : wf_image img -> (0 < size img)%nat.
Proof. intros (Hh & Hw & _). unfold size, rgb. nia. Qed.

Lemma wf_array_image img : wf_array img -> (0 < size img)%nat -> wf_image img.
Proof.
  intros Harr Hpos. unfold wf_image. unfold size, rgb in Hpos.
  split; [nia|]. split; [nia|done].
Qed.

(** ** What [embed] does on a well-formed image with enough capacity *)

Lemma embed_effect cover img message password eps noise decoy (h : heap) :
  h !! cover = Some img ->
  wf_image img ->
  Z.of_nat (length (string_to_bits message)) <= Z.of_nat (size img) ->
  exists st,
    embed' cover message password eps noise decoy h
    = (Ok (length h, st),
       h ++ [mk_ndarray (height img) (width img)
               (lsb_writes (bit_written (string_to_bits message) decoy) 0
                  (take (Z.to_nat (final_count
                                     (Z.of_nat (length (string_to_bits message)))
                                     noise (Z.of_nat (size img))))
                     (full_path shuffle (seed_of password) (size img)))
                  (data img))]).
Proof.
  intros Hcover Hwf Hcap.
  pose proof (wf_image_size_pos img Hwf) as Hpos.
  destruct Hwf as (_ & _ & Hlen & _).
  set (C := Z.of_nat (length (string_to_bits message))) in *.
  set (T := Z.of_nat (size img)) in *.
  pose proof (final_count_bounds C noise T ltac:(lia)) as Hfinal.
  unfold embed.
  rewrite (bind_ok _ _ h img h) by (unfold deref; by rewrite Hcover).
  cbn [shape]. fold (size img). fold C T.
  rewrite (proj2 (Z.ltb_ge _ _) Hcap).
  fold (final_count C noise T).
  erewrite bind_ok; last first.
  { unfold lift, shape. rewrite get_pixel_indices_ok by (fold (size img) T; lia).
    fold (size img).
    rewrite py_prefix_nonneg by lia. reflexivity. }
  rewrite (bind_ok _ _ h (length h) (h ++ [img]))
    by (unfold np_copy; by rewrite Hcover).
  erewrite bind_ok; last first.
  { apply embed_loop_effect.
    - by apply list_lookup_middle.
    - done.
    - apply Forall_take, full_path_bound. }
  erewrite bind_ok; last first.
  { unfold lift, py_truediv.
    rewrite (proj2 (Z.eqb_neq T 0)) by lia. reflexivity. }
  unfold ret. eexists. f_equal.
  rewrite insert_app_r_alt by lia. rewrite Nat.sub_diag. done.
Qed.

(** ** What [extract] does *)

Lemma extract_effect stego s password k (h : heap) :
  h !! stego = Some s ->
  length (data s) = size s ->
  k <= Z.of_nat (size s) ->
  extract' stego password k h
  = (bits_to_string
       ((fun slot => lsb_of (data s !!! slot))
          <$> py_prefix (full_path shuffle (seed_of password) (size s)) k),
     h).
Proof.
  intros Hs Hlen Hk. unfold extract.
  rewrite (bind_ok _ _ h s h) by (unfold deref; by rewrite Hs).
  cbn [shape]. fold (size s).
  rewrite (proj2 (Z.ltb_ge _ _) Hk).
  erewrite bind_ok; last first.
  { unfold lift, shape. rewrite get_pixel_indices_ok by (fold (size s); lia).
    fold (size s). reflexivity. }
  erewrite bind_ok; last first.
  { unfold lift. rewrite extract_loop_bits; [reflexivity|done|].
    apply py_prefix_Forall, full_path_bound. }
  done.
Qed.

Lemma extract_too_long stego s password k (h : heap) :
  h !! stego = Some s ->
  Z.of_nat (size s) < k ->
  extract' stego password k h
  = (Raise (ValueError (InvalidMessageLength k (Z.of_nat (size s)))), h).
Proof.
  intros Hs Hk. unfold extract.
  rewrite (bind_ok _ _ h s h) by (unfold deref; by rewrite Hs).
  cbn [shape]. fold (size s).
  by rewrite (proj2 (Z.ltb_lt _ _) Hk).
Qed.

Lemma embed_too_large cover img message password eps noise decoy (h : heap) :
  h !! cover = Some img ->
  Z.of_nat (size img) < Z.of_nat (length (string_to_bits message)) ->
  embed' cover message password eps noise decoy h
  = (Raise (ValueError
              (MessageTooLarge (Z.of_nat (length (string_to_bits message)))
                 (Z.of_nat (size img)) (Z.of_nat (size img) / 8))), h).
Proof.
  intros Hcover Hcap. unfold embed.
  rewrite (bind_ok _ _ h img h) by (unfold deref; by rewrite Hcover).
  cbn [shape]. fold (size img).
  by rewrite (proj2 (Z.ltb_lt _ _) Hcap).
Qed.

(** The bits read back along the first [length bits] slots of the path
    are the bits written there. *)
Lemma read_back_written bits decoy (path : list nat) n d :
  NoDup path ->
  Forall (fun slot => (slot < length d)%nat) path ->
  (length bits <= n)%nat -> (n <= length path)%nat ->
  (fun slot => lsb_of (lsb_writes (bit_written bits decoy) 0 (take n path) d !!! slot))
    <$> take (length bits) path
  = bits.
Proof.
  intros Hnd Hbound Hn Hlen. apply list_eq. intros i.
  rewrite list_lookup_fmap.
  destruct (decide (i < length bits)%nat) as [Hi|Hi].
  - rewrite lookup_take_lt by done.
    destruct (lookup_lt_is_Some_2 path i ltac:(lia)) as [slot Hslot].
    destruct (lookup_lt_is_Some_2 bits i Hi) as [b Hb].
    rewrite Hslot, Hb. simpl. f_equal.
    assert (Hd : (slot < length d)%nat).
    { eapply Forall_lookup_1 in Hbound; eauto. }
    destruct (lookup_lt_is_Some_2 d slot Hd) as [v Hv].
    erewrite list_lookup_total_correct; last first.
    { rewrite (lsb_writes_slot _ 0 (take n path) d i slot).
      - rewrite Hv. reflexivity.
      - by apply NoDup_take_prefix.
      - rewrite lookup_take_lt by lia. done. }
    rewrite lsb_of_substitute. unfold bit_written. simpl.
    rewrite (proj2 (Nat.ltb_lt _ _) Hi), Hb. done.
  - rewrite lookup_take_ge by lia. simpl.
    symmetry. apply lookup_ge_None_2. lia.
Qed.

(** ** The claims about the engine *)

(** C1: round trip. For every cover image, every message of the data
    model (single-byte characters) whose bits fit the image, every
    password, every epsilon, every Laplace sample and every choice of
    decoy bits, [embed] succeeds and [extract] on the stego buffer with
    the same password and the message's bit length returns exactly the
    message. *)
Theorem embed_extract_round_trip cover img message password eps noise decoy
    (h : heap) :
  h !! cover = Some img ->
  wf_image img ->
  single_byte message ->
  Z.of_nat (length (string_to_bits message)) <= Z.of_nat (size img) ->
  exists stego st h',
    embed' cover message password eps noise decoy h = (Ok (stego, st), h') /\
    message_length_bits st = Z.of_nat (length (string_to_bits message)) /\
    extract' stego password (message_length_bits st) h' = (Ok message, h').
Proof.
  intros Hcover Hwf Hmsg Hcap.
  destruct (embed_effect cover img message password eps noise decoy h Hcover Hwf Hcap)
    as [st Hembed].
  destruct (embed_ok_inv _ _ _ _ _ _ _ _ _ _ Hembed)
    as (img' & Hcover' & _ & _ & Hbits & _).
  eexists _, st, _. split; [exact Hembed|]. split; [exact Hbits|].
  rewrite Hbits.
  set (bits := string_to_bits message) in *.
  set (T := Z.of_nat (size img)) in *.
  set (final := final_count (Z.of_nat (length bits)) noise T).
  pose proof (final_count_bounds (Z.of_nat (length bits)) noise T ltac:(lia)) as Hfinal.
  fold final in Hfinal |- *.
  destruct Hwf as (_ & _ & Hlen & _).
  set (path := take (Z.to_nat final) (full_path shuffle (seed_of password) (size img))).
  set (s := mk_ndarray (height img) (width img)
              (lsb_writes (bit_written bits decoy) 0 path (data img))).
  assert (Hsize : size s = size img) by reflexivity.
  rewrite (extract_effect (length h) s).
  - rewrite Hsize, py_prefix_nonneg by lia. rewrite Nat2Z.id.
    subst s path. cbn [data]. rewrite read_back_written.
    + subst bits. by rewrite bits_to_string_string_to_bits.
    + apply full_path_NoDup.
    + rewrite Hlen. apply full_path_bound.
    + lia.
    + rewrite full_path_length. subst T. lia.
  - by apply list_lookup_middle.
  - rewrite Hsize. subst s. cbn [data]. by rewrite lsb_writes_length.
  - rewrite Hsize. fold T. lia.
Qed.

(** C2: the path is a function of the seed and the domain size alone (it
    reads neither the store nor any random draw, so every call returns
    the same sequence); for [0 <= N <= T] it has [N] distinct indices of
    [[0, T)], and the path for [N1 <= N] is the first [N1] elements of
    the path for [N]. *)
Theorem get_pixel_indices_prefix_consistent seed h w c n :
  0 <= n <= Z.of_nat (h * w * c) ->
  exists path,
    get_pixel_indices shuffle (h, w, c) n seed = Ok path /\
    length path = Z.to_nat n /\
    NoDup path /\
    Forall (fun slot => (slot < h * w * c)%nat) path /\
    forall n1, 0 <= n1 <= n ->
      get_pixel_indices shuffle (h, w, c) n1 seed = Ok (take (Z.to_nat n1) path).
Proof.
  intros Hn. eexists. split; [apply get_pixel_indices_ok; lia|].
  rewrite py_prefix_nonneg by lia.
  split; [|split; [|split]].
  - rewrite length_take, full_path_length. lia.
  - apply NoDup_take_prefix, full_path_NoDup.
  - apply Forall_take, full_path_bound.
  - intros n1 Hn1. rewrite get_pixel_indices_ok by lia.
    rewrite py_prefix_nonneg by lia. f_equal.
    rewrite take_take. f_equal. lia.
Qed.

(** C3 (as the code behaves): for every [embed] call that succeeds, the
    'noisy_count' field is 'message_length_bits' plus the Laplace sample
    truncated toward zero; it is at least 'message_length_bits' exactly
    when the sample is above -1. The field that is always at least
    'message_length_bits' is 'total_pixels_modified'. *)
Theorem embed_noisy_count cover message password eps noise decoy (h h' : heap)
    stego st :
  embed' cover message password eps noise decoy h = (Ok (stego, st), h') ->
  noisy_count st = message_length_bits st + py_int noise /\
  (message_length_bits st <= noisy_count st <-> (-1 < noise)%Q) /\
  message_length_bits st <= total_pixels_modified st.
Proof.
  intros Hembed.
  destruct (embed_ok_inv _ _ _ _ _ _ _ _ _ _ Hembed)
    as (img & _ & Hcap & _ & Hbits & Htotal & Hnoisy & Hfinal).
  split; [done|]. split.
  - rewrite Hnoisy, <- py_int_nonneg. lia.
  - rewrite Hfinal. apply final_count_bounds. lia.
Qed.

(** C4: floor and clip. For every successful [embed], with true bit count
    C, capacity T = H*W*3 and Laplace sample eta, 'total_pixels_modified'
    is min(max(C, C + trunc(eta)), T), and C <= total_pixels_modified <= T. *)
Theorem embed_floor_and_clip cover message password eps noise decoy (h h' : heap)
    stego st :
  embed' cover message password eps noise decoy h = (Ok (stego, st), h') ->
  exists img,
    h !! cover = Some img /\
    message_length_bits st = Z.of_nat (length (string_to_bits message)) /\
    total_capacity st = Z.of_nat (height img * width img * 3) /\
    total_pixels_modified st
    = Z.min (Z.max (message_length_bits st) (message_length_bits st + py_int noise))
        (total_capacity st) /\
    message_length_bits st <= total_pixels_modified st <= total_capacity st.
Proof.
  intros Hembed.
  destruct (embed_ok_inv _ _ _ _ _ _ _ _ _ _ Hembed)
    as (img & Hcover & Hcap & _ & Hbits & Htotal & Hnoisy & Hfinal).
  exists img. repeat split; try done.
  - rewrite Hfinal. apply final_count_bounds. lia.
  - rewrite Hfinal. apply final_count_bounds. lia.
Qed.

(** *** The only exception the loops can raise is [IndexError] *)

Lemma load_raises r row col ch (h h' : heap) e :
  load r row col ch h = (Raise e, h') -> e = IndexError.
Proof.
  unfold load, bind, deref, lift. intros Hload.
  destruct (h !! r) as [a|]; simpl in Hload; [|congruence].
  unfold getitem in Hload.
  destruct (in_bounds _ _ _ _); [|congruence].
  destruct (data a !! _); simpl in Hload; congruence.
Qed.

Lemma store_raises r row col ch v (h h' : heap) e :
  store r row col ch v h = (Raise e, h') -> e = IndexError.
Proof.
  unfold store. intros Hstore.
  destruct (h !! r) as [a|]; [|congruence].
  unfold setitem in Hstore. destruct (_ && _); congruence.
Qed.

Lemma embed_loop_raises stego w c bits n decoy path i (h h' : heap) e :
  embed_loop stego w c bits n decoy i path h = (Raise e, h') -> e = IndexError.
Proof.
  revert i h. induction path as [|slot path IH]; intros i h Hloop.
  - discriminate.
  - cbn [embed_loop] in Hloop. unfold bind at 1 in Hloop.
    destruct (load _ _ _ _ h) as [[v|e1] h1] eqn:Hload.
    2:{ injection Hloop as <- <-. by eapply load_raises. }
    unfold bind at 1 in Hloop.
    assert (Hstep : forall b h2,
      bind (store stego (slot / (w * c)) ((slot mod (w * c)) / c) (slot mod c)
              (lsb_substitute v b))
        (fun _ => embed_loop stego w c bits n decoy (S i) path) h2
      = (Raise e, h') -> e = IndexError).
    { intros b h2 Hb. unfold bind in Hb.
      destruct (store _ _ _ _ _ h2) as [[u|e3] h3] eqn:Hstore.
      - by eapply IH.
      - injection Hb as <- <-. by eapply store_raises. }
    destruct (i <? n)%nat.
    + unfold lift in Hloop. destruct (bits !! i) as [b|]; simpl in Hloop.
      * by eapply Hstep.
      * congruence.
    + unfold ret in Hloop. by eapply Hstep.
Qed.

Lemma extract_loop_raises a w c acc path e :
  extract_loop a w c acc path = Raise e -> e = IndexError.
Proof.
  revert acc. induction path as [|slot path IH]; intros acc Hloop.
  - discriminate.
  - cbn [extract_loop] in Hloop.
    destruct (getitem _ _ _ _) as [v|e1] eqn:Hget; cbn [rbind] in Hloop.
    + by eapply IH.
    + injection Hloop as <-. unfold getitem in Hget.
      destruct (in_bounds _ _ _ _); [|congruence].
      destruct (data a !! _); simpl in Hget; congruence.
Qed.

Lemma embed_no_value_error cover img message password eps noise decoy (h : heap) e :
  h !! cover = Some img ->
  Z.of_nat (length (string_to_bits message)) <= Z.of_nat (size img) ->
  fst (embed' cover message password eps noise decoy h) <> Raise (ValueError e).
Proof.
  intros Hcover Hcap. unfold embed.
  rewrite (bind_ok _ _ h img h) by (unfold deref; by rewrite Hcover).
  cbn [shape]. fold (size img).
  rewrite (proj2 (Z.ltb_ge _ _) Hcap).
  set (C := Z.of_nat (length (string_to_bits message))) in *.
  set (T := Z.of_nat (size img)) in *.
  fold (final_count C noise T).
  pose proof (final_count_bounds C noise T ltac:(lia)) as Hfinal.
  erewrite bind_ok; last first.
  { unfold lift, shape. rewrite get_pixel_indices_ok by (fold (size img) T; lia).
    reflexivity. }
  rewrite (bind_ok _ _ h (length h) (h ++ [img]))
    by (unfold np_copy; by rewrite Hcover).
  unfold bind at 1.
  destruct (embed_loop _ _ _ _ _ _ _ _ _) as [[u|e1] h1] eqn:Hloop.
  - unfold bind, lift, py_truediv. by destruct (T =? 0).
  - apply embed_loop_raises in Hloop as ->. discriminate.
Qed.

Lemma extract_no_value_error stego s password k (h : heap) e :
  h !! stego = Some s ->
  k <= Z.of_nat (size s) ->
  fst (extract' stego password k h) <> Raise (ValueError e).
Proof.
  intros Hs Hk. unfold extract.
  rewrite (bind_ok _ _ h s h) by (unfold deref; by rewrite Hs).
  cbn [shape]. fold (size s).
  rewrite (proj2 (Z.ltb_ge _ _) Hk).
  erewrite bind_ok; last first.
  { unfold lift, shape. rewrite get_pixel_indices_ok by (fold (size s); lia).
    reflexivity. }
  unfold bind at 1, lift at 1.
  destruct (extract_loop _ _ _ _ _) as [bits|e1] eqn:Hloop.
  - unfold lift. by rewrite bits_to_string_ok.
  - apply extract_loop_raises in Hloop as ->. discriminate.
Qed.

(** C5: on an image of capacity T = H*W*3, [embed] raises a [ValueError],
    the "Message too large" one, exactly when the message's bit count
    exceeds T, and [extract] raises a [ValueError], the "Invalid message
    length" one, exactly when the requested bit count exceeds T. In both
    failures the store, and with it every pixel of the input buffer, is
    as it was. On a decoded image a message that fits is embedded and a
    request that fits is extracted. *)
Theorem insufficient_capacity_errors cover img message password eps noise decoy
    k (h : heap) :
  h !! cover = Some img ->
  let C := Z.of_nat (length (string_to_bits message)) in
  let T := Z.of_nat (height img * width img * 3) in
  (T < C <->
   exists e, fst (embed' cover message password eps noise decoy h)
             = Raise (ValueError e)) /\
  (T < C ->
   embed' cover message password eps noise decoy h
   = (Raise (ValueError (MessageTooLarge C T (T / 8))), h)) /\
  (wf_image img -> C <= T ->
   exists stego st h',
     embed' cover message password eps noise decoy h = (Ok (stego, st), h')) /\
  (T < k <->
   exists e, fst (extract' cover password k h) = Raise (ValueError e)) /\
  (T < k ->
   extract' cover password k h
   = (Raise (ValueError (InvalidMessageLength k T)), h)) /\
  (wf_image img -> k <= T ->
   exists text, extract' cover password k h = (Ok text, h)).
Proof.
  intros Hcover C T.
  change (height img * width img * 3)%nat with (size img) in T.
  assert (Hembed_big : T < C ->
     embed' cover message password eps noise decoy h
     = (Raise (ValueError (MessageTooLarge C T (T / 8))), h))
    by (intros; by apply embed_too_large).
  assert (Hextract_big : T < k ->
     extract' cover password k h
     = (Raise (ValueError (InvalidMessageLength k T)), h))
    by (intros; by apply extract_too_long).
  split; [|split; [done|split; [|split; [|split; [done|]]]]].
  - split.
    + intros Hbig. rewrite Hembed_big by done. eauto.
    + intros [e He]. destruct (Z_lt_le_dec T C) as [|Hfit]; [done|].
      by eapply embed_no_value_error in He.
  - intros Hwf Hfit.
    destruct (embed_effect cover img message password eps noise decoy h
                Hcover Hwf Hfit) as [st Hok].
    eauto.
  - split.
    + intros Hbig. rewrite Hextract_big by done. eauto.
    + intros [e He]. destruct (Z_lt_le_dec T k) as [|Hfit]; [done|].
      by eapply extract_no_value_error in He.
  - intros (_ & _ & Hlen & _) Hfit.
    rewrite (extract_effect cover img) by done.
    rewrite bits_to_string_ok. eauto.
Qed.

(** C6: frame of [embed]. After a successful [embed] every buffer that
    was in the store, the cover included, is unchanged; the stego buffer
    is a fresh one of the same shape; it agrees with the cover outside the
    first 'total_pixels_modified' slots of the seeded path, and at every
    slot the upper seven bits of the sample are those of the cover. *)
Theorem embed_frame cover img message password eps noise decoy (h h' : heap)
    stego st :
  h !! cover = Some img ->
  wf_array img ->
  embed' cover message password eps noise decoy h = (Ok (stego, st), h') ->
  (forall r a, h !! r = Some a -> h' !! r = Some a) /\
  h !! stego = None /\
  exists s,
    h' !! stego = Some s /\
    shape s = shape img /\
    length (data s) = length (data img) /\
    forall slot v, data img !! slot = Some v ->
      exists v',
        data s !! slot = Some v' /\
        Z.shiftr v' 1 = Z.shiftr v 1 /\
        (slot ∉ take (Z.to_nat (total_pixels_modified st))
                  (full_path shuffle (seed_of password) (size img)) ->
         v' = v).
Proof.
  intros Hcover Harr Hembed.
  destruct (embed_ok_inv _ _ _ _ _ _ _ _ _ _ Hembed)
    as (img' & Hcover' & Hcap & Hpos & Hbits & Htotal & _ & Hfinal).
  assert (img' = img) as -> by congruence.
  destruct (embed_effect cover img message password eps noise decoy h
              Hcover (wf_array_image img Harr Hpos) Hcap) as [st' Hok].
  rewrite Hok in Hembed. injection Hembed as <- <- <-.
  rewrite Hfinal, Hbits, Htotal.
  set (path := take _ _).
  split; [intros r a Hr; by apply lookup_app_l_Some|].
  split; [by apply lookup_ge_None_2|].
  eexists. split; [by apply list_lookup_middle|].
  split; [done|]. cbn [data]. split; [apply lsb_writes_length|].
  intros slot v Hv.
  destruct (lookup_lt_is_Some_2
              (lsb_writes (bit_written (string_to_bits message) decoy) 0 path (data img))
              slot) as [v' Hv'].
  { rewrite lsb_writes_length. by eapply lookup_lt_Some. }
  exists v'. split; [done|]. destruct Harr as (_ & Hrange). split.
  - by eapply lsb_writes_upper.
  - intros Hnot. rewrite lsb_writes_other in Hv' by done. congruence.
Qed.

End EngineProperties.

(* ===================================================================== *)
(** * The engine on concrete inputs                                       *)
(* ===================================================================== *)

(** The seeded Fisher-Yates instance is a shuffle. *)
Lemma lcg_shuffle_perm seed l : lcg_shuffle seed l ≡ₚ l.
Proof.
  revert seed. induction l as [|x l IH]; intros seed; simpl; [done|].
  rewrite <- Permutation_middle, take_drop. by rewrite IH.
Qed.

Lemma cover_2x3_wf : wf_image cover_2x3.
Proof.
  unfold wf_image, cover_2x3, size, rgb. simpl.
  repeat split; try lia. repeat constructor; lia.
Qed.

Lemma msg_Hi_single_byte : single_byte msg_Hi.
Proof. repeat constructor. Qed.

Lemma embed_extract_round_trip_witness :
  exists stego st h',
    embed ascii_encode toy_digest lcg_shuffle 0%nat msg_Hi pw 1 (7 # 2) all_decoy
      heap_2x3 = (Ok (stego, st), h') /\
    message_length_bits st = Z.of_nat (length (string_to_bits msg_Hi)) /\
    extract ascii_encode toy_digest lcg_shuffle stego pw (message_length_bits st) h'
    = (Ok msg_Hi, h').
Proof.
  apply (embed_extract_round_trip ascii_encode toy_digest lcg_shuffle
           lcg_shuffle_perm 0%nat cover_2x3 msg_Hi pw 1 (7 # 2) all_decoy heap_2x3).
  - reflexivity.
  - exact cover_2x3_wf.
  - exact msg_Hi_single_byte.
  - vm_compute. discriminate.
Defined.

(** Outside the data model the round trip is lost: the single character
    U+0100, which is not a single byte, is encoded on 9 bits, which fit
    the 18 slots; [embed] succeeds, and [extract] with the same password
    and the bit length 9 returns the two characters of codes 128 and 0. *)
Lemma round_trip_fails_on_wide_character :
  Z.of_nat (length (string_to_bits msg_wide)) <= Z.of_nat (size cover_2x3) /\
  exists stego st h',
    embed ascii_encode toy_digest lcg_shuffle 0%nat msg_wide pw 1 (7 # 2) all_decoy
      heap_2x3 = (Ok (stego, st), h') /\
    message_length_bits st = Z.of_nat (length (string_to_bits msg_wide)) /\
    extract ascii_encode toy_digest lcg_shuffle stego pw (message_length_bits st) h'
    = (Ok [128; 0]%N, h') /\
    [128; 0]%N <> msg_wide.
Proof.
  split; [vm_compute; discriminate|].
  eexists _, _, _. split; [vm_compute; reflexivity|].
  split; [reflexivity|]. split; [vm_compute; reflexivity|]. discriminate.
Qed.

Lemma get_pixel_indices_prefix_consistent_witness :
  exists path,
    get_pixel_indices lcg_shuffle (2, 3, 3)%nat 12 42 = Ok path /\
    length path = Z.to_nat 12 /\
    NoDup path /\
    Forall (fun slot => (slot < 2 * 3 * 3)%nat) path /\
    forall n1, 0 <= n1 <= 12 ->
      get_pixel_indices lcg_shuffle (2, 3, 3)%nat n1 42 = Ok (take (Z.to_nat n1) path).
Proof.
  apply (get_pixel_indices_prefix_consistent lcg_shuffle lcg_shuffle_perm 42
           2%nat 3%nat 3%nat 12).
  simpl. lia.
Defined.

Lemma embed_2x3_negative_noise :
  embed ascii_encode toy_digest lcg_shuffle 0%nat msg_Hi pw 1 (- (11 # 2)) no_decoy
    heap_2x3
  = (Ok (1%nat,
         {| message_length_bits := 16;
            message_length_chars := 2;
            noisy_count := 11;
            noise_added := -5;
            total_pixels_modified := 16;
            decoy_pixels := 0;
            epsilon := 1;
            laplace_scale := 8;
            total_capacity := 18;
            capacity_used_percent := 1600 # 18;
            image_dimensions := (3, 2)%nat |}),
     heap_2x3 ++
     [mk_ndarray 2 3
        [156; 33; 0; 254; 17; 201; 91; 64; 8; 76; 128; 250; 3; 142; 60; 19; 84; 230]]).
Proof. vm_compute. reflexivity. Qed.

(** C3, the claim as written fails: with the Laplace sample -5.5 the
    call succeeds and reports 'noisy_count' 11 for 'message_length_bits'
    16. *)
Lemma noisy_count_below_true_count :
  exists stego st h',
    embed ascii_encode toy_digest lcg_shuffle 0%nat msg_Hi pw 1 (- (11 # 2)) no_decoy
      heap_2x3 = (Ok (stego, st), h') /\
    noisy_count st = 11 /\ message_length_bits st = 16 /\
    noisy_count st < message_length_bits st.
Proof.
  eexists _, _, _. split; [exact embed_2x3_negative_noise|].
  simpl. repeat split; lia.
Qed.

Lemma embed_noisy_count_witness :
  embed ascii_encode toy_digest lcg_shuffle 0%nat msg_Hi pw 1 (- (11 # 2)) no_decoy
    heap_2x3
  = (Ok (1%nat, mk_stats 16 2 11 (-5) 16 0 1 8 18 (1600 # 18) (3, 2)%nat),
     heap_2x3 ++
     [mk_ndarray 2 3
        [156; 33; 0; 254; 17; 201; 91; 64; 8; 76; 128; 250; 3; 142; 60; 19; 84; 230]]) /\
  noisy_count (mk_stats 16 2 11 (-5) 16 0 1 8 18 (1600 # 18) (3, 2)%nat)
  = message_length_bits (mk_stats 16 2 11 (-5) 16 0 1 8 18 (1600 # 18) (3, 2)%nat)
    + py_int (- (11 # 2)) /\
  (message_length_bits (mk_stats 16 2 11 (-5) 16 0 1 8 18 (1600 # 18) (3, 2)%nat)
   <= noisy_count (mk_stats 16 2 11 (-5) 16 0 1 8 18 (1600 # 18) (3, 2)%nat)
   <-> (-1 < - (11 # 2))%Q) /\
  message_length_bits (mk_stats 16 2 11 (-5) 16 0 1 8 18 (1600 # 18) (3, 2)%nat)
  <= total_pixels_modified (mk_stats 16 2 11 (-5) 16 0 1 8 18 (1600 # 18) (3, 2)%nat).
Proof.
  split; [exact embed_2x3_negative_noise|].
  exact (embed_noisy_count ascii_encode toy_digest lcg_shuffle 0%nat msg_Hi pw 1
           (- (11 # 2)) no_decoy heap_2x3 _ _ _ embed_2x3_negative_noise).
Defined.

Lemma embed_2x3_large_noise :
  embed ascii_encode toy_digest lcg_shuffle 0%nat msg_Hi pw (1 # 2) 100 all_decoy
    heap_2x3
  = (Ok (1%nat, mk_stats 16 2 116 100 18 2 (1 # 2) 16 18 (1800 # 18) (3, 2)%nat),
     heap_2x3 ++
     [mk_ndarray 2 3
        [156; 33; 0; 254; 17; 201; 91; 65; 8; 76; 129; 250; 3; 142; 60; 19; 84; 230]]).
Proof. vm_compute. reflexivity. Qed.

Lemma embed_floor_and_clip_witness :
  embed ascii_encode toy_digest lcg_shuffle 0%nat msg_Hi pw (1 # 2) 100 all_decoy
    heap_2x3
  = (Ok (1%nat, mk_stats 16 2 116 100 18 2 (1 # 2) 16 18 (1800 # 18) (3, 2)%nat),
     heap_2x3 ++
     [mk_ndarray 2 3
        [156; 33; 0; 254; 17; 201; 91; 65; 8; 76; 129; 250; 3; 142; 60; 19; 84; 230]]) /\
  exists img,
    heap_2x3 !! 0%nat = Some img /\
    16 = Z.of_nat (length (string_to_bits msg_Hi)) /\
    18 = Z.of_nat (height img * width img * 3) /\
    18 = Z.min (Z.max 16 (16 + py_int 100)) 18 /\
    16 <= 18 <= 18.
Proof.
  split; [exact embed_2x3_large_noise|].
  exact (embed_floor_and_clip ascii_encode toy_digest lcg_shuffle 0%nat msg_Hi pw
           (1 # 2) 100 all_decoy heap_2x3 _ _ _ embed_2x3_large_noise).
Defined.

Lemma insufficient_capacity_errors_witness :
  (18 < 24 <->
   exists e, fst (embed ascii_encode toy_digest lcg_shuffle 0%nat [72; 105; 33]%N pw 1
                    (7 # 2) all_decoy heap_2x3) = Raise (ValueError e)) /\
  (18 < 24 ->
   embed ascii_encode toy_digest lcg_shuffle 0%nat [72; 105; 33]%N pw 1 (7 # 2)
     all_decoy heap_2x3
   = (Raise (ValueError (MessageTooLarge 24 18 (18 / 8))), heap_2x3)) /\
  (wf_image cover_2x3 -> 24 <= 18 ->
   exists stego st h',
     embed ascii_encode toy_digest lcg_shuffle 0%nat [72; 105; 33]%N pw 1 (7 # 2)
       all_decoy heap_2x3 = (Ok (stego, st), h')) /\
  (18 < 19 <->
   exists e, fst (extract ascii_encode toy_digest lcg_shuffle 0%nat pw 19 heap_2x3)
             = Raise (ValueError e)) /\
  (18 < 19 ->
   extract ascii_encode toy_digest lcg_shuffle 0%nat pw 19 heap_2x3
   = (Raise (ValueError (InvalidMessageLength 19 18)), heap_2x3)) /\
  (wf_image cover_2x3 -> 19 <= 18 ->
   exists text,
     extract ascii_encode toy_digest lcg_shuffle 0%nat pw 19 heap_2x3
     = (Ok text, heap_2x3)).
Proof.
  exact (insufficient_capacity_errors ascii_encode toy_digest lcg_shuffle
           lcg_shuffle_perm 0%nat cover_2x3 [72; 105; 33]%N pw 1 (7 # 2) all_decoy 19
           heap_2x3 eq_refl).
Defined.

Lemma embed_frame_witness :
  (forall r a,
     heap_2x3 !! r = Some a ->
     (heap_2x3 ++
      [mk_ndarray 2 3
         [156; 33; 0; 254; 17; 201; 91; 64; 8; 76; 128; 250; 3; 142; 60; 19; 84; 230]])
     !! r = Some a) /\
  heap_2x3 !! 1%nat = None /\
  exists s,
    (heap_2x3 ++
     [mk_ndarray 2 3
        [156; 33; 0; 254; 17; 201; 91; 64; 8; 76; 128; 250; 3; 142; 60; 19; 84; 230]])
    !! 1%nat = Some s /\
    shape s = shape cover_2x3 /\
    length (data s) = length (data cover_2x3) /\
    forall slot v, data cover_2x3 !! slot = Some v ->
      exists v',
        data s !! slot = Some v' /\
        Z.shiftr v' 1 = Z.shiftr v 1 /\
        (slot ∉ take (Z.to_nat 16)
                  (full_path lcg_shuffle (password_to_seed ascii_encode toy_digest pw)
                     (size cover_2x3)) ->
         v' = v).
Proof.
  exact (embed_frame ascii_encode toy_digest lcg_shuffle lcg_shuffle_perm 0%nat
           cover_2x3 msg_Hi pw 1 (- (11 # 2)) no_decoy heap_2x3 _ _ _
           eq_refl (proj2 (proj2 cover_2x3_wf)) embed_2x3_negative_noise).
Defined.

(* ===================================================================== *)
(** * Properties of the analyzer                                          *)
(* ===================================================================== *)

Section AnalyzerProperties.

Context (chisquare : Z * Z -> Q * Q -> pyfloat * pyfloat).
Context (np_sqrt np_log10 : Q -> Q).

Local Abbreviation chi_square_attack' := (chi_square_attack chisquare).
Local Abbreviation multi_channel_analysis' := (multi_channel_analysis chisquare).
Local Abbreviation visual_difference' := (calculate_visual_difference np_sqrt np_log10).

(** On each colour channel the attack returns a report whose verdict is
    one of the two distribution verdicts. *)
Lemma chi_square_attack_verdict img ch :
  ch = "red" \/ ch = "green" \/ ch = "blue" ->
  exists rep,
    chi_square_attack' img ch = Ok rep /\
    (verdict rep = "NON-RANDOM LSB DISTRIBUTION" \/
     verdict rep = "RANDOM-LOOKING LSB DISTRIBUTION").
Proof.
  intros [->|[->| ->]]; unfold chi_square_attack; simpl;
    destruct (chisquare _ _) as [stat p]; destruct (flt p _);
    eexists; (split; [reflexivity|]); simpl; auto.
Qed.

Lemma verdict_not_detected v :
  v = "NON-RANDOM LSB DISTRIBUTION" \/ v = "RANDOM-LOOKING LSB DISTRIBUTION" ->
  String.eqb v "DETECTED" = false.
Proof. by intros [->| ->]. Qed.

Lemma any_detected_in_plain values :
  Forall plain_verdict values -> any_detected_in values = Ok false.
Proof.
  induction 1 as [|v values (rep & -> & Hv) _ IH]; [done|].
  cbn [any_detected_in get_verdict rbind].
  by rewrite (verdict_not_detected _ Hv).
Qed.

Lemma channels_detected_in_plain items :
  Forall (fun item => fst item = "overall_verdict" \/ plain_verdict (snd item)) items ->
  channels_detected_in items = Ok [].
Proof.
  induction 1 as [|[ch v] items Hitem _ IH]; [done|].
  cbn [channels_detected_in]. rewrite IH.
  destruct Hitem as [Hch|(rep & Hrep & Hv)]; simpl in Hch || simpl in Hrep.
  - subst ch. done.
  - subst v. cbn [get_verdict rbind].
    rewrite (verdict_not_detected _ Hv). by destruct (negb _).
Qed.

(** C8: for every image, [multi_channel_analysis] returns
    'overall_verdict' = 'UNDETECTED' and an empty 'channels_detected',
    whatever the chi-square results: each channel's verdict is one of
    'NON-RANDOM LSB DISTRIBUTION' and 'RANDOM-LOOKING LSB DISTRIBUTION',
    and the aggregation compares it with 'DETECTED'. *)
Theorem multi_channel_analysis_undetected img :
  exists results,
    multi_channel_analysis' img = Ok results /\
    dict_get results "overall_verdict" = Some (VStr "UNDETECTED") /\
    dict_get results "channels_detected" = Some (VList []) /\
    forall ch, ch = "red" \/ ch = "green" \/ ch = "blue" ->
      exists rep,
        dict_get results ch = Some (VReport rep) /\
        chi_square_attack' img ch = Ok rep /\
        (verdict rep = "NON-RANDOM LSB DISTRIBUTION" \/
         verdict rep = "RANDOM-LOOKING LSB DISTRIBUTION").
Proof.
  destruct (chi_square_attack_verdict img "red" ltac:(auto)) as (red & Hred & Vred).
  destruct (chi_square_attack_verdict img "green" ltac:(auto)) as (green & Hgreen & Vgreen).
  destruct (chi_square_attack_verdict img "blue" ltac:(auto)) as (blue & Hblue & Vblue).
  assert (Hloop :
    channel_loop chisquare img [] ["red"; "green"; "blue"]
    = Ok [("red", VReport red); ("green", VReport green); ("blue", VReport blue)]).
  { cbn [channel_loop]. rewrite Hred. cbn [rbind]. rewrite Hgreen. cbn [rbind].
    by rewrite Hblue. }
  unfold multi_channel_analysis. rewrite Hloop. cbn [rbind].
  rewrite any_detected_in_plain
    by (repeat constructor; unfold plain_verdict; eauto).
  cbn [rbind].
  change (dict_set _ "overall_verdict" ?v)
    with [("red", VReport red); ("green", VReport green); ("blue", VReport blue);
          ("overall_verdict", v)].
  rewrite channels_detected_in_plain
    by (repeat constructor; simpl; unfold plain_verdict; eauto).
  cbn [rbind].
  eexists. split; [reflexivity|]. split; [reflexivity|]. split; [reflexivity|].
  intros ch [->|[->| ->]]; eexists; (split; [reflexivity|]); auto.
Qed.


(** ** Visual difference *)

Lemma sum_squares_self l acc :
  fold_left Z.add (zip_with (fun o s => (o - s) ^ 2) l l) acc = acc.
Proof.
  revert acc. induction l as [|v l IH]; intros acc; simpl; [done|].
  rewrite IH. replace (v - v) with 0 by lia. simpl. lia.
Qed.

Lemma count_changed_self (l : list Z) :
  np_count (fun p => negb (fst p =? snd p)) (zip l l) = 0.
Proof.
  unfold np_count. induction l as [|v l IH]; simpl; [done|].
  by rewrite Z.eqb_refl.
Qed.

Lemma np_truediv_zero n :
  n <> 0 -> exists q, np_truediv 0 n = Finite q /\ (q == 0)%Q.
Proof.
  intros Hn. unfold np_truediv. rewrite (proj2 (Z.eqb_neq n 0) Hn).
  eexists. split; [reflexivity|]. unfold Qdiv. apply Qmult_0_l.
Qed.

(** C9: PSNR identity. Comparing a decoded image with itself gives
    MSE = 0, PSNR = +infinity, the quality rating of the "Identical" band
    (the text 'Identical (no changes)'), 0 pixels changed and 0 percent
    changed. For any two images, whenever the MSE is positive the PSNR is
    20 * log10(255 / sqrt(MSE)). *)
Theorem visual_difference_identity (a : ndarray) :
  wf_image a ->
  (exists r,
     visual_difference' a a = Ok r /\
     (exists q, mse r = Finite q /\ (q == 0)%Q) /\
     psnr r = PosInf /\
     quality_rating r = "Identical (no changes)" /\
     pixels_changed r = 0 /\
     (exists p, percent_pixels_changed r = Finite p /\ (p == 0)%Q)) /\
  (forall orig stego r m,
     visual_difference' orig stego = Ok r ->
     mse r = Finite m -> (0 < m)%Q ->
     psnr r = Finite (20 * np_log10 (255 / np_sqrt m))%Q).
Proof.
  intros Hwf. split.
  - pose proof (wf_image_size_pos a Hwf) as Hpos.
    destruct Hwf as (_ & _ & Hlen & _).
    unfold calculate_visual_difference. rewrite !Nat.eqb_refl. cbn [andb negb].
    unfold np_mean. rewrite sum_squares_self, count_changed_self.
    rewrite length_zip_with, Nat.min_id, Hlen.
    destruct (np_truediv_zero (Z.of_nat (size a)) ltac:(lia)) as (q & Hq & Hq0).
    rewrite Hq.
    assert (Hpsnr : psnr_of np_sqrt np_log10 (Finite q) = PosInf).
    { unfold psnr_of, feq. by rewrite (proj2 (Qeq_bool_iff q 0) Hq0). }
    rewrite Hpsnr. cbn [is_inf fmap_pos].
    eexists. split; [reflexivity|]. cbn.
    split; [eauto|]. split; [done|]. split; [done|]. split; [done|].
    eexists. split; [reflexivity|]. rewrite Hq0. reflexivity.
  - intros orig stego r m Hr Hm Hpos.
    unfold calculate_visual_difference in Hr.
    destruct (negb _); [discriminate|].
    injection Hr as <-. cbn [mse psnr] in *.
    rewrite Hm. unfold psnr_of, feq.
    destruct (Qeq_bool m 0) eqn:Hm0; [|done].
    apply Qeq_bool_iff in Hm0. rewrite Hm0 in Hpos. by apply Qlt_irrefl in Hpos.
Qed.

End AnalyzerProperties.

(** A capacity of zero is a division by zero. *)
Lemma epsilon_visibility_zero_capacity message_bits epsilon_low epsilon_high :
  calculate_epsilon_visibility message_bits 0 epsilon_low epsilon_high
  = Raise ZeroDivisionError.
Proof. reflexivity. Qed.

(** C10: for every capacity other than zero (where the division raises)
    [calculate_epsilon_visibility] returns a result, and the
    'statistically_visible' flag it returns is true exactly when the
    capacity usage, 100 * messageBits / capacity, is at least 5 and the
    absolute difference of the two Laplace scales,
    8 / max(0.01, epsilonLow) and 8 / max(0.01, epsilonHigh), is at least
    10; so the flag is false whenever either condition fails. *)
Theorem epsilon_visibility_threshold (message_bits image_capacity : Z)
    (epsilon_low epsilon_high : Q) :
  image_capacity <> 0 ->
  exists r,
    calculate_epsilon_visibility message_bits image_capacity epsilon_low epsilon_high
    = Ok r /\
    (statistically_visible r = true <->
     (5 <= 100 * (inject_Z message_bits / inject_Z image_capacity))%Q /\
     (10 <= Qabs (8 / py_max (1 # 100) epsilon_low
                  - 8 / py_max (1 # 100) epsilon_high))%Q).
Proof.
  intros Hcap. unfold calculate_epsilon_visibility, py_truediv.
  rewrite (proj2 (Z.eqb_neq _ _) Hcap). cbn [rbind].
  eexists. split; [reflexivity|]. cbn [statistically_visible].
  rewrite andb_true_iff, !Qle_bool_iff.
  by rewrite (Qmult_comm _ 100).
Qed.

Lemma epsilon_visibility_threshold_witness :
  exists r,
    calculate_epsilon_visibility 1000 12288 (1 # 10) 5 = Ok r /\
    (statistically_visible r = true <->
     (5 <= 100 * (inject_Z 1000 / inject_Z 12288))%Q /\
     (10 <= Qabs (8 / py_max (1 # 100) (1 # 10) - 8 / py_max (1 # 100) 5))%Q).
Proof.
  apply (epsilon_visibility_threshold 1000 12288 (1 # 10) 5). lia.
Defined.

Lemma visual_difference_identity_witness :
  (exists r,
     calculate_visual_difference newton_sqrt log10_approx cover_2x3 cover_2x3 = Ok r /\
     (exists q, mse r = Finite q /\ (q == 0)%Q) /\
     psnr r = PosInf /\
     quality_rating r = "Identical (no changes)" /\
     pixels_changed r = 0 /\
     (exists p, percent_pixels_changed r = Finite p /\ (p == 0)%Q)) /\
  (forall orig stego r m,
     calculate_visual_difference newton_sqrt log10_approx orig stego = Ok r ->
     mse r = Finite m -> (0 < m)%Q ->
     psnr r = Finite (20 * log10_approx (255 / newton_sqrt m))%Q).
Proof.
  exact (visual_difference_identity newton_sqrt log10_approx cover_2x3 cover_2x3_wf).
Defined.

(* ===================================================================== *)
(** * Examples                                                            *)
(* ===================================================================== *)

(** The docstring of [string_to_bits]: 'A' (65) is 01000001. *)
Example string_to_bits_A :
  string_to_bits [65%N] = [false; true; false; false; false; false; false; true].
Proof. reflexivity. Qed.

(** A character of code 256 is written on nine bits. *)
Example string_to_bits_wide :
  string_to_bits msg_wide
  = [true; false; false; false; false; false; false; false; false].
Proof. reflexivity. Qed.

(** The comment of [embed]: 156 & 0xFE is 156, and the bit sets the LSB. *)
Example lsb_substitute_156 :
  lsb_substitute 156 false = 156 /\ lsb_substitute 156 true = 157.
Proof. split; reflexivity. Qed.

(** [index_to_pixel] and [pixel_to_index] on a width of 3: slot 13 is
    row 1, column 1, channel 1. *)
Example index_to_pixel_13 :
  index_to_pixel 13 3 rgb = (1, 1, 1)%nat /\ pixel_to_index 1 1 1 3 rgb = 13%nat.
Proof. split; reflexivity. Qed.

(** A negative prefix length counts from the end, as a Python slice. *)
Example get_pixel_indices_negative :
  get_pixel_indices lcg_shuffle (2, 3, 3)%nat (-15) 42
  = Ok (take 3 (full_path lcg_shuffle 42 18)).
Proof. reflexivity. Qed.

(** On an image without pixels the capacity is zero: the empty message
    passes the capacity check and the statistics divide by zero, after the
    working copy was made. *)
Example embed_empty_image :
  embed ascii_encode toy_digest lcg_shuffle 0%nat [] pw 1 0 no_decoy
    [mk_ndarray 0 0 []]
  = (Raise ZeroDivisionError, [mk_ndarray 0 0 []; mk_ndarray 0 0 []]).
Proof. reflexivity. Qed.

(** The same comparison on an image without pixels: the mean of nothing
    is [nan], and the rating falls through to the last band. *)
Example visual_difference_empty_image :
  calculate_visual_difference newton_sqrt log10_approx
    (mk_ndarray 0 0 []) (mk_ndarray 0 0 [])
  = Ok {| mse := NaN;
          psnr := NaN;
          quality_rating := "Poor (visibly different)";
          pixels_changed := 0;
          vd_total_pixels := 0;
          percent_pixels_changed := NaN |}.
Proof. reflexivity. Qed.

(** Below 5 percent of capacity the epsilon effect is not flagged. *)
Example epsilon_visibility_low_usage :
  calculate_epsilon_visibility 100 12288 (1 # 10) 5
  = Ok {| scale_low_epsilon := 80;
          scale_high_epsilon := 8 # 5;
          expected_noise_difference := 392 # 5;
          capacity_usage_percent := 10000 # 12288;
          statistically_visible := false;
          recommendation := CapacityTooLow |}.
Proof. reflexivity. Qed.

(* ===================================================================== *)
(** * Further properties: utils.py                                        *)
(* ===================================================================== *)

(** X1: [pixel_to_index] and [index_to_pixel] are inverse to each other,
    for any width and number of channels that are not zero: an index goes
    to coordinates with the column below the width and the channel below
    the channel count and comes back; coordinates inside a row go to an
    index and come back. *)
Theorem index_pixel_inverse (index row col channel width channels : nat) :
  (0 < width)%nat -> (0 < channels)%nat ->
  (exists r c ch,
      index_to_pixel index width channels = (r, c, ch) /\
      (c < width)%nat /\ (ch < channels)%nat /\
      pixel_to_index r c ch width channels = index) /\
  ((col < width)%nat -> (channel < channels)%nat ->
   index_to_pixel (pixel_to_index row col channel width channels) width channels
   = (row, col, channel)).
Proof.
  intros Hw Hc.
  assert (Hwc : (width * channels <> 0)%nat) by nia.
  split.
  - unfold index_to_pixel, pixel_to_index. eexists _, _, _. split; [reflexivity|].
    pose proof (Nat.div_mod_eq index (width * channels)) as Hq.
    pose proof (Nat.mod_upper_bound index (width * channels) Hwc) as Hr.
    pose proof (Nat.div_mod_eq (index mod (width * channels)) channels) as Hq'.
    pose proof (Nat.mod_upper_bound (index mod (width * channels)) channels
                  ltac:(lia)) as Hr'.
    assert (Hch : (index mod channels
                   = (index mod (width * channels)) mod channels)%nat).
    { rewrite Hq at 1.
      replace (width * channels * (index / (width * channels))
               + index mod (width * channels))%nat
        with (index mod (width * channels)
              + (width * (index / (width * channels))) * channels)%nat by lia.
      apply Nat.Div0.mod_add. }
    split; [apply Nat.Div0.div_lt_upper_bound; lia|].
    split; [apply Nat.mod_upper_bound; lia|].
    rewrite Hch. lia.
  - intros Hcol Hchannel. unfold index_to_pixel, pixel_to_index.
    assert (Hin : (col * channels + channel < width * channels)%nat) by nia.
    assert (Hdiv : ((row * (width * channels) + col * channels + channel)
                    / (width * channels) = row)%nat).
    { symmetry. apply (Nat.div_unique _ _ row (col * channels + channel)); lia. }
    assert (Hmod : ((row * (width * channels) + col * channels + channel)
                    mod (width * channels) = col * channels + channel)%nat).
    { symmetry. apply (Nat.mod_unique _ _ row (col * channels + channel)); lia. }
    assert (Hmodc : ((row * (width * channels) + col * channels + channel)
                     mod channels = channel)%nat).
    { symmetry.
      apply (Nat.mod_unique _ _ (row * width + col) channel); lia. }
    rewrite Hdiv, Hmod, Hmodc. f_equal. f_equal.
    symmetry. apply (Nat.div_unique _ _ col channel); lia.
Qed.

Lemma index_pixel_inverse_witness :
  (exists r c ch,
      index_to_pixel 13 3 3 = (r, c, ch) /\
      (c < 3)%nat /\ (ch < 3)%nat /\
      pixel_to_index r c ch 3 3 = 13%nat) /\
  ((2 < 3)%nat -> (1 < 3)%nat ->
   index_to_pixel (pixel_to_index 4 2 1 3 3) 3 3 = (4, 2, 1)%nat).
Proof. apply (index_pixel_inverse 13 4 2 1 3 3); lia. Defined.

Lemma format_08b_length_ge v : (8 <= length (format_08b v))%nat.
Proof.
  unfold format_08b. rewrite length_app, length_replicate. lia.
Qed.

Lemma string_to_bits_length_ge text :
  (8 * length text <= length (string_to_bits text))%nat.
Proof.
  induction text as [|c text IH]; [simpl; lia|].
  rewrite string_to_bits_cons, length_app.
  pose proof (format_08b_length_ge c). simpl. lia.
Qed.

Lemma string_to_bits_length_single_byte text :
  length (string_to_bits text) = (8 * length text)%nat -> single_byte text.
Proof.
  induction text as [|c text IH]; intros Hlen; [constructor|].
  rewrite string_to_bits_cons, length_app in Hlen.
  pose proof (format_08b_length_ge c) as Hc.
  pose proof (string_to_bits_length_ge text) as Htext.
  simpl in Hlen. constructor.
  - destruct (N.lt_ge_cases c 256) as [|Hwide]; [done|].
    apply format_08b_length_wide in Hwide. lia.
  - apply IH. lia.
Qed.

(** X2: [string_to_bits] writes at least 8 bits per character, and
    exactly 8 per character precisely when every character is a single
    byte; so the bit count the message box displays, 8 times the number
    of characters, is the number of bits [embed] reports and the receiver
    needs exactly for such messages. *)
Theorem string_to_bits_length_iff (text : pystr) :
  (8 * length text <= length (string_to_bits text))%nat /\
  (length (string_to_bits text) = (8 * length text)%nat <-> single_byte text) /\
  (snd (update_message_stats text) = Z.of_nat (length (string_to_bits text))
   <-> single_byte text).
Proof.
  split; [apply string_to_bits_length_ge|].
  assert (Hiff : length (string_to_bits text) = (8 * length text)%nat
                 <-> single_byte text).
  { split; [apply string_to_bits_length_single_byte|apply string_to_bits_length]. }
  split; [exact Hiff|].
  rewrite <- Hiff. unfold update_message_stats. simpl. lia.
Qed.

Lemma binary_value_bound bs :
  (binary_value bs < 2 ^ N.of_nat (length bs))%N.
Proof.
  induction bs as [|b bs IH] using rev_ind; [reflexivity|].
  rewrite binary_value_snoc, length_app. simpl length.
  replace (N.of_nat (length bs + 1)) with (N.succ (N.of_nat (length bs))) by lia.
  rewrite N.pow_succ_r'. destruct b; simpl N.b2n; lia.
Qed.

Lemma format_08b_binary_value bs :
  length bs = 8%nat -> format_08b (binary_value bs) = bs.
Proof.
  intros Hlen.
  do 8 (destruct bs as [|[] bs]; [discriminate| |]);
    destruct bs; try discriminate; reflexivity.
Qed.

Lemma py_range_step_succ n :
  py_range_step (8 * S n) 8 = 0%nat :: ((fun i => i + 8)%nat <$> py_range_step (8 * n) 8).
Proof.
  unfold py_range_step.
  replace ((8 * S n + 8 - 1) / 8)%nat with (S n).
  2:{ replace (8 * S n + 8 - 1)%nat with (7 + S n * 8)%nat by lia.
      rewrite Nat.div_add by lia. reflexivity. }
  replace ((8 * n + 8 - 1) / 8)%nat with n.
  2:{ replace (8 * n + 8 - 1)%nat with (7 + n * 8)%nat by lia.
      rewrite Nat.div_add by lia. reflexivity. }
  cbn [seq fmap list_fmap]. f_equal.
  rewrite <- fmap_S_seq, <- !list_fmap_compose.
  apply list_fmap_ext. intros _ k _. simpl. lia.
Qed.

Lemma string_to_bits_app text1 text2 :
  string_to_bits (text1 ++ text2) = string_to_bits text1 ++ string_to_bits text2.
Proof.
  induction text1 as [|c text1 IH]; [done|].
  simpl app. rewrite !string_to_bits_cons, IH. by rewrite app_assoc.
Qed.

(** Decoding whole groups and encoding again gives the bits back. *)
Lemma string_to_bits_decoded n bits :
  length bits = (8 * n)%nat ->
  string_to_bits
    ((fun i => binary_value (py_slice bits i (i + 8))) <$> py_range_step (length bits) 8)
  = bits.
Proof.
  revert bits. induction n as [|n IH]; intros bits Hlen.
  - destruct bits; [done|discriminate].
  - rewrite Hlen, py_range_step_succ. cbn [fmap list_fmap].
    rewrite string_to_bits_cons.
    transitivity (take 8 bits ++ drop 8 bits); [|apply take_drop]. f_equal.
    + unfold py_slice. rewrite drop_0. apply format_08b_binary_value.
      rewrite length_take. lia.
    + specialize (IH (drop 8 bits)). rewrite length_drop in IH.
      replace (length bits - 8)%nat with (8 * n)%nat in IH by lia.
      etransitivity; [|apply IH; lia].
      rewrite <- list_fmap_compose. f_equal.
      apply list_fmap_ext. intros _ i _. simpl. unfold py_slice.
      rewrite drop_drop.
      replace (i + 8 + 8 - (i + 8))%nat with (i + 8 - i)%nat by lia.
      by replace (8 + i)%nat with (i + 8)%nat by lia.
Qed.

Lemma decoded_single_byte bits (offsets : list nat) :
  single_byte ((fun i => binary_value (py_slice bits i (i + 8))) <$> offsets).
Proof.
  apply Forall_fmap, Forall_forall. intros i _. simpl.
  pose proof (binary_value_bound (py_slice bits i (i + 8))) as Hb.
  assert (Hlen : (length (py_slice bits i (i + 8)) <= 8)%nat).
  { unfold py_slice. rewrite length_take. lia. }
  eapply N.lt_le_trans; [exact Hb|].
  change 256%N with (2 ^ 8)%N. apply N.pow_le_mono_r; lia.
Qed.

(** X3: every character [bits_to_string] returns is a single byte, and
    when the number of bits is a multiple of 8, encoding the decoded text
    with [string_to_bits] gives the same bits back. *)
Theorem bits_to_string_reencode (bits : list bool) :
  exists text,
    bits_to_string bits = Ok text /\
    single_byte text /\
    ((length bits mod 8 = 0)%nat -> string_to_bits text = bits).
Proof.
  eexists. split; [apply bits_to_string_ok|]. split.
  - apply decoded_single_byte.
  - intros Hmod. apply (string_to_bits_decoded (length bits / 8)).
    pose proof (Nat.div_mod_eq (length bits) 8). lia.
Qed.

Lemma int_from_bytes_big_acc bs acc :
  fold_left (fun a b => a * 256 + b) bs acc
  = acc * 256 ^ Z.of_nat (length bs) + int_from_bytes_big bs.
Proof.
  unfold int_from_bytes_big. revert acc.
  induction bs as [|b bs IH]; intros acc; simpl fold_left.
  - simpl. lia.
  - rewrite IH, (IH (0 * 256 + b)). simpl length.
    rewrite Nat2Z.inj_succ, Z.pow_succ_r by lia. lia.
Qed.

Lemma int_from_bytes_big_bound bs :
  Forall (fun b => 0 <= b < 256) bs ->
  0 <= int_from_bytes_big bs < 256 ^ Z.of_nat (length bs).
Proof.
  induction 1 as [|b bs Hb _ IH]; [unfold int_from_bytes_big; simpl; lia|].
  unfold int_from_bytes_big. simpl fold_left.
  rewrite int_from_bytes_big_acc. simpl length.
  rewrite Nat2Z.inj_succ, Z.pow_succ_r by lia.
  assert (0 < 256 ^ Z.of_nat (length bs)) by (apply Z.pow_pos_nonneg; lia).
  nia.
Qed.

Lemma toy_digest_bytes bs : Forall (fun b => 0 <= b < 256) (toy_digest bs).
Proof.
  unfold toy_digest. apply Forall_fmap, Forall_forall. intros i _. simpl.
  apply Z.mod_pos_bound. lia.
Qed.

Section SeedProperties.

Context (utf8_encode : pystr -> list Z) (sha256 : list Z -> list Z).

(** X4: when the digest is a sequence of bytes, the seed is a 64-bit
    integer, [0 <= seed < 2^64], and two passwords whose digests agree on
    their first 8 bytes get the same seed. *)
Theorem password_to_seed_64_bits (password password' : pystr) :
  Forall (fun b => 0 <= b < 256) (sha256 (utf8_encode password)) ->
  0 <= password_to_seed utf8_encode sha256 password < 2 ^ 64 /\
  (take 8 (sha256 (utf8_encode password)) = take 8 (sha256 (utf8_encode password')) ->
   password_to_seed utf8_encode sha256 password
   = password_to_seed utf8_encode sha256 password').
Proof.
  intros Hbytes. unfold password_to_seed, py_slice. rewrite !drop_0.
  change (8 - 0)%nat with 8%nat. split; [|by intros ->].
  pose proof (int_from_bytes_big_bound (take 8 (sha256 (utf8_encode password)))
                (Forall_take _ _ _ Hbytes)) as [Hlo Hhi].
  split; [done|]. eapply Z.lt_le_trans; [exact Hhi|].
  change (2 ^ 64) with (256 ^ 8). apply Z.pow_le_mono_r; [lia|].
  rewrite length_take. lia.
Qed.

End SeedProperties.

Lemma password_to_seed_64_bits_witness :
  0 <= password_to_seed ascii_encode toy_digest pw < 2 ^ 64 /\
  (take 8 (toy_digest (ascii_encode pw)) = take 8 (toy_digest (ascii_encode msg_Hi)) ->
   password_to_seed ascii_encode toy_digest pw
   = password_to_seed ascii_encode toy_digest msg_Hi).
Proof.
  apply (password_to_seed_64_bits ascii_encode toy_digest pw msg_Hi).
  apply toy_digest_bytes.
Defined.

Section PathProperties.

Context (shuffle : Z -> list nat -> list nat).
Hypothesis shuffle_perm : forall seed l, shuffle seed l ≡ₚ l.

(** X5: [get_pixel_indices] raises, a [ValueError], exactly when more
    indices are requested than the image has slots. A request for all T
    slots returns a permutation of [0, T). A negative count is not
    rejected: as a Python slice bound it counts from the end and the call
    returns the first T + N indices of the path (none when that is
    negative). *)
Theorem get_pixel_indices_edges (h w c : nat) (n seed : Z) :
  let T := (h * w * c)%nat in
  (Z.of_nat T < n <->
   exists e, get_pixel_indices shuffle (h, w, c) n seed = Raise e) /\
  (Z.of_nat T < n ->
   get_pixel_indices shuffle (h, w, c) n seed
   = Raise (ValueError (TooManyChannels n (Z.of_nat T)))) /\
  (exists path,
     get_pixel_indices shuffle (h, w, c) (Z.of_nat T) seed = Ok path /\
     path ≡ₚ seq 0 T) /\
  (n < 0 ->
   get_pixel_indices shuffle (h, w, c) n seed
   = Ok (take (Z.to_nat (Z.of_nat T + n)) (full_path shuffle seed T))).
Proof.
  intros T. split; [|split; [|split]].
  - split.
    + intros Hbig. rewrite get_pixel_indices_too_many by done. eauto.
    + intros [e He]. destruct (Z_lt_le_dec (Z.of_nat T) n) as [|Hfit]; [done|].
      rewrite get_pixel_indices_ok in He by done. discriminate.
  - intros Hbig. by apply get_pixel_indices_too_many.
  - eexists. split; [apply get_pixel_indices_ok; lia|].
    rewrite py_prefix_nonneg by lia. rewrite Nat2Z.id.
    rewrite firstn_all2 by (rewrite (full_path_length shuffle shuffle_perm); lia).
    apply full_path_perm. exact shuffle_perm.
  - intros Hneg. rewrite get_pixel_indices_ok by lia.
    unfold py_prefix. rewrite (proj2 (Z.ltb_lt n 0) Hneg).
    by rewrite (full_path_length shuffle shuffle_perm).
Qed.

End PathProperties.

Lemma get_pixel_indices_edges_witness :
  (Z.of_nat (2 * 3 * 3) < -15 <->
   exists e, get_pixel_indices lcg_shuffle (2, 3, 3)%nat (-15) 42 = Raise e) /\
  (Z.of_nat (2 * 3 * 3) < -15 ->
   get_pixel_indices lcg_shuffle (2, 3, 3)%nat (-15) 42
   = Raise (ValueError (TooManyChannels (-15) (Z.of_nat (2 * 3 * 3))))) /\
  (exists path,
     get_pixel_indices lcg_shuffle (2, 3, 3)%nat (Z.of_nat (2 * 3 * 3)) 42 = Ok path /\
     path ≡ₚ seq 0 (2 * 3 * 3)) /\
  (-15 < 0 ->
   get_pixel_indices lcg_shuffle (2, 3, 3)%nat (-15) 42
   = Ok (take (Z.to_nat (Z.of_nat (2 * 3 * 3) + -15)) (full_path lcg_shuffle 42 (2 * 3 * 3)))).
Proof.
  exact (get_pixel_indices_edges lcg_shuffle lcg_shuffle_perm 2 3 3 (-15) 42).
Defined.

(* ===================================================================== *)
(** * Further properties: the engine                                      *)
(* ===================================================================== *)

Section EngineFurther.

Context (utf8_encode : pystr -> list Z) (sha256 : list Z -> list Z).
Context (shuffle : Z -> list nat -> list nat).
Hypothesis shuffle_perm : forall seed l, shuffle seed l ≡ₚ l.

Local Abbreviation embed' := (embed utf8_encode sha256 shuffle).
Local Abbreviation extract' := (extract utf8_encode sha256 shuffle).
Local Abbreviation seed_of := (password_to_seed utf8_encode sha256).

(** The statistics of a successful [embed], field by field. *)
Lemma embed_ok_stats cover message password eps noise decoy (h h' : heap) stego st :
  embed' cover message password eps noise decoy h = (Ok (stego, st), h') ->
  exists img,
    h !! cover = Some img /\
    (0 < size img)%nat /\
    Z.of_nat (length (string_to_bits message)) <= Z.of_nat (size img) /\
    st = {| message_length_bits := Z.of_nat (length (string_to_bits message));
            message_length_chars := Z.of_nat (length message);
            noisy_count := Z.of_nat (length (string_to_bits message)) + py_int noise;
            noise_added :=
              Z.of_nat (length (string_to_bits message)) + py_int noise
              - Z.of_nat (length (string_to_bits message));
            total_pixels_modified :=
              final_count (Z.of_nat (length (string_to_bits message))) noise
                (Z.of_nat (size img));
            decoy_pixels :=
              final_count (Z.of_nat (length (string_to_bits message))) noise
                (Z.of_nat (size img))
              - Z.of_nat (length (string_to_bits message));
            epsilon := py_max (1 # 100) eps;
            laplace_scale := (8 / py_max (1 # 100) eps)%Q;
            total_capacity := Z.of_nat (size img);
            capacity_used_percent :=
              (inject_Z (final_count (Z.of_nat (length (string_to_bits message))) noise
                           (Z.of_nat (size img)))
               / inject_Z (Z.of_nat (size img)) * 100)%Q;
            image_dimensions := (width img, height img) |}.
Proof.
  unfold embed, bind at 1, deref. intros Hembed.
  destruct (h !! cover) as [img|] eqn:Hcover; [|discriminate].
  exists img. split; [done|]. cbn [of_option shape] in Hembed.
  fold (size img) in Hembed.
  destruct (Z.of_nat (size img) <? Z.of_nat (length (string_to_bits message)))
    eqn:Hcap; [discriminate|].
  apply Z.ltb_ge in Hcap.
  unfold bind at 1, lift at 1 in Hembed.
  destruct (get_pixel_indices _ _ _ _) as [path|e]; [|discriminate].
  unfold bind at 1 in Hembed.
  destruct (np_copy cover h) as [[r|e] h1]; [|discriminate].
  unfold bind at 1 in Hembed.
  destruct (embed_loop _ _ _ _ _ _ _ _ h1) as [[u|e] h2]; [|discriminate].
  unfold bind at 1, lift at 1 in Hembed.
  destruct (py_truediv _ _) as [ratio|e] eqn:Hdiv; [|discriminate].
  unfold py_truediv in Hdiv.
  destruct (Z.of_nat (size img) =? 0) eqn:Hzero; [discriminate|].
  apply Z.eqb_neq in Hzero. injection Hdiv as <-.
  unfold ret in Hembed. injection Hembed as <- <- <-.
  split; [lia|]. split; [done|]. reflexivity.
Qed.

(** X6: the statistics of every successful [embed] are consistent:
    'message_length_bits' + 'decoy_pixels' = 'total_pixels_modified' with
    'decoy_pixels' >= 0, 'noise_added' is the truncated Laplace sample,
    'capacity_used_percent' is 100 * 'total_pixels_modified' /
    'total_capacity' and lies in [0, 100], 'epsilon' is at least 0.01 and
    'laplace_scale', 8 / 'epsilon', at most 800; for a message of
    single-byte characters 'message_length_bits' is 8 times
    'message_length_chars'. *)
Theorem embed_stats_consistent cover message password eps noise decoy
    (h h' : heap) stego st :
  embed' cover message password eps noise decoy h = (Ok (stego, st), h') ->
  message_length_bits st + decoy_pixels st = total_pixels_modified st /\
  0 <= decoy_pixels st /\
  noise_added st = py_int noise /\
  noisy_count st = message_length_bits st + noise_added st /\
  (capacity_used_percent st
   == 100 * (inject_Z (total_pixels_modified st) / inject_Z (total_capacity st)))%Q /\
  (0 <= capacity_used_percent st <= 100)%Q /\
  ((1 # 100) <= epsilon st)%Q /\
  (laplace_scale st == 8 / epsilon st)%Q /\
  (0 < laplace_scale st <= 800)%Q /\
  (single_byte message -> message_length_bits st = 8 * message_length_chars st).
Proof.
  intros Hembed.
  destruct (embed_ok_stats _ _ _ _ _ _ _ _ _ _ Hembed)
    as (img & Hcover & Hpos & Hcap & ->). cbn.
  set (C := Z.of_nat (length (string_to_bits message))) in *.
  set (T := Z.of_nat (size img)) in *.
  pose proof (final_count_bounds C noise T ltac:(lia)) as Hfinal.
  set (F := final_count C noise T) in *.
  assert (Heps : ((1 # 100) <= py_max (1 # 100) eps)%Q).
  { unfold py_max. destruct (Qlt_le_dec (1 # 100) eps) as [Hlt|Hle].
    - by apply Qlt_le_weak.
    - apply Qle_refl. }
  assert (Heps_pos : (0 < py_max (1 # 100) eps)%Q).
  { eapply Qlt_le_trans; [|exact Heps]. reflexivity. }
  split; [lia|]. split; [lia|]. split; [lia|]. split; [lia|].
  split; [apply Qmult_comm|].
  assert (HT : (0 < inject_Z T)%Q).
  { replace 0%Q with (inject_Z 0) by reflexivity. rewrite <- Zlt_Qlt. lia. }
  split.
  { split.
    - apply Qmult_le_0_compat; [|discriminate].
      apply Qle_shift_div_l; [done|]. rewrite Qmult_0_l.
      replace 0%Q with (inject_Z 0) by reflexivity. rewrite <- Zle_Qle. lia.
    - apply (Qle_trans _ (1 * 100)); [|vm_compute; discriminate].
      apply Qmult_le_compat_r; [|discriminate].
      apply Qle_shift_div_r; [done|]. rewrite Qmult_1_l.
      rewrite <- Zle_Qle. lia. }
  split; [done|]. split; [reflexivity|]. split.
  { split.
    - apply Qlt_shift_div_l; [done|]. rewrite Qmult_0_l. reflexivity.
    - apply Qle_shift_div_r; [done|].
      apply (Qle_trans _ (800 * (1 # 100))); [vm_compute; discriminate|].
      apply Qmult_le_l; [reflexivity|done]. }
  intros Hmsg. subst C. rewrite string_to_bits_length by done. lia.
Qed.


(** X7: after a successful [embed], reading the least-significant bits
    along the first 'total_pixels_modified' slots of the seeded path gives
    the message bits, in order, followed by the decoy bits drawn for the
    remaining slots. *)
Theorem embed_path_bits cover img message password eps noise decoy (h h' : heap)
    stego st :
  h !! cover = Some img ->
  wf_array img ->
  embed' cover message password eps noise decoy h = (Ok (stego, st), h') ->
  exists s,
    h' !! stego = Some s /\
    forall i slot,
      Z.of_nat i < total_pixels_modified st ->
      full_path shuffle (seed_of password) (size img) !! i = Some slot ->
      exists v,
        data s !! slot = Some v /\
        ((i < length (string_to_bits message))%nat ->
         string_to_bits message !! i = Some (lsb_of v)) /\
        ((length (string_to_bits message) <= i)%nat -> lsb_of v = decoy i).
Proof.
  intros Hcover Harr Hembed.
  destruct (embed_ok_stats _ _ _ _ _ _ _ _ _ _ Hembed)
    as (img' & Hcover' & Hpos & Hcap & Hst).
  assert (img' = img) as -> by congruence.
  destruct (embed_effect utf8_encode sha256 shuffle shuffle_perm cover img message
              password eps noise decoy h Hcover (wf_array_image img Harr Hpos) Hcap)
    as [st' Hok].
  rewrite Hok in Hembed. injection Hembed as <- <- <-.
  eexists. split; [by apply list_lookup_middle|].
  rewrite Hst. cbn [total_pixels_modified data].
  set (bits := string_to_bits message) in *.
  set (F := final_count _ _ _).
  intros i slot Hi Hslot.
  destruct Harr as (Hlen & _).
  assert (Hbound : (slot < length (data img))%nat).
  { rewrite Hlen.
    pose proof (full_path_bound shuffle shuffle_perm (seed_of password) (size img))
      as Hall.
    eapply Forall_lookup_1 in Hall; eauto. }
  destruct (lookup_lt_is_Some_2 (data img) slot Hbound) as [v0 Hv0].
  exists (lsb_substitute v0 (bit_written bits decoy i)). split.
  - rewrite (lsb_writes_slot _ 0 _ _ i slot).
    + by rewrite Hv0.
    + apply NoDup_take_prefix, full_path_NoDup, shuffle_perm.
    + rewrite lookup_take_lt by lia. done.
  - rewrite lsb_of_substitute. unfold bit_written. split.
    + intros Hlt. rewrite (proj2 (Nat.ltb_lt _ _) Hlt).
      destruct (lookup_lt_is_Some_2 bits i Hlt) as [b Hb]. by rewrite Hb.
    + intros Hge. by rewrite (proj2 (Nat.ltb_ge _ _) Hge).
Qed.

Lemma string_to_bits_take text j :
  single_byte text ->
  take (8 * j) (string_to_bits text) = string_to_bits (take j text).
Proof.
  intros Htext. revert j. induction Htext as [|c text Hc Htext IH]; intros j.
  - change (string_to_bits []) with (@nil bool). by rewrite !take_nil.
  - destruct j as [|j]; [reflexivity|].
    rewrite firstn_cons, !string_to_bits_cons.
    rewrite take_app_ge by (rewrite format_08b_length by done; lia).
    rewrite format_08b_length by done.
    replace (8 * S j - 8)%nat with (8 * j)%nat by lia. by rewrite IH.
Qed.

(** X8: prefix extraction. After [embed] of a message of single-byte
    characters, [extract] with the same password and a bit count of 8*j,
    for any j up to the number of characters, returns the first j
    characters of the message. *)
Theorem extract_prefix cover img message password eps noise decoy (h : heap)
    (j : nat) :
  h !! cover = Some img ->
  wf_image img ->
  single_byte message ->
  Z.of_nat (length (string_to_bits message)) <= Z.of_nat (size img) ->
  (j <= length message)%nat ->
  exists stego st h',
    embed' cover message password eps noise decoy h = (Ok (stego, st), h') /\
    extract' stego password (8 * Z.of_nat j) h' = (Ok (take j message), h').
Proof.
  intros Hcover Hwf Hmsg Hcap Hj.
  destruct (embed_effect utf8_encode sha256 shuffle shuffle_perm cover img message
              password eps noise decoy h Hcover Hwf Hcap) as [st Hembed].
  eexists _, st, _. split; [exact Hembed|].
  set (bits := string_to_bits message) in *.
  set (T := Z.of_nat (size img)) in *.
  set (final := final_count (Z.of_nat (length bits)) noise T).
  pose proof (final_count_bounds (Z.of_nat (length bits)) noise T ltac:(lia)) as Hfinal.
  fold final in Hfinal.
  assert (Hbits : length bits = (8 * length message)%nat)
    by (by apply string_to_bits_length).
  destruct Hwf as (_ & _ & Hlen & _).
  set (path := take (Z.to_nat final) (full_path shuffle (seed_of password) (size img))).
  set (s := mk_ndarray (height img) (width img)
              (lsb_writes (bit_written bits decoy) 0 path (data img))).
  assert (Hsize : size s = size img) by reflexivity.
  rewrite (extract_effect utf8_encode sha256 shuffle shuffle_perm (length h) s).
  - rewrite Hsize, py_prefix_nonneg by lia.
    replace (Z.to_nat (8 * Z.of_nat j)) with (8 * j)%nat by lia.
    subst s path. cbn [data].
    replace (take (8 * j) (full_path shuffle (seed_of password) (size img)))
      with (take (8 * j) (take (length bits)
                            (full_path shuffle (seed_of password) (size img))))
      by (rewrite take_take; f_equal; lia).
    rewrite fmap_take.
    rewrite (read_back_written bits decoy).
    + subst bits. rewrite string_to_bits_take by done.
      rewrite bits_to_string_string_to_bits; [done|].
      by apply Forall_take.
    + apply full_path_NoDup, shuffle_perm.
    + rewrite Hlen. apply full_path_bound, shuffle_perm.
    + lia.
    + rewrite (full_path_length shuffle shuffle_perm). subst T. lia.
  - by apply list_lookup_middle.
  - rewrite Hsize. subst s. cbn [data]. by rewrite lsb_writes_length.
  - rewrite Hsize. fold T. lia.
Qed.

(** X9: [extract] does not check the requested bit count beyond the
    capacity. On a buffer of T slots, for every count up to T, negative
    ones included, it returns without error a text of single-byte
    characters with one character per started group of 8 of the N bits it
    read, where N is the count itself, or T plus the count (none if that
    is negative) when the count is negative; the store is unchanged. *)
Theorem extract_output_length stego s password (k : Z) (h : heap) :
  h !! stego = Some s ->
  length (data s) = size s ->
  k <= Z.of_nat (size s) ->
  exists text,
    extract' stego password k h = (Ok text, h) /\
    single_byte text /\
    length text
    = ((Z.to_nat (if (k <? 0)%Z then (Z.of_nat (size s) + k)%Z else k) + 7) / 8)%nat.
Proof.
  intros Hs Hlen Hk.
  rewrite (extract_effect utf8_encode sha256 shuffle shuffle_perm stego s) by done.
  rewrite bits_to_string_ok. eexists. split; [reflexivity|].
  split; [apply decoded_single_byte|].
  rewrite length_fmap, py_range_step_length, length_fmap.
  replace (length (py_prefix (full_path shuffle (seed_of password) (size s)) k))
    with (Z.to_nat (if k <? 0 then Z.of_nat (size s) + k else k)).
  - f_equal. lia.
  - unfold py_prefix.
    rewrite (full_path_length shuffle shuffle_perm).
    destruct (k <? 0) eqn:Hneg; rewrite length_take,
      (full_path_length shuffle shuffle_perm); lia.
Qed.

End EngineFurther.

Lemma embed_stats_consistent_witness :
  let st := mk_stats 16 2 116 100 18 2 (1 # 2) 16 18 (1800 # 18) (3, 2)%nat in
  message_length_bits st + decoy_pixels st = total_pixels_modified st /\
  0 <= decoy_pixels st /\
  noise_added st = py_int 100 /\
  noisy_count st = message_length_bits st + noise_added st /\
  (capacity_used_percent st
   == 100 * (inject_Z (total_pixels_modified st) / inject_Z (total_capacity st)))%Q /\
  (0 <= capacity_used_percent st <= 100)%Q /\
  ((1 # 100) <= epsilon st)%Q /\
  (laplace_scale st == 8 / epsilon st)%Q /\
  (0 < laplace_scale st <= 800)%Q /\
  (single_byte msg_Hi -> message_length_bits st = 8 * message_length_chars st).
Proof.
  exact (embed_stats_consistent ascii_encode toy_digest lcg_shuffle 0%nat msg_Hi pw
           (1 # 2) 100 all_decoy heap_2x3 _ _ _ embed_2x3_large_noise).
Defined.

Lemma embed_path_bits_witness :
  exists s,
    (heap_2x3 ++
     [mk_ndarray 2 3
        [156; 33; 0; 254; 17; 201; 91; 65; 8; 76; 129; 250; 3; 142; 60; 19; 84; 230]])
    !! 1%nat = Some s /\
    forall i slot,
      Z.of_nat i < 18 ->
      full_path lcg_shuffle (password_to_seed ascii_encode toy_digest pw)
        (size cover_2x3) !! i = Some slot ->
      exists v,
        data s !! slot = Some v /\
        ((i < length (string_to_bits msg_Hi))%nat ->
         string_to_bits msg_Hi !! i = Some (lsb_of v)) /\
        ((length (string_to_bits msg_Hi) <= i)%nat -> lsb_of v = all_decoy i).
Proof.
  exact (embed_path_bits ascii_encode toy_digest lcg_shuffle lcg_shuffle_perm 0%nat
           cover_2x3 msg_Hi pw (1 # 2) 100 all_decoy heap_2x3 _ _ _
           eq_refl (proj2 (proj2 cover_2x3_wf)) embed_2x3_large_noise).
Defined.

Lemma extract_prefix_witness :
  exists stego st h',
    embed ascii_encode toy_digest lcg_shuffle 0%nat msg_Hi pw 1 (7 # 2) all_decoy
      heap_2x3 = (Ok (stego, st), h') /\
    extract ascii_encode toy_digest lcg_shuffle stego pw (8 * Z.of_nat 1) h'
    = (Ok (take 1 msg_Hi), h').
Proof.
  apply (extract_prefix ascii_encode toy_digest lcg_shuffle lcg_shuffle_perm 0%nat
           cover_2x3 msg_Hi pw 1 (7 # 2) all_decoy heap_2x3 1).
  - reflexivity.
  - exact cover_2x3_wf.
  - exact msg_Hi_single_byte.
  - vm_compute. discriminate.
  - simpl. lia.
Defined.

Lemma extract_output_length_witness :
  exists text,
    extract ascii_encode toy_digest lcg_shuffle 0%nat pw (-1) heap_2x3
    = (Ok text, heap_2x3) /\
    single_byte text /\
    length text
    = ((Z.to_nat (if (-1 <? 0)%Z then (Z.of_nat (size cover_2x3) + -1)%Z else -1) + 7)
       / 8)%nat.
Proof.
  apply (extract_output_length ascii_encode toy_digest lcg_shuffle lcg_shuffle_perm
           0%nat cover_2x3 pw (-1) heap_2x3).
  - reflexivity.
  - reflexivity.
  - vm_compute. discriminate.
Defined.

(* ===================================================================== *)
(** * Further properties: the sequential embedder                         *)
(* ===================================================================== *)

Lemma with_data_id a : with_data a (data a) = a.
Proof. by destruct a. Qed.

Lemma lsb_writes_app bit_at i path1 path2 d :
  lsb_writes bit_at i (path1 ++ path2) d
  = lsb_writes bit_at (i + length path1) path2 (lsb_writes bit_at i path1 d).
Proof.
  revert i d. induction path1 as [|slot path1 IH]; intros i d; simpl.
  - by rewrite Nat.add_0_r.
  - rewrite IH. f_equal. lia.
Qed.

Lemma load_at (h : heap) r a row col ch v :
  h !! r = Some a ->
  (row < height a)%nat -> (col < width a)%nat -> (ch < rgb)%nat ->
  data a !! pixel_to_index row col ch (width a) rgb = Some v ->
  load r row col ch h = (Ok v, h).
Proof.
  intros Hr Hrow Hcol Hch Hv. unfold load.
  rewrite (bind_ok _ _ h a h) by (unfold deref; by rewrite Hr).
  unfold lift, getitem, in_bounds.
  rewrite (proj2 (Nat.ltb_lt _ _) Hrow), (proj2 (Nat.ltb_lt _ _) Hcol),
    (proj2 (Nat.ltb_lt _ _) Hch). cbn [andb]. by rewrite Hv.
Qed.

Lemma store_at (h : heap) r a row col ch v :
  h !! r = Some a ->
  (row < height a)%nat -> (col < width a)%nat -> (ch < rgb)%nat ->
  (pixel_to_index row col ch (width a) rgb < length (data a))%nat ->
  store r row col ch v h
  = (Ok tt,
     <[r := with_data a (<[pixel_to_index row col ch (width a) rgb := v]> (data a))]> h).
Proof.
  intros Hr Hrow Hcol Hch Hlen. unfold store, setitem, in_bounds. rewrite Hr.
  rewrite (proj2 (Nat.ltb_lt _ _) Hrow), (proj2 (Nat.ltb_lt _ _) Hcol),
    (proj2 (Nat.ltb_lt _ _) Hch), (proj2 (Nat.ltb_lt _ _) Hlen). done.
Qed.

Lemma pixel_to_index_bound a row col ch :
  (row < height a)%nat -> (col < width a)%nat -> (ch < rgb)%nat ->
  (pixel_to_index row col ch (width a) rgb < size a)%nat.
Proof. unfold pixel_to_index, size, rgb. nia. Qed.

(** The innermost loop writes the next bits to the next channels of the
    pixel and stops at the end of the message. *)
Lemma std_channel_loop_effect bits n c0 b (h : heap) stego a row col :
  h !! stego = Some a ->
  length (data a) = size a ->
  (row < height a)%nat -> (col < width a)%nat -> (c0 + n <= rgb)%nat ->
  std_channel_loop stego row col bits (length bits) b (seq c0 n) h
  = (Ok (b + Nat.min n (length bits - b))%nat,
     <[stego := with_data a
                  (lsb_writes (message_bit bits) b
                     (seq (pixel_to_index row col c0 (width a) rgb)
                        (Nat.min n (length bits - b)))
                     (data a))]> h).
Proof.
  revert c0 b h a. induction n as [|n IH]; intros c0 b h a Hs Hlen Hrow Hcol Hc.
  - simpl. unfold ret. rewrite Nat.add_0_r, with_data_id.
    by rewrite list_insert_id.
  - cbn [seq std_channel_loop].
    destruct (length bits <=? b)%nat eqn:Hb.
    + apply Nat.leb_le in Hb. unfold ret.
      replace (length bits - b)%nat with 0%nat by lia.
      rewrite Nat.min_0_r, Nat.add_0_r. simpl. rewrite with_data_id.
      by rewrite list_insert_id.
    + apply Nat.leb_gt in Hb.
      set (p := pixel_to_index row col c0 (width a) rgb).
      assert (Hp : (p < size a)%nat) by (apply pixel_to_index_bound; lia).
      destruct (lookup_lt_is_Some_2 (data a) p ltac:(lia)) as [v Hv].
      destruct (lookup_lt_is_Some_2 bits b Hb) as [bit Hbit].
      rewrite (bind_ok _ _ h v h) by (apply (load_at h stego a); try done; lia).
      rewrite (bind_ok _ _ h bit h) by (unfold lift; by rewrite Hbit).
      set (a' := with_data a (<[p := lsb_substitute v bit]> (data a))).
      rewrite (bind_ok _ _ h tt (<[stego := a']> h))
        by (apply (store_at h stego a); try done; lia).
      assert (Hs' : <[stego := a']> h !! stego = Some a').
      { apply list_lookup_insert_eq. by eapply lookup_lt_Some. }
      rewrite (IH (S c0) (S b) (<[stego := a']> h) a' Hs')
        by (subst a'; simpl; unfold size in *; simpl; rewrite ?length_insert; lia).
      rewrite list_insert_insert_eq.
      replace (length bits - b)%nat with (S (length bits - S b)) by lia.
      rewrite <- Nat.succ_min_distr. f_equal; [f_equal; lia|].
      f_equal. subst a'. unfold with_data. simpl. f_equal.
      replace (pixel_to_index row col (S c0) (width a) rgb) with (S p)
        by (subst p; unfold pixel_to_index; lia).
      f_equal. apply list_eq. intros j.
      destruct (decide (p = j)) as [<-|Hne].
      * rewrite list_lookup_insert_eq by lia.
        rewrite list_lookup_alter_eq, Hv. simpl.
        unfold message_bit. by rewrite Hbit.
      * by rewrite list_lookup_insert_ne, list_lookup_alter_ne.
Qed.

Lemma seq_lsb_writes_join bit_at b p m1 m2 d :
  lsb_writes bit_at (b + m1) (seq (p + m1) m2) (lsb_writes bit_at b (seq p m1) d)
  = lsb_writes bit_at b (seq p (m1 + m2)) d.
Proof. by rewrite seq_app, lsb_writes_app, length_seq. Qed.

(** The loop over the columns of a row. *)
Lemma std_col_loop_effect bits n col0 b (h : heap) stego a row :
  h !! stego = Some a ->
  length (data a) = size a ->
  (row < height a)%nat -> (col0 + n <= width a)%nat ->
  std_col_loop stego row rgb bits (length bits) b (seq col0 n) h
  = (Ok (b + Nat.min (n * rgb) (length bits - b))%nat,
     <[stego := with_data a
                  (lsb_writes (message_bit bits) b
                     (seq (pixel_to_index row col0 0 (width a) rgb)
                        (Nat.min (n * rgb) (length bits - b)))
                     (data a))]> h).
Proof.
  revert col0 b h a. induction n as [|n IH]; intros col0 b h a Hs Hlen Hrow Hcol.
  - simpl. unfold ret. rewrite Nat.add_0_r, with_data_id.
    by rewrite list_insert_id.
  - cbn [seq std_col_loop].
    set (p := pixel_to_index row col0 0 (width a) rgb).
    set (m1 := Nat.min rgb (length bits - b)).
    set (a1 := with_data a (lsb_writes (message_bit bits) b (seq p m1) (data a))).
    rewrite (bind_ok _ _ h (b + m1)%nat (<[stego := a1]> h))
      by (apply std_channel_loop_effect; try done; lia).
    destruct (length bits <=? b + m1)%nat eqn:Hb.
    + apply Nat.leb_le in Hb. unfold ret.
      replace (Nat.min (S n * rgb) (length bits - b)) with m1
        by (subst m1; unfold rgb in *; lia).
      done.
    + apply Nat.leb_gt in Hb.
      assert (Hm1 : m1 = rgb) by (subst m1; unfold rgb in *; lia).
      assert (Hs1 : <[stego := a1]> h !! stego = Some a1).
      { apply list_lookup_insert_eq. by eapply lookup_lt_Some. }
      rewrite (IH (S col0) (b + m1)%nat (<[stego := a1]> h) a1 Hs1)
        by (subst a1; unfold with_data, size in *; simpl;
            rewrite ?lsb_writes_length; lia).
      rewrite list_insert_insert_eq.
      replace (Nat.min (S n * rgb) (length bits - b))
        with (m1 + Nat.min (n * rgb) (length bits - (b + m1)))%nat
        by (rewrite Hm1; unfold rgb in *; lia).
      f_equal; [f_equal; lia|]. f_equal.
      subst a1. unfold with_data. cbn [height width data]. f_equal.
      replace (pixel_to_index row (S col0) 0 (width a) rgb) with (p + m1)%nat
        by (rewrite Hm1; subst p; unfold pixel_to_index; lia).
      apply seq_lsb_writes_join.
Qed.

(** The loop over the rows. *)
Lemma std_row_loop_effect bits n row0 b (h : heap) stego a :
  h !! stego = Some a ->
  length (data a) = size a ->
  (row0 + n <= height a)%nat ->
  std_row_loop stego (width a) rgb bits (length bits) b (seq row0 n) h
  = (Ok (b + Nat.min (n * (width a * rgb)) (length bits - b))%nat,
     <[stego := with_data a
                  (lsb_writes (message_bit bits) b
                     (seq (pixel_to_index row0 0 0 (width a) rgb)
                        (Nat.min (n * (width a * rgb)) (length bits - b)))
                     (data a))]> h).
Proof.
  revert row0 b h a. induction n as [|n IH]; intros row0 b h a Hs Hlen Hrow.
  - simpl. unfold ret. rewrite Nat.add_0_r, with_data_id.
    by rewrite list_insert_id.
  - cbn [seq std_row_loop].
    set (p := pixel_to_index row0 0 0 (width a) rgb).
    set (m1 := Nat.min (width a * rgb) (length bits - b)).
    set (a1 := with_data a (lsb_writes (message_bit bits) b (seq p m1) (data a))).
    rewrite (bind_ok _ _ h (b + m1)%nat (<[stego := a1]> h))
      by (apply std_col_loop_effect; try done; lia).
    destruct (length bits <=? b + m1)%nat eqn:Hb.
    + apply Nat.leb_le in Hb. unfold ret.
      replace (Nat.min (S n * (width a * rgb)) (length bits - b)) with m1
        by (subst m1; nia).
      done.
    + apply Nat.leb_gt in Hb.
      assert (Hm1 : m1 = (width a * rgb)%nat) by (subst m1; lia).
      assert (Hs1 : <[stego := a1]> h !! stego = Some a1).
      { apply list_lookup_insert_eq. by eapply lookup_lt_Some. }
      change (width a) with (width a1) at 1.
      rewrite (IH (S row0) (b + m1)%nat (<[stego := a1]> h) a1 Hs1)
        by (subst a1; unfold with_data, size in *; simpl;
            rewrite ?lsb_writes_length; lia).
      rewrite list_insert_insert_eq.
      replace (Nat.min (S n * (width a * rgb)) (length bits - b))
        with (m1 + Nat.min (n * (width a * rgb)) (length bits - (b + m1)))%nat
        by (rewrite Hm1; nia).
      f_equal; [f_equal; subst a1; simpl; lia|]. f_equal.
      subst a1. unfold with_data. cbn [height width data]. f_equal.
      replace (pixel_to_index (S row0) 0 0 (width a) rgb) with (p + m1)%nat
        by (rewrite Hm1; subst p; unfold pixel_to_index; lia).
      apply seq_lsb_writes_join.
Qed.

Lemma embed_standard_lsb_effect cover img message (h : heap) :
  h !! cover = Some img ->
  wf_image img ->
  Z.of_nat (length (string_to_bits message)) <= Z.of_nat (size img) ->
  embed_standard_lsb cover message h
  = (Ok (length h,
         {| std_message_length_bits := Z.of_nat (length (string_to_bits message));
            std_message_length_chars := Z.of_nat (length message);
            std_total_pixels_modified := Z.of_nat (length (string_to_bits message));
            std_total_capacity := Z.of_nat (size img);
            std_capacity_used_percent :=
              (inject_Z (Z.of_nat (length (string_to_bits message)))
               / inject_Z (Z.of_nat (size img)) * 100)%Q;
            std_image_dimensions := (width img, height img);
            method := "Standard Sequential LSB (No DP)" |}),
     h ++ [with_data img
             (lsb_writes (message_bit (string_to_bits message)) 0
                (seq 0 (length (string_to_bits message))) (data img))]).
Proof.
  intros Hcover Hwf Hcap.
  pose proof (wf_image_size_pos img Hwf) as Hpos.
  destruct Hwf as (_ & _ & Hlen & _).
  set (bits := string_to_bits message) in *.
  unfold embed_standard_lsb.
  rewrite (bind_ok _ _ h img h) by (unfold deref; by rewrite Hcover).
  cbn [shape]. fold (size img). fold bits.
  rewrite (proj2 (Z.ltb_ge _ _) Hcap).
  rewrite (bind_ok _ _ h (length h) (h ++ [img]))
    by (unfold np_copy; by rewrite Hcover).
  erewrite bind_ok; last first.
  { apply (std_row_loop_effect bits (height img) 0 0 (h ++ [img]) (length h) img).
    - by apply list_lookup_middle.
    - done.
    - lia. }
  erewrite bind_ok; last first.
  { unfold lift, py_truediv.
    rewrite (proj2 (Z.eqb_neq (Z.of_nat (size img)) 0)) by lia. reflexivity. }
  unfold ret. f_equal.
  rewrite insert_app_r_alt by lia. rewrite Nat.sub_diag. simpl.
  do 3 f_equal. unfold pixel_to_index. simpl.
  rewrite Nat.sub_0_r. do 2 f_equal.
  apply Nat.min_r. unfold size in Hcap. nia.
Qed.

(** X10: on a decoded image that has room, [embed_standard_lsb] succeeds
    and writes the message bits to the first C slots in raster order: slot
    i below C holds the cover sample with its least-significant bit
    replaced by bit i, every other slot holds the cover sample; reading
    the least-significant bits of the first C slots gives the message
    bits, so a message of single-byte characters decodes back from them.
    The buffers already in the store are unchanged and 'total_pixels_modified'
    is the bit count C. *)
Theorem embed_standard_lsb_raster cover img message (h : heap) :
  h !! cover = Some img ->
  wf_image img ->
  Z.of_nat (length (string_to_bits message)) <= Z.of_nat (size img) ->
  exists stego st h' s,
    embed_standard_lsb cover message h = (Ok (stego, st), h') /\
    (forall r a, h !! r = Some a -> h' !! r = Some a) /\
    h !! stego = None /\
    h' !! stego = Some s /\
    shape s = shape img /\
    std_total_pixels_modified st = Z.of_nat (length (string_to_bits message)) /\
    std_total_capacity st = Z.of_nat (size img) /\
    (forall i v, data img !! i = Some v ->
       ((i < length (string_to_bits message))%nat ->
        exists b, string_to_bits message !! i = Some b /\
                  data s !! i = Some (lsb_substitute v b)) /\
       ((length (string_to_bits message) <= i)%nat -> data s !! i = Some v)) /\
    lsb_of <$> take (length (string_to_bits message)) (data s)
    = string_to_bits message /\
    (single_byte message ->
     bits_to_string (lsb_of <$> take (length (string_to_bits message)) (data s))
     = Ok message).
Proof.
  intros Hcover Hwf Hcap.
  pose proof (embed_standard_lsb_effect cover img message h Hcover Hwf Hcap) as Heff.
  destruct Hwf as (_ & _ & Hlen & _).
  set (bits := string_to_bits message) in *.
  set (d' := lsb_writes (message_bit bits) 0 (seq 0 (length bits)) (data img)) in *.
  assert (Hslot : forall i v, data img !! i = Some v ->
    ((i < length bits)%nat ->
     exists b, bits !! i = Some b /\ d' !! i = Some (lsb_substitute v b)) /\
    ((length bits <= i)%nat -> d' !! i = Some v)).
  { intros i v Hv. split.
    - intros Hi. destruct (lookup_lt_is_Some_2 bits i Hi) as [b Hb].
      exists b. split; [done|]. subst d'.
      rewrite (lsb_writes_slot _ 0 _ _ i i).
      + rewrite Hv. simpl. unfold message_bit. by rewrite Hb.
      + apply NoDup_seq.
      + by rewrite lookup_seq_lt.
    - intros Hi. subst d'. rewrite lsb_writes_other; [done|].
      intros Hin. apply elem_of_seq in Hin. lia. }
  assert (Hread : lsb_of <$> take (length bits) d' = bits).
  { apply list_eq. intros i. rewrite list_lookup_fmap.
    destruct (decide (i < length bits)%nat) as [Hi|Hi].
    - rewrite lookup_take_lt by done.
      destruct (lookup_lt_is_Some_2 (data img) i ltac:(lia)) as [v Hv].
      destruct (proj1 (Hslot i v Hv) Hi) as (b & Hb & Hd).
      rewrite Hd, Hb. simpl. by rewrite lsb_of_substitute.
    - rewrite lookup_take_ge by lia. simpl. symmetry.
      apply lookup_ge_None_2. lia. }
  eexists _, _, _, _. split; [exact Heff|].
  split; [intros r a Hr; by apply lookup_app_l_Some|].
  split; [by apply lookup_ge_None_2|].
  split; [by apply list_lookup_middle|].
  split; [done|]. split; [done|]. split; [done|].
  cbn [with_data data]. split; [exact Hslot|]. split; [exact Hread|].
  intros Hmsg. rewrite Hread. by apply bits_to_string_string_to_bits.
Qed.

Lemma embed_standard_lsb_raster_witness :
  exists stego st h' s,
    embed_standard_lsb 0%nat msg_Hi heap_2x3 = (Ok (stego, st), h') /\
    (forall r a, heap_2x3 !! r = Some a -> h' !! r = Some a) /\
    heap_2x3 !! stego = None /\
    h' !! stego = Some s /\
    shape s = shape cover_2x3 /\
    std_total_pixels_modified st = Z.of_nat (length (string_to_bits msg_Hi)) /\
    std_total_capacity st = Z.of_nat (size cover_2x3) /\
    (forall i v, data cover_2x3 !! i = Some v ->
       ((i < length (string_to_bits msg_Hi))%nat ->
        exists b, string_to_bits msg_Hi !! i = Some b /\
                  data s !! i = Some (lsb_substitute v b)) /\
       ((length (string_to_bits msg_Hi) <= i)%nat -> data s !! i = Some v)) /\
    lsb_of <$> take (length (string_to_bits msg_Hi)) (data s)
    = string_to_bits msg_Hi /\
    (single_byte msg_Hi ->
     bits_to_string (lsb_of <$> take (length (string_to_bits msg_Hi)) (data s))
     = Ok msg_Hi).
Proof.
  apply (embed_standard_lsb_raster 0%nat cover_2x3 msg_Hi heap_2x3).
  - reflexivity.
  - exact cover_2x3_wf.
  - vm_compute. discriminate.
Defined.

(** *** The sequential loops raise nothing but [IndexError] *)

Lemma std_channel_loop_raises stego row col bits n b channels (h h' : heap) e :
  std_channel_loop stego row col bits n b channels h = (Raise e, h') ->
  e = IndexError.
Proof.
  revert b h. induction channels as [|ch channels IH]; intros b h Hloop.
  - discriminate.
  - cbn [std_channel_loop] in Hloop.
    destruct (n <=? b)%nat; [discriminate|].
    unfold bind at 1 in Hloop.
    destruct (load _ _ _ _ h) as [[v|e1] h1] eqn:Hload.
    2:{ injection Hloop as <- <-. by eapply load_raises. }
    unfold bind at 1, lift at 1 in Hloop.
    destruct (bits !! b) as [bit|]; simpl in Hloop; [|congruence].
    unfold bind at 1 in Hloop.
    destruct (store _ _ _ _ _ h1) as [[u|e3] h3] eqn:Hstore.
    + by eapply IH.
    + injection Hloop as <- <-. by eapply store_raises.
Qed.

Lemma std_col_loop_raises stego row c bits n b cols (h h' : heap) e :
  std_col_loop stego row c bits n b cols h = (Raise e, h') -> e = IndexError.
Proof.
  revert b h. induction cols as [|col cols IH]; intros b h Hloop.
  - discriminate.
  - cbn [std_col_loop] in Hloop. unfold bind at 1 in Hloop.
    destruct (std_channel_loop _ _ _ _ _ _ _ h) as [[b1|e1] h1] eqn:Hinner.
    + destruct (n <=? b1)%nat; [discriminate|]. by eapply IH.
    + injection Hloop as <- <-. by eapply std_channel_loop_raises.
Qed.

Lemma std_row_loop_raises stego w c bits n b rows (h h' : heap) e :
  std_row_loop stego w c bits n b rows h = (Raise e, h') -> e = IndexError.
Proof.
  revert b h. induction rows as [|row rows IH]; intros b h Hloop.
  - discriminate.
  - cbn [std_row_loop] in Hloop. unfold bind at 1 in Hloop.
    destruct (std_col_loop _ _ _ _ _ _ _ h) as [[b1|e1] h1] eqn:Hinner.
    + destruct (n <=? b1)%nat; [discriminate|]. by eapply IH.
    + injection Hloop as <- <-. by eapply std_col_loop_raises.
Qed.

Lemma embed_standard_lsb_rejects cover img message (h : heap) :
  h !! cover = Some img ->
  Z.of_nat (size img) < Z.of_nat (length (string_to_bits message)) ->
  embed_standard_lsb cover message h
  = (Raise (ValueError
              (MessageTooLarge (Z.of_nat (length (string_to_bits message)))
                 (Z.of_nat (size img)) (Z.of_nat (size img) / 8))), h).
Proof.
  intros Hcover Hlt. unfold embed_standard_lsb.
  rewrite (bind_ok _ _ h img h) by (unfold deref; by rewrite Hcover).
  cbn [shape]. fold (size img).
  by rewrite (proj2 (Z.ltb_lt _ _) Hlt).
Qed.

(** X11: [embed_standard_lsb] raises a [ValueError], the "Message too
    large" one, exactly when the message has more bits than the image has
    slots, and then the store is as it was. *)
Theorem embed_standard_lsb_too_large cover img message (h : heap) :
  h !! cover = Some img ->
  let C := Z.of_nat (length (string_to_bits message)) in
  let T := Z.of_nat (height img * width img * 3) in
  (T < C <->
   exists e, fst (embed_standard_lsb cover message h) = Raise (ValueError e)) /\
  (T < C ->
   embed_standard_lsb cover message h
   = (Raise (ValueError (MessageTooLarge C T (T / 8))), h)).
Proof.
  intros Hcover C T.
  change (height img * width img * 3)%nat with (size img) in T.
  assert (Hbig : T < C ->
    embed_standard_lsb cover message h
    = (Raise (ValueError (MessageTooLarge C T (T / 8))), h))
    by (intros; by apply embed_standard_lsb_rejects).
  split; [|exact Hbig]. split.
  - intros Hlt. rewrite Hbig by done. eauto.
  - intros [e He]. destruct (Z_lt_le_dec T C) as [|Hfit]; [done|]. exfalso.
    revert He. unfold embed_standard_lsb.
    rewrite (bind_ok _ _ h img h) by (unfold deref; by rewrite Hcover).
    cbn [shape]. fold (size img). fold C T.
    rewrite (proj2 (Z.ltb_ge _ _) Hfit).
    rewrite (bind_ok _ _ h (length h) (h ++ [img]))
      by (unfold np_copy; by rewrite Hcover).
    unfold bind at 1.
    destruct (std_row_loop _ _ _ _ _ _ _ _) as [[u|e1] h1] eqn:Hloop.
    + unfold bind, lift, py_truediv. by destruct (_ =? 0).
    + apply std_row_loop_raises in Hloop as ->. discriminate.
Qed.

Lemma embed_standard_lsb_too_large_witness :
  (18 < 24 <->
   exists e, fst (embed_standard_lsb 0%nat [72; 105; 33]%N heap_2x3)
             = Raise (ValueError e)) /\
  (18 < 24 ->
   embed_standard_lsb 0%nat [72; 105; 33]%N heap_2x3
   = (Raise (ValueError (MessageTooLarge 24 18 (18 / 8))), heap_2x3)).
Proof.
  exact (embed_standard_lsb_too_large 0%nat cover_2x3 [72; 105; 33]%N heap_2x3
           eq_refl).
Defined.

(* ===================================================================== *)
(** * Further properties: capacity                                        *)
(* ===================================================================== *)

Section CapacityProperties.

Context (utf8_encode : pystr -> list Z) (sha256 : list Z -> list Z).
Context (shuffle : Z -> list nat -> list nat).
Hypothesis shuffle_perm : forall seed l, shuffle seed l ≡ₚ l.

(** X12: the capacity [get_image_capacity] reports is the one the
    embedders enforce. On a decoded image 'max_bits' is H*W*3 and
    'max_characters' is its floor division by 8; a message of single-byte
    characters is accepted by [embed], and by [embed_standard_lsb],
    exactly when it has at most 'max_characters' characters;
    'max_characters_with_overhead' lies between 0 and 'max_characters'. *)
Theorem capacity_matches_embedders cover img message password eps noise decoy
    (h : heap) :
  h !! cover = Some img ->
  wf_image img ->
  single_byte message ->
  let cap := get_image_capacity img in
  max_bits cap = Z.of_nat (height img * width img * 3) /\
  cap_total_pixels cap = max_bits cap /\
  8 * max_characters cap <= max_bits cap < 8 * max_characters cap + 8 /\
  0 <= max_characters_with_overhead cap <= max_characters cap /\
  (Z.of_nat (length message) <= max_characters cap <->
   exists stego st h',
     embed utf8_encode sha256 shuffle cover message password eps noise decoy h
     = (Ok (stego, st), h')) /\
  (Z.of_nat (length message) <= max_characters cap <->
   exists stego st h', embed_standard_lsb cover message h = (Ok (stego, st), h')).
Proof.
  intros Hcover Hwf Hmsg cap.
  assert (Hbits : max_bits cap = Z.of_nat (size img)).
  { subst cap. unfold get_image_capacity, size, rgb. simpl. f_equal. lia. }
  assert (Hchars : max_characters cap = Z.of_nat (size img) / 8).
  { subst cap. unfold get_image_capacity, size, rgb. simpl. do 2 f_equal. lia. }
  assert (Hover : max_characters_with_overhead cap
                  = Z.quot (max_characters cap * 8) 10).
  { subst cap. unfold get_image_capacity, py_int. simpl. f_equal; lia. }
  pose proof (Z.div_mod (Z.of_nat (size img)) 8 ltac:(lia)) as Hdm.
  pose proof (Z.mod_pos_bound (Z.of_nat (size img)) 8 ltac:(lia)) as Hmod.
  assert (Hlen : Z.of_nat (length (string_to_bits message))
                 = 8 * Z.of_nat (length message))
    by (rewrite string_to_bits_length by done; lia).
  assert (Hfit : Z.of_nat (length message) <= max_characters cap <->
                 Z.of_nat (length (string_to_bits message)) <= Z.of_nat (size img))
    by (rewrite Hchars, Hlen; lia).
  split; [by rewrite Hbits|]. split; [done|].
  split; [rewrite Hbits, Hchars; lia|]. split.
  { rewrite Hover.
    assert (0 <= max_characters cap) by (rewrite Hchars; lia).
    rewrite Z.quot_div_nonneg by lia.
    pose proof (Z.div_mod (max_characters cap * 8) 10 ltac:(lia)).
    pose proof (Z.mod_pos_bound (max_characters cap * 8) 10 ltac:(lia)). lia. }
  split.
  - rewrite Hfit. split.
    + intros Hcap.
      destruct (embed_effect utf8_encode sha256 shuffle shuffle_perm cover img message
                  password eps noise decoy h Hcover Hwf Hcap) as [st Hok].
      eauto.
    + intros (stego & st & h' & Hok).
      destruct (Z_lt_le_dec (Z.of_nat (size img))
                  (Z.of_nat (length (string_to_bits message)))) as [Hbig|]; [|done].
      rewrite (embed_too_large utf8_encode sha256 shuffle cover img) in Hok by done.
      discriminate.
  - rewrite Hfit. split.
    + intros Hcap. rewrite (embed_standard_lsb_effect cover img) by done. eauto.
    + intros (stego & st & h' & Hok).
      destruct (Z_lt_le_dec (Z.of_nat (size img))
                  (Z.of_nat (length (string_to_bits message)))) as [Hbig|]; [|done].
      rewrite (embed_standard_lsb_rejects cover img) in Hok by done.
      discriminate.
Qed.

End CapacityProperties.

Lemma capacity_matches_embedders_witness :
  let cap := get_image_capacity cover_2x3 in
  max_bits cap = Z.of_nat (height cover_2x3 * width cover_2x3 * 3) /\
  cap_total_pixels cap = max_bits cap /\
  8 * max_characters cap <= max_bits cap < 8 * max_characters cap + 8 /\
  0 <= max_characters_with_overhead cap <= max_characters cap /\
  (Z.of_nat (length msg_Hi) <= max_characters cap <->
   exists stego st h',
     embed ascii_encode toy_digest lcg_shuffle 0%nat msg_Hi pw 1 (7 # 2) all_decoy
       heap_2x3 = (Ok (stego, st), h')) /\
  (Z.of_nat (length msg_Hi) <= max_characters cap <->
   exists stego st h', embed_standard_lsb 0%nat msg_Hi heap_2x3 = (Ok (stego, st), h')).
Proof.
  exact (capacity_matches_embedders ascii_encode toy_digest lcg_shuffle
           lcg_shuffle_perm 0%nat cover_2x3 msg_Hi pw 1 (7 # 2) all_decoy heap_2x3
           eq_refl cover_2x3_wf msg_Hi_single_byte).
Defined.

(* ===================================================================== *)
(** * Further properties: the analyzer                                    *)
(* ===================================================================== *)

Lemma land_1_cases v : Z.land v 1 = 0 \/ Z.land v 1 = 1.
Proof.
  pose proof (Z.land_ones v 1 ltac:(lia)) as H.
  change (Z.ones 1) with 1 in H. change (2 ^ 1) with 2 in H. rewrite H.
  pose proof (Z.mod_pos_bound v 2 ltac:(lia)). lia.
Qed.

Lemma lsb_counts_total (l : list Z) :
  np_count (fun b => b =? 0) ((fun v => Z.land v 1) <$> l)
  + np_count (fun b => b =? 1) ((fun v => Z.land v 1) <$> l)
  = Z.of_nat (length ((fun v => Z.land v 1) <$> l)).
Proof.
  unfold np_count. induction l as [|v l IH]; [done|].
  cbn [fmap list_fmap List.filter length].
  destruct (land_1_cases v) as [-> | ->]; simpl; lia.
Qed.

Lemma np_count_nonneg {A} (f : A -> bool) l : 0 <= np_count f l.
Proof. unfold np_count. lia. Qed.

Lemma np_count_le_length {A} (f : A -> bool) l : np_count f l <= Z.of_nat (length l).
Proof.
  unfold np_count. pose proof (List.filter_length_le f l). lia.
Qed.

Section ChiSquareProperties.

Context (chisquare : Z * Z -> Q * Q -> pyfloat * pyfloat).

(** What a report of [chi_square_attack] is made of. *)
Lemma chi_square_attack_inv img channel rep :
  chi_square_attack chisquare img channel = Ok rep ->
  exists channel_data,
    ((lower channel = "red" /\ channel_data = plane 0 0 (data img)) \/
     (lower channel = "green" /\ channel_data = plane 1 0 (data img)) \/
     (lower channel = "blue" /\ channel_data = plane 2 0 (data img)) \/
     (lower channel = "all" /\ channel_data = data img)) /\
    let lsbs := (fun v => Z.land v 1) <$> channel_data in
    lsb_0_count rep = np_count (fun b => b =? 0) lsbs /\
    lsb_1_count rep = np_count (fun b => b =? 1) lsbs /\
    total_pixels rep = Z.of_nat (length lsbs) /\
    lsb_0_percent rep
    = fmap_pos (fun x => x * 100)%Q (np_truediv (lsb_0_count rep) (total_pixels rep)) /\
    lsb_1_percent rep
    = fmap_pos (fun x => x * 100)%Q (np_truediv (lsb_1_count rep) (total_pixels rep)) /\
    deviation_from_50_50 rep
    = fmap_pos (fun x => Qabs (x - 50))%Q (lsb_0_percent rep).
Proof.
  unfold chi_square_attack. intros Hrep.
  destruct (String.eqb (lower channel) "red") eqn:Hred.
  { apply String.eqb_eq in Hred. cbn [rbind] in Hrep.
    destruct (chisquare _ _) as [stat p]. destruct (flt p _);
      injection Hrep as <-; eexists; (split; [left; eauto|]);
      cbn; repeat split; reflexivity. }
  destruct (String.eqb (lower channel) "green") eqn:Hgreen.
  { apply String.eqb_eq in Hgreen. cbn [rbind] in Hrep.
    destruct (chisquare _ _) as [stat p]. destruct (flt p _);
      injection Hrep as <-; eexists; (split; [right; left; eauto|]);
      cbn; repeat split; reflexivity. }
  destruct (String.eqb (lower channel) "blue") eqn:Hblue.
  { apply String.eqb_eq in Hblue. cbn [rbind] in Hrep.
    destruct (chisquare _ _) as [stat p]. destruct (flt p _);
      injection Hrep as <-; eexists; (split; [right; right; left; eauto|]);
      cbn; repeat split; reflexivity. }
  destruct (String.eqb (lower channel) "all") eqn:Hall; [|discriminate].
  apply String.eqb_eq in Hall. cbn [rbind] in Hrep.
  destruct (chisquare _ _) as [stat p]. destruct (flt p _);
    injection Hrep as <-; eexists; (split; [right; right; right; eauto|]);
    cbn; repeat split; reflexivity.
Qed.

(** X13: in every report of [chi_square_attack] the two bit counts are
    non-negative and add up to 'total_pixels'; over an empty selection the
    percentages and the deviation are [nan]; otherwise, reading floats as
    exact rationals, the two percentages add up to 100 and the deviation,
    the distance of either percentage from 50, lies between 0 and 50. *)
Theorem chi_square_attack_counts img channel rep :
  chi_square_attack chisquare img channel = Ok rep ->
  0 <= lsb_0_count rep /\
  0 <= lsb_1_count rep /\
  lsb_0_count rep + lsb_1_count rep = total_pixels rep /\
  (total_pixels rep = 0 ->
   lsb_0_percent rep = NaN /\ lsb_1_percent rep = NaN /\
   deviation_from_50_50 rep = NaN) /\
  (0 < total_pixels rep ->
   exists p0 p1 d,
     lsb_0_percent rep = Finite p0 /\
     lsb_1_percent rep = Finite p1 /\
     deviation_from_50_50 rep = Finite d /\
     (p0 + p1 == 100)%Q /\
     (d == Qabs (p0 - 50))%Q /\
     (d == Qabs (p1 - 50))%Q /\
     (0 <= d <= 50)%Q).
Proof.
  intros Hrep.
  destruct (chi_square_attack_inv _ _ _ Hrep)
    as (cd & _ & H0 & H1 & HT & Hp0 & Hp1 & Hd).
  pose proof (lsb_counts_total cd) as Hsum.
  pose proof (np_count_nonneg (fun b => b =? 0) ((fun v => Z.land v 1) <$> cd)).
  pose proof (np_count_nonneg (fun b => b =? 1) ((fun v => Z.land v 1) <$> cd)).
  rewrite <- H0, <- H1, <- HT in *.
  set (c0 := lsb_0_count rep) in *. set (c1 := lsb_1_count rep) in *.
  set (T := total_pixels rep) in *.
  split; [done|]. split; [done|]. split; [done|]. split.
  { intros HT0. rewrite Hd, Hp0, Hp1. unfold np_truediv. rewrite HT0.
    replace c0 with 0 by lia. replace c1 with 0 by lia. done. }
  intros Hpos.
  assert (HTq : (0 < inject_Z T)%Q).
  { replace 0%Q with (inject_Z 0) by reflexivity. rewrite <- Zlt_Qlt. lia. }
  assert (HTne : ~ (inject_Z T == 0)%Q).
  { intros Heq. rewrite Heq in HTq. by apply Qlt_irrefl in HTq. }
  assert (Htd : forall c, np_truediv c T = Finite (inject_Z c / inject_Z T)%Q).
  { intros c. unfold np_truediv.
    destruct (T =? 0) eqn:E; [apply Z.eqb_eq in E; lia|done]. }
  rewrite Hd, Hp0, Hp1, !Htd. cbn [fmap_pos].
  assert (Hsumq : (inject_Z c0 / inject_Z T * 100 + inject_Z c1 / inject_Z T * 100
                   == 100)%Q).
  { replace c1 with (T - c0) by lia. unfold Zminus.
    rewrite inject_Z_plus, inject_Z_opp. by field. }
  assert (Hlo : (0 <= inject_Z c0 / inject_Z T * 100)%Q).
  { apply Qmult_le_0_compat; [|discriminate].
    apply Qle_shift_div_l; [done|]. rewrite Qmult_0_l.
    replace 0%Q with (inject_Z 0) by reflexivity. rewrite <- Zle_Qle. lia. }
  assert (Hhi : (inject_Z c0 / inject_Z T * 100 <= 100)%Q).
  { apply (Qle_trans _ (1 * 100)); [|vm_compute; discriminate].
    apply Qmult_le_compat_r; [|discriminate].
    apply Qle_shift_div_r; [done|]. rewrite Qmult_1_l.
    rewrite <- Zle_Qle. lia. }
  set (p0 := (inject_Z c0 / inject_Z T * 100)%Q) in *.
  set (p1 := (inject_Z c1 / inject_Z T * 100)%Q) in *.
  exists p0, p1, (Qabs (p0 - 50)).
  split; [done|]. split; [done|]. split; [done|]. split; [done|].
  split; [reflexivity|]. split.
  { assert (Hneg : (p1 - 50 == - (p0 - 50))%Q).
    { assert (p1 == 100 - p0)%Q as -> by (rewrite <- Hsumq; ring). ring. }
    rewrite Hneg. by rewrite Qabs_opp. }
  split; [apply Qabs_nonneg|].
  apply Qabs_Qle_condition. split.
  - apply (Qplus_le_l _ _ 50). ring_simplify. exact Hlo.
  - apply (Qplus_le_l _ _ 50). ring_simplify. exact Hhi.
Qed.

End ChiSquareProperties.

Lemma chi_square_attack_counts_witness :
  exists rep, chi_square_attack chisquare_standin cover_2x3 "all" = Ok rep /\
              lsb_0_count rep + lsb_1_count rep = total_pixels rep.
Proof.
  eexists. split; [reflexivity|].
  eapply (chi_square_attack_counts chisquare_standin cover_2x3 "all").
  reflexivity.
Defined.


Lemma ascii_lower_idemp c : ascii_lower (ascii_lower c) = ascii_lower c.
Proof.
  unfold ascii_lower.
  destruct ((65 <=? nat_of_ascii c)%nat && (nat_of_ascii c <=? 90)%nat) eqn:E.
  - apply andb_prop in E as [E1 E2].
    apply Nat.leb_le in E1. apply Nat.leb_le in E2.
    rewrite nat_ascii_embedding by lia.
    destruct ((65 <=? nat_of_ascii c + 32)%nat
              && (nat_of_ascii c + 32 <=? 90)%nat) eqn:E'; [|done].
    apply andb_prop in E' as [_ E']. apply Nat.leb_le in E'. lia.
  - by rewrite E.
Qed.

Lemma lower_idemp s : lower (lower s) = lower s.
Proof.
  induction s as [|c s IH]; [done|]. cbn [lower].
  by rewrite ascii_lower_idemp, IH.
Qed.

Lemma plane_counts (f : Z -> bool) (g : Z -> Z) i l :
  np_count f (g <$> plane 0 i l) + np_count f (g <$> plane 1 i l)
  + np_count f (g <$> plane 2 i l)
  = np_count f (g <$> l).
Proof.
  unfold np_count. revert i. induction l as [|v l IH]; intros i; [done|].
  specialize (IH (S i)). cbn [plane].
  assert (Hmod : (i mod rgb < 3)%nat) by (apply Nat.mod_upper_bound; done).
  destruct (i mod rgb)%nat as [|[|[|r]]] eqn:Hr; [| | |lia];
    cbn [Nat.eqb fmap list_fmap List.filter]; destruct (f (g v));
    cbn [length]; cbn [fmap list_fmap] in IH; lia.
Qed.

Lemma plane_length k i n l :
  (k < 3)%nat ->
  (i mod rgb = 0)%nat ->
  length l = (n * rgb)%nat ->
  length (plane k i l) = n.
Proof.
  intros Hk. revert i l. induction n as [|n IH]; intros i l Hi Hlen.
  { by destruct l. }
  destruct l as [|a [|b [|c l]]]; try discriminate Hlen.
  assert (Hi1 : (S i mod rgb = 1)%nat).
  { unfold rgb in *. replace (S i) with (1 + i)%nat by lia.
    rewrite <- Nat.Div0.add_mod_idemp_r, Hi. done. }
  assert (Hi2 : (S (S i) mod rgb = 2)%nat).
  { unfold rgb in *. replace (S (S i)) with (2 + i)%nat by lia.
    rewrite <- Nat.Div0.add_mod_idemp_r, Hi. done. }
  assert (Hi3 : (S (S (S i)) mod rgb = 0)%nat).
  { unfold rgb in *. replace (S (S (S i))) with (3 + i)%nat by lia.
    rewrite <- Nat.Div0.add_mod_idemp_r, Hi. done. }
  cbn [plane]. rewrite Hi, Hi1, Hi2.
  assert (Hrest : length (plane k (S (S (S i))) l) = n).
  { apply IH; [done|]. cbn [length] in Hlen. unfold rgb in *. lia. }
  destruct k as [|[|[|k]]]; [| | |lia]; cbn [Nat.eqb length]; lia.
Qed.

Section ChannelProperties.

Context (chisquare : Z * Z -> Q * Q -> pyfloat * pyfloat).

Local Abbreviation attack := (chi_square_attack chisquare).

(** X14: [chi_square_attack] accepts exactly the channel names that are
    'red', 'green', 'blue' or 'all' up to the case of their letters and
    raises the channel error on every other name; the report depends on
    the name only through its lower-case form, and names the channel
    "Red", "Green", "Blue" or "All (RGB)". *)
Theorem chi_square_attack_channel_names img name :
  attack img name = attack img (lower name) /\
  ((exists rep, attack img name = Ok rep) <->
   lower name = "red" \/ lower name = "green" \/
   lower name = "blue" \/ lower name = "all") /\
  ((forall rep, attack img name <> Ok rep) ->
   attack img name = Raise (ValueError BadChannel)) /\
  (forall rep, attack img name = Ok rep ->
   (lower name = "red" /\ channel rep = "Red") \/
   (lower name = "green" /\ channel rep = "Green") \/
   (lower name = "blue" /\ channel rep = "Blue") \/
   (lower name = "all" /\ channel rep = "All (RGB)")).
Proof.
  assert (Hok : forall n rep, attack img n = Ok rep ->
            (lower n = "red" /\ channel rep = "Red") \/
            (lower n = "green" /\ channel rep = "Green") \/
            (lower n = "blue" /\ channel rep = "Blue") \/
            (lower n = "all" /\ channel rep = "All (RGB)")).
  { intros n rep. unfold chi_square_attack.
    destruct (String.eqb (lower n) "red") eqn:Hred.
    { apply String.eqb_eq in Hred. cbn [rbind]. destruct (chisquare _ _) as [stat p].
      destruct (flt p _); intros [= <-]; left; done. }
    destruct (String.eqb (lower n) "green") eqn:Hgreen.
    { apply String.eqb_eq in Hgreen. cbn [rbind]. destruct (chisquare _ _) as [stat p].
      destruct (flt p _); intros [= <-]; right; left; done. }
    destruct (String.eqb (lower n) "blue") eqn:Hblue.
    { apply String.eqb_eq in Hblue. cbn [rbind]. destruct (chisquare _ _) as [stat p].
      destruct (flt p _); intros [= <-]; right; right; left; done. }
    destruct (String.eqb (lower n) "all") eqn:Hall; [|discriminate].
    apply String.eqb_eq in Hall. cbn [rbind]. destruct (chisquare _ _) as [stat p].
    destruct (flt p _); intros [= <-]; right; right; right; done. }
  assert (Hsucc : forall n,
            lower n = "red" \/ lower n = "green" \/ lower n = "blue" \/ lower n = "all" ->
            exists rep, attack img n = Ok rep).
  { intros n Hn. unfold chi_square_attack.
    destruct Hn as [-> | [-> | [-> | ->]]]; cbn [String.eqb Ascii.eqb Bool.eqb rbind];
      destruct (chisquare _ _) as [stat p]; destruct (flt p _); eexists; reflexivity. }
  assert (Hbad : forall n,
            ~ (lower n = "red" \/ lower n = "green" \/ lower n = "blue" \/ lower n = "all") ->
            attack img n = Raise (ValueError BadChannel)).
  { intros n Hn. unfold chi_square_attack.
    destruct (String.eqb (lower n) "red") eqn:Hred.
    { apply String.eqb_eq in Hred. tauto. }
    destruct (String.eqb (lower n) "green") eqn:Hgreen.
    { apply String.eqb_eq in Hgreen. tauto. }
    destruct (String.eqb (lower n) "blue") eqn:Hblue.
    { apply String.eqb_eq in Hblue. tauto. }
    destruct (String.eqb (lower n) "all") eqn:Hall.
    { apply String.eqb_eq in Hall. tauto. }
    done. }
  split.
  { unfold chi_square_attack. by rewrite lower_idemp. }
  split.
  { split; [|apply Hsucc]. intros [rep Hrep].
    destruct (Hok _ _ Hrep) as [[? _] | [[? _] | [[? _] | [? _]]]]; tauto. }
  split.
  { intros Hnone. apply Hbad. intros Hn.
    destruct (Hsucc _ Hn) as [rep Hrep]. by apply (Hnone rep). }
  apply Hok.
Qed.

(** What a successful report counts, given the samples it selected. *)
Lemma chi_square_attack_on img name cd :
  (lower name = "red" /\ cd = plane 0 0 (data img)) \/
  (lower name = "green" /\ cd = plane 1 0 (data img)) \/
  (lower name = "blue" /\ cd = plane 2 0 (data img)) \/
  (lower name = "all" /\ cd = data img) ->
  exists rep,
    attack img name = Ok rep /\
    lsb_0_count rep = np_count (fun b => b =? 0) ((fun v => Z.land v 1) <$> cd) /\
    lsb_1_count rep = np_count (fun b => b =? 1) ((fun v => Z.land v 1) <$> cd) /\
    total_pixels rep = Z.of_nat (length cd).
Proof.
  intros Hsel. unfold chi_square_attack.
  destruct Hsel as [[-> ->] | [[-> ->] | [[-> ->] | [-> ->]]]];
    cbn [String.eqb Ascii.eqb Bool.eqb rbind];
    destruct (chisquare _ _) as [stat p]; destruct (flt p _);
    eexists; (split; [reflexivity|]); cbn; by rewrite ?length_fmap.
Qed.

(** X15: on an array with one sample per slot, the red, green and blue
    analyses each cover height * width samples, the analysis of 'all'
    covers three times as many, and the counts of zero bits and of one
    bits of the three channels add up to those of 'all'. *)
Theorem chi_square_attack_channel_partition img :
  wf_array img ->
  exists r g b a,
    attack img "red" = Ok r /\ attack img "green" = Ok g /\
    attack img "blue" = Ok b /\ attack img "all" = Ok a /\
    total_pixels r = Z.of_nat (height img * width img) /\
    total_pixels g = Z.of_nat (height img * width img) /\
    total_pixels b = Z.of_nat (height img * width img) /\
    total_pixels a = Z.of_nat (size img) /\
    lsb_0_count r + lsb_0_count g + lsb_0_count b = lsb_0_count a /\
    lsb_1_count r + lsb_1_count g + lsb_1_count b = lsb_1_count a.
Proof.
  intros [Hlen _].
  destruct (chi_square_attack_on img "red" _ ltac:(left; done))
    as (r & Hr & Hr0 & Hr1 & HrT).
  destruct (chi_square_attack_on img "green" _ ltac:(right; left; done))
    as (g & Hg & Hg0 & Hg1 & HgT).
  destruct (chi_square_attack_on img "blue" _ ltac:(right; right; left; done))
    as (b & Hb & Hb0 & Hb1 & HbT).
  destruct (chi_square_attack_on img "all" _ ltac:(right; right; right; done))
    as (a & Ha & Ha0 & Ha1 & HaT).
  exists r, g, b, a.
  assert (Hplane : forall k, (k < 3)%nat ->
            length (plane k 0 (data img)) = (height img * width img)%nat).
  { intros k Hk. by apply plane_length. }
  rewrite HrT, HgT, HbT, HaT, !Hplane, Hlen by lia.
  rewrite Hr0, Hg0, Hb0, Ha0, Hr1, Hg1, Hb1, Ha1, !plane_counts.
  done.
Qed.

End ChannelProperties.

Lemma chi_square_attack_channel_partition_witness :
  exists r g b a,
    chi_square_attack chisquare_standin cover_2x3 "red" = Ok r /\ chi_square_attack chisquare_standin cover_2x3 "green" = Ok g /\
    chi_square_attack chisquare_standin cover_2x3 "blue" = Ok b /\ chi_square_attack chisquare_standin cover_2x3 "all" = Ok a /\
    total_pixels r = 6 /\ total_pixels g = 6 /\ total_pixels b = 6 /\
    total_pixels a = 18 /\
    lsb_0_count r + lsb_0_count g + lsb_0_count b = lsb_0_count a /\
    lsb_1_count r + lsb_1_count g + lsb_1_count b = lsb_1_count a.
Proof.
  exact (chi_square_attack_channel_partition chisquare_standin cover_2x3 (proj2 (proj2 cover_2x3_wf))).
Defined.


(* ===================================================================== *)
(** * Further properties: the analyzer on the output of the engine        *)
(* ===================================================================== *)

Section ChangedSamples.

Local Abbreviation changed l l' :=
  (np_count (fun p : Z * Z => negb (fst p =? snd p)) (zip l l')).

Lemma changed_cons o s (l l' : list Z) :
  changed (o :: l) (s :: l') = (if o =? s then 0 else 1) + changed l l'.
Proof.
  unfold np_count. cbn [zip zip_with List.filter fst snd].
  destruct (o =? s); cbn [negb length]; lia.
Qed.

Lemma changed_alter (f : Z -> Z) i (l : list Z) : changed l (alter f i l) <= 1.
Proof.
  revert i. induction l as [|v l IH]; intros i; [done|].
  destruct i as [|i]; cbn [alter list_alter]; rewrite changed_cons.
  - rewrite count_changed_self. destruct (v =? f v); lia.
  - rewrite Z.eqb_refl. specialize (IH i). cbn [alter] in IH. lia.
Qed.

Lemma changed_triangle (l1 l2 l3 : list Z) :
  length l1 = length l2 -> length l2 = length l3 ->
  changed l1 l3 <= changed l1 l2 + changed l2 l3.
Proof.
  revert l2 l3. induction l1 as [|a l1 IH]; intros [|b l2] [|c l3] H12 H23;
    simpl in H12, H23; try discriminate; try done.
  rewrite !changed_cons.
  specialize (IH l2 l3 ltac:(by injection H12) ltac:(by injection H23)).
  destruct (a =? c) eqn:Hac, (a =? b) eqn:Hab, (b =? c) eqn:Hbc; lia.
Qed.

Lemma changed_lsb_writes bit_at i path (d : list Z) :
  changed d (lsb_writes bit_at i path d) <= Z.of_nat (length path).
Proof.
  revert i d. induction path as [|slot path IH]; intros i d; cbn [lsb_writes length].
  - rewrite count_changed_self. lia.
  - set (d1 := alter _ slot d).
    pose proof (changed_triangle d d1 (lsb_writes bit_at (S i) path d1)
                  ltac:(subst d1; by rewrite length_alter)
                  ltac:(by rewrite lsb_writes_length)) as Htri.
    pose proof (changed_alter (fun v => lsb_substitute v (bit_at i)) slot d) as H1.
    specialize (IH (S i) d1). fold d1 in H1. lia.
Qed.

Lemma changed_bounds (l l' : list Z) :
  0 <= changed l l' <= Z.of_nat (Nat.min (length l) (length l')).
Proof.
  split; [apply np_count_nonneg|].
  etransitivity; [apply np_count_le_length|]. by rewrite length_zip.
Qed.

(** Samples that differ by at most one: the sum of the squared
    differences counts the changed samples. *)
Lemma sum_squares_changed (l l' : list Z) acc :
  Forall2 (fun o s => -1 <= o - s <= 1) l l' ->
  fold_left Z.add (zip_with (fun o s => (o - s) ^ 2) l l') acc
  = acc + changed l l'.
Proof.
  intros Hclose. revert acc.
  induction Hclose as [|o s l l' Hos Hclose IH]; intros acc.
  - unfold np_count. simpl. lia.
  - rewrite changed_cons. cbn [zip_with fold_left]. rewrite IH.
    destruct (o =? s) eqn:E.
    + apply Z.eqb_eq in E. subst. replace (s - s) with 0 by lia. simpl. lia.
    + apply Z.eqb_neq in E.
      assert (o - s = 1 \/ o - s = -1) as [-> | ->] by lia; simpl; lia.
Qed.

Lemma lsb_writes_close bit_at i path (d : list Z) :
  Forall (fun v => 0 <= v < 256) d ->
  Forall2 (fun o s => -1 <= o - s <= 1) d (lsb_writes bit_at i path d).
Proof.
  intros Hd. apply Forall2_same_length_lookup_2.
  { by rewrite lsb_writes_length. }
  intros k v v' Hv Hv'.
  pose proof (lsb_writes_upper _ _ _ _ _ _ _ Hd Hv Hv') as Hup.
  rewrite !Z.shiftr_div_pow2 in Hup by lia. change (2 ^ 1) with 2 in Hup.
  pose proof (Forall_lookup_1 _ _ _ _ Hd Hv) as Hr.
  pose proof (Forall_lookup_1 _ _ _ _ (lsb_writes_range bit_at i path d Hd) Hv') as Hr'.
  cbv beta in Hr, Hr'.
  pose proof (Z.div_mod v 2 ltac:(lia)).
  pose proof (Z.div_mod v' 2 ltac:(lia)).
  pose proof (Z.mod_pos_bound v 2 ltac:(lia)).
  pose proof (Z.mod_pos_bound v' 2 ltac:(lia)).
  lia.
Qed.

End ChangedSamples.

Lemma percent_le_percent a b T :
  a <= b -> 0 < T ->
  (inject_Z a / inject_Z T * 100 <= inject_Z b / inject_Z T * 100)%Q.
Proof.
  intros Hab HT.
  assert (HTq : (0 < inject_Z T)%Q).
  { replace 0%Q with (inject_Z 0) by reflexivity. rewrite <- Zlt_Qlt. lia. }
  apply Qmult_le_compat_r; [|discriminate].
  apply Qle_shift_div_l; [done|]. unfold Qdiv.
  rewrite <- Qmult_assoc, (Qmult_comm (/ _)), Qmult_inv_r, Qmult_1_r.
  - rewrite <- Zle_Qle. lia.
  - intros Heq. rewrite Heq in HTq. by apply Qlt_irrefl in HTq.
Qed.

Section VisualDifferenceOfStego.

Context (utf8_encode : pystr -> list Z) (sha256 : list Z -> list Z).
Context (shuffle : Z -> list nat -> list nat).
Hypothesis shuffle_perm : forall seed l, shuffle seed l ≡ₚ l.
Context (np_sqrt np_log10 : Q -> Q).

Local Abbreviation embed' := (embed utf8_encode sha256 shuffle).
Local Abbreviation visual_difference' := (calculate_visual_difference np_sqrt np_log10).

(** The visual difference between an image and the image after a run of
    least-significant-bit writes. *)
Lemma visual_difference_after_writes img bit_at i path :
  wf_image img ->
  exists vd,
    visual_difference' img (with_data img (lsb_writes bit_at i path (data img)))
    = Ok vd /\
    0 <= pixels_changed vd <= Z.of_nat (length path) /\
    pixels_changed vd <= vd_total_pixels vd /\
    vd_total_pixels vd = Z.of_nat (size img) /\
    mse vd = Finite (inject_Z (pixels_changed vd) / inject_Z (vd_total_pixels vd))%Q /\
    percent_pixels_changed vd
    = Finite (inject_Z (pixels_changed vd) / inject_Z (vd_total_pixels vd) * 100)%Q /\
    (pixels_changed vd = 0 ->
     psnr vd = PosInf /\ quality_rating vd = "Identical (no changes)") /\
    (0 < pixels_changed vd ->
     psnr vd
     = Finite (20 * np_log10
                      (255 / np_sqrt (inject_Z (pixels_changed vd)
                                      / inject_Z (vd_total_pixels vd))))%Q /\
     quality_rating vd <> "Identical (no changes)").
Proof.
  intros Hwf. pose proof (wf_image_size_pos img Hwf) as Hpos.
  destruct Hwf as (_ & _ & Hlen & Hrange).
  unfold calculate_visual_difference, with_data. cbn [height width data].
  rewrite !Nat.eqb_refl. cbn [andb negb].
  set (d' := lsb_writes bit_at i path (data img)).
  assert (Hlen' : length d' = length (data img)) by apply lsb_writes_length.
  unfold np_mean.
  rewrite (sum_squares_changed (data img) d' 0) by by apply lsb_writes_close.
  rewrite Z.add_0_l, length_zip_with, Hlen', Nat.min_id, Hlen.
  pose proof (changed_lsb_writes bit_at i path (data img)) as Hpath. fold d' in Hpath.
  pose proof (changed_bounds (data img) d') as Hb.
  rewrite Hlen', Nat.min_id, Hlen in Hb.
  set (pc := np_count _ (zip (data img) d')) in *.
  set (T := Z.of_nat (size img)) in *.
  assert (Htd : np_truediv pc T = Finite (inject_Z pc / inject_Z T)%Q).
  { unfold np_truediv. destruct (T =? 0) eqn:E; [apply Z.eqb_eq in E; lia|done]. }
  rewrite Htd. cbn [fmap_pos].
  assert (HTq : (0 < inject_Z T)%Q).
  { replace 0%Q with (inject_Z 0) by reflexivity. rewrite <- Zlt_Qlt. lia. }
  eexists. split; [reflexivity|]. cbn.
  split; [lia|]. split; [lia|]. split; [done|]. split; [done|]. split; [done|].
  split.
  - intros ->.
    assert (Hz : psnr_of np_sqrt np_log10 (Finite (inject_Z 0 / inject_Z T)%Q) = PosInf).
    { unfold psnr_of, feq.
      assert (Hq : (inject_Z 0 / inject_Z T == 0)%Q) by (unfold Qdiv; apply Qmult_0_l).
      by rewrite (proj2 (Qeq_bool_iff _ 0) Hq). }
    by rewrite Hz.
  - intros Hpc. unfold psnr_of, feq.
    destruct (Qeq_bool (inject_Z pc / inject_Z T) 0) eqn:E.
    2:{ split; [done|]. cbn [is_inf].
        repeat (match goal with |- context [if ?c then _ else _] => destruct c end);
          discriminate. }
    apply Qeq_bool_iff in E.
    assert (Hq : (0 < inject_Z pc / inject_Z T)%Q).
    { apply Qlt_shift_div_l; [done|]. rewrite Qmult_0_l.
      replace 0%Q with (inject_Z 0) by reflexivity. rewrite <- Zlt_Qlt. lia. }
    rewrite E in Hq. by apply Qlt_irrefl in Hq.
Qed.

(** X16: the visual difference between a cover and the stego image of a
    successful [embed]. The comparison succeeds; every changed sample
    differs by exactly one, so the mean squared error is the fraction of
    changed samples and the percentage changed is 100 times it; at most
    'total_pixels_modified' samples changed, so the percentage changed is
    at most 'capacity_used_percent', 'total_pixels' is the
    'total_capacity' of the statistics, and the PSNR is infinite, with the
    rating "Identical (no changes)", exactly when nothing changed. *)
Theorem embed_visual_difference cover img message password eps noise decoy
    (h h' : heap) stego st :
  h !! cover = Some img ->
  wf_array img ->
  embed' cover message password eps noise decoy h = (Ok (stego, st), h') ->
  exists s vd,
    h' !! stego = Some s /\
    visual_difference' img s = Ok vd /\
    0 <= pixels_changed vd <= total_pixels_modified st /\
    vd_total_pixels vd = total_capacity st /\
    mse vd = Finite (inject_Z (pixels_changed vd) / inject_Z (total_capacity st))%Q /\
    percent_pixels_changed vd
    = Finite (inject_Z (pixels_changed vd) / inject_Z (total_capacity st) * 100)%Q /\
    (inject_Z (pixels_changed vd) / inject_Z (total_capacity st) * 100
     <= capacity_used_percent st)%Q /\
    (pixels_changed vd = 0 <-> psnr vd = PosInf) /\
    (pixels_changed vd = 0 <-> quality_rating vd = "Identical (no changes)").
Proof.
  intros Hcover Harr Hembed.
  pose proof Hembed as Hstats.
  apply embed_ok_stats in Hstats as (img' & Hcover' & Hpos & Hcap & Hst).
  assert (img' = img) as -> by congruence.
  pose proof (wf_array_image img Harr Hpos) as Hwf.
  destruct (embed_effect utf8_encode sha256 shuffle shuffle_perm cover img message
              password eps noise decoy h Hcover Hwf Hcap)
    as [st' Hok].
  rewrite Hok in Hembed. injection Hembed as <- <- <-.
  set (C := Z.of_nat (length (string_to_bits message))) in *.
  set (T := Z.of_nat (size img)) in *.
  pose proof (final_count_bounds C noise T ltac:(lia)) as HF.
  set (F := final_count C noise T) in *.
  set (path := take (Z.to_nat F) _).
  destruct (visual_difference_after_writes img
              (bit_written (string_to_bits message) decoy) 0 path Hwf)
    as (vd & Hvd & Hpc & _ & HT & Hmse & Hpercent & Hzero & Hpositive).
  assert (Hpath : Z.of_nat (length path) <= F).
  { subst path. rewrite length_take. lia. }
  exists (with_data img
            (lsb_writes (bit_written (string_to_bits message) decoy) 0 path (data img))),
         vd.
  split; [by apply list_lookup_middle|]. split; [exact Hvd|].
  rewrite Hst. cbn [total_pixels_modified total_capacity capacity_used_percent].
  rewrite HT in Hmse, Hpercent.
  split; [lia|]. split; [done|]. split; [done|]. split; [done|].
  split; [apply percent_le_percent; lia|].
  split; (split; [intros H0; by apply Hzero|]); intros Hinf;
    destruct (decide (pixels_changed vd = 0)) as [|Hne]; try done;
    destruct (Hpositive ltac:(lia)) as [Hpsnr Hq]; congruence.
Qed.

(** X17: the same for [embed_standard_lsb], which has no decoys: at most
    as many samples change as the message has bits. *)
Theorem embed_standard_lsb_visual_difference cover img message (h : heap) :
  h !! cover = Some img ->
  wf_image img ->
  Z.of_nat (length (string_to_bits message)) <= Z.of_nat (size img) ->
  exists stego st h' s vd,
    embed_standard_lsb cover message h = (Ok (stego, st), h') /\
    h' !! stego = Some s /\
    visual_difference' img s = Ok vd /\
    0 <= pixels_changed vd <= std_message_length_bits st /\
    vd_total_pixels vd = std_total_capacity st /\
    mse vd = Finite (inject_Z (pixels_changed vd) / inject_Z (std_total_capacity st))%Q /\
    percent_pixels_changed vd
    = Finite (inject_Z (pixels_changed vd) / inject_Z (std_total_capacity st) * 100)%Q /\
    (inject_Z (pixels_changed vd) / inject_Z (std_total_capacity st) * 100
     <= std_capacity_used_percent st)%Q /\
    (pixels_changed vd = 0 <-> psnr vd = PosInf) /\
    (pixels_changed vd = 0 <-> quality_rating vd = "Identical (no changes)").
Proof.
  intros Hcover Hwf Hcap.
  pose proof (embed_standard_lsb_effect cover img message h Hcover Hwf Hcap) as Heff.
  pose proof (wf_image_size_pos img Hwf) as Hpos.
  set (bits := string_to_bits message) in *.
  destruct (visual_difference_after_writes img (message_bit bits) 0
              (seq 0 (length bits)) Hwf)
    as (vd & Hvd & Hpc & _ & HT & Hmse & Hpercent & Hzero & Hpositive).
  rewrite length_seq in Hpc. rewrite HT in Hmse, Hpercent.
  eexists _, _, _, _, vd. split; [exact Heff|].
  split; [by apply list_lookup_middle|]. split; [exact Hvd|].
  cbn [std_message_length_bits std_total_capacity std_capacity_used_percent].
  split; [lia|]. split; [done|]. split; [done|]. split; [done|].
  split.
  { apply percent_le_percent; lia. }
  split; (split; [intros H0; by apply Hzero|]); intros Hinf;
    destruct (decide (pixels_changed vd = 0)) as [|Hne]; try done;
    destruct (Hpositive ltac:(lia)) as [Hpsnr Hq]; congruence.
Qed.

End VisualDifferenceOfStego.

Lemma embed_visual_difference_witness :
  let st := mk_stats 16 2 116 100 18 2 (1 # 2) 16 18 (1800 # 18) (3, 2)%nat in
  exists s vd,
    (heap_2x3 ++
     [mk_ndarray 2 3
        [156; 33; 0; 254; 17; 201; 91; 65; 8; 76; 129; 250; 3; 142; 60; 19; 84; 230]])
    !! 1%nat = Some s /\
    calculate_visual_difference newton_sqrt log10_approx cover_2x3 s = Ok vd /\
    0 <= pixels_changed vd <= total_pixels_modified st /\
    vd_total_pixels vd = total_capacity st /\
    mse vd = Finite (inject_Z (pixels_changed vd) / inject_Z (total_capacity st))%Q /\
    percent_pixels_changed vd
    = Finite (inject_Z (pixels_changed vd) / inject_Z (total_capacity st) * 100)%Q /\
    (inject_Z (pixels_changed vd) / inject_Z (total_capacity st) * 100
     <= capacity_used_percent st)%Q /\
    (pixels_changed vd = 0 <-> psnr vd = PosInf) /\
    (pixels_changed vd = 0 <-> quality_rating vd = "Identical (no changes)").
Proof.
  exact (embed_visual_difference ascii_encode toy_digest lcg_shuffle lcg_shuffle_perm
           newton_sqrt log10_approx 0%nat cover_2x3 msg_Hi pw (1 # 2) 100 all_decoy
           heap_2x3 _ _ _ eq_refl (proj2 (proj2 cover_2x3_wf)) embed_2x3_large_noise).
Defined.

Lemma embed_standard_lsb_visual_difference_witness :
  exists stego st h' s vd,
    embed_standard_lsb 0%nat msg_Hi heap_2x3 = (Ok (stego, st), h') /\
    h' !! stego = Some s /\
    calculate_visual_difference newton_sqrt log10_approx cover_2x3 s = Ok vd /\
    0 <= pixels_changed vd <= std_message_length_bits st /\
    vd_total_pixels vd = std_total_capacity st /\
    mse vd = Finite (inject_Z (pixels_changed vd) / inject_Z (std_total_capacity st))%Q /\
    percent_pixels_changed vd
    = Finite (inject_Z (pixels_changed vd) / inject_Z (std_total_capacity st) * 100)%Q /\
    (inject_Z (pixels_changed vd) / inject_Z (std_total_capacity st) * 100
     <= std_capacity_used_percent st)%Q /\
    (pixels_changed vd = 0 <-> psnr vd = PosInf) /\
    (pixels_changed vd = 0 <-> quality_rating vd = "Identical (no changes)").
Proof.
  apply (embed_standard_lsb_visual_difference newton_sqrt log10_approx 0%nat cover_2x3
           msg_Hi heap_2x3).
  - reflexivity.
  - exact cover_2x3_wf.
  - vm_compute. discriminate.
Defined.

Section VisualDifferenceGeneral.

Context (np_sqrt np_log10 : Q -> Q).

Local Abbreviation visual_difference' := (calculate_visual_difference np_sqrt np_log10).

Lemma zip_with_sq_sym (l l' : list Z) :
  zip_with (fun o s => (o - s) ^ 2) l l' = zip_with (fun o s => (o - s) ^ 2) l' l.
Proof.
  revert l'. induction l as [|a l IH]; intros [|b l']; try done.
  cbn [zip_with]. rewrite IH. f_equal.
  replace (b - a) with (- (a - b)) by lia. by rewrite Z.pow_opp_even by (exists 1; lia).
Qed.

Lemma count_changed_sym (l l' : list Z) :
  np_count (fun p => negb (fst p =? snd p)) (zip l l')
  = np_count (fun p => negb (fst p =? snd p)) (zip l' l).
Proof.
  unfold np_count. revert l'. induction l as [|a l IH]; intros [|b l']; try done.
  specialize (IH l'). cbn [zip_with List.filter fst snd].
  rewrite (Z.eqb_sym b a). destruct (a =? b); cbn [negb length]; lia.
Qed.

(** X18: [calculate_visual_difference] raises, the dimension-mismatch
    [ValueError], exactly when the two shapes differ, and raises nothing
    else; it is symmetric, the result (or the error) is the same with the
    two images exchanged; and 'pixels_changed' lies between 0 and
    'total_pixels'. *)
Theorem visual_difference_symmetric (a b : ndarray) :
  visual_difference' a b = visual_difference' b a /\
  (visual_difference' a b = Raise (ValueError DimensionMismatch) <->
   shape a <> shape b) /\
  (shape a = shape b <-> exists vd, visual_difference' a b = Ok vd) /\
  (forall vd, visual_difference' a b = Ok vd ->
     wf_array a -> wf_array b ->
     0 <= pixels_changed vd <= vd_total_pixels vd).
Proof.
  assert (Hshape : shape a = shape b <->
            (height a =? height b)%nat && (width a =? width b)%nat = true).
  { unfold shape. rewrite andb_true_iff, !Nat.eqb_eq. split.
    - by intros [= -> ->].
    - by intros [-> ->]. }
  split.
  { unfold calculate_visual_difference.
    rewrite (Nat.eqb_sym (height b)), (Nat.eqb_sym (width b)).
    destruct ((height a =? height b)%nat && (width a =? width b)%nat) eqn:E; [|done].
    cbn [negb]. apply andb_prop in E as [Hh Hw].
    apply Nat.eqb_eq in Hh, Hw.
    rewrite (zip_with_sq_sym (data a)), (count_changed_sym (data a)).
    unfold size. by rewrite Hh, Hw. }
  split.
  { rewrite Hshape. unfold calculate_visual_difference.
    destruct ((height a =? height b)%nat && (width a =? width b)%nat);
      cbn [negb]; split; try done. }
  split.
  { rewrite Hshape. unfold calculate_visual_difference.
    destruct ((height a =? height b)%nat && (width a =? width b)%nat);
      cbn [negb]; split; try done; eauto. by intros [vd Hvd]. }
  intros vd Hvd [Ha _] [Hb _]. unfold calculate_visual_difference in Hvd.
  destruct ((height a =? height b)%nat && (width a =? width b)%nat) eqn:E;
    [|discriminate].
  cbn [negb] in Hvd. injection Hvd as <-. cbn [pixels_changed vd_total_pixels].
  apply andb_prop in E as [Hh Hw]. apply Nat.eqb_eq in Hh, Hw.
  pose proof (changed_bounds (data a) (data b)) as Hbound.
  rewrite Ha, Hb in Hbound. unfold size in *. rewrite Hh, Hw, Nat.min_id in Hbound.
  rewrite Hh, Hw. lia.
Qed.

End VisualDifferenceGeneral.

(* ===================================================================== *)
(** * Further properties: [compare_images]                                *)
(* ===================================================================== *)

Lemma count_diff_le_changed (f : Z -> bool) (g : Z -> Z) (l l' : list Z) :
  length l = length l' ->
  Z.abs (np_count f (g <$> l) - np_count f (g <$> l'))
  <= np_count (fun p : Z * Z => negb (fst p =? snd p)) (zip l l').
Proof.
  revert l'. induction l as [|a l IH]; intros [|b l'] Hlen;
    simpl in Hlen; try discriminate.
  specialize (IH l' ltac:(lia)). rewrite changed_cons.
  unfold np_count in *. cbn [fmap list_fmap List.filter].
  destruct (a =? b) eqn:E.
  - apply Z.eqb_eq in E. subst b. destruct (f (g a)); cbn [length]; lia.
  - destruct (f (g a)), (f (g b)); cbn [length]; lia.
Qed.

Lemma Qabs_diff_abs (x y : Q) : (Qabs (Qabs x - Qabs y) <= Qabs (x - y))%Q.
Proof.
  apply Qabs_Qle_condition. split.
  - assert (H := Qabs_triangle_reverse y x).
    apply Qopp_le_compat in H.
    rewrite (Qabs_Qminus y x) in H.
    eapply Qle_trans; [exact H|].
    apply Qle_lteq. right. ring.
  - apply Qabs_triangle_reverse.
Qed.

Lemma xlt_finite q c : xlt (XFinite q) c = true <-> (q < c)%Q.
Proof.
  cbn [xlt]. rewrite negb_true_iff. split.
  - intros E. apply Qnot_le_lt. intros Hle. apply Qle_bool_iff in Hle. congruence.
  - intros Hlt. destruct (Qle_bool c q) eqn:E; [|done].
    apply Qle_bool_iff in E. by apply Qle_not_lt in E.
Qed.

Section ComparisonProperties.

Context (chisquare : Z * Z -> Q * Q -> pyfloat * pyfloat).

Local Abbreviation compare_images' := (compare_images chisquare).

(** The analysis of all channels of a buffer that is not empty. *)
Lemma chi_square_attack_all img :
  exists rep,
    chi_square_attack chisquare img "all" = Ok rep /\
    lsb_0_count rep
    = np_count (fun b => b =? 0) ((fun v => Z.land v 1) <$> data img) /\
    total_pixels rep = Z.of_nat (length (data img)) /\
    (data img <> [] ->
     deviation_from_50_50 rep
     = Finite (Qabs (inject_Z (lsb_0_count rep) / inject_Z (total_pixels rep) * 100
                     - 50))%Q) /\
    (data img = [] -> deviation_from_50_50 rep = NaN).
Proof.
  destruct (chi_square_attack_on chisquare img "all" (data img)
              ltac:(right; right; right; done)) as (rep & Hrep & H0 & H1 & HT).
  destruct (chi_square_attack_inv chisquare _ _ _ Hrep)
    as (cd & _ & _ & _ & _ & Hp0 & _ & Hd).
  exists rep. split; [done|]. split; [done|]. split; [done|].
  rewrite Hd, Hp0, HT. unfold np_truediv. split.
  - intros Hne. destruct (data img) as [|v d]; [done|].
    cbn [length]. destruct (Z.of_nat (S (length d)) =? 0) eqn:E; [apply Z.eqb_eq in E; lia|done].
  - intros Hnil. rewrite H0, Hnil. done.
Qed.

(** X19: [compare_images] always returns a result. Comparing a buffer
    that is not empty with itself gives a deviation change of 0, the
    rating "EXCELLENT" (colour "green", verdict "STEGANOGRAPHY
    UNDETECTABLE") and no change of detection; for an empty buffer the
    deviations are [nan], no threshold comparison holds and the rating is
    "POOR". *)
Theorem compare_images_self (a b : ndarray) :
  (exists r, compare_images' a b = Ok r) /\
  (data a <> [] ->
   exists r q,
     compare_images' a a = Ok r /\
     deviation_change r = XFinite q /\ (q == 0)%Q /\
     rating r = "EXCELLENT" /\ color r = "green" /\
     cmp_verdict r = "STEGANOGRAPHY UNDETECTABLE" /\
     detection_changed r = false) /\
  (data a = [] ->
   exists r,
     compare_images' a a = Ok r /\
     deviation_change r = XNaN /\ rating r = "POOR" /\
     detection_changed r = false).
Proof.
  destruct (chi_square_attack_all a) as (ra & Hra & _ & _ & Hfin & Hnan).
  destruct (chi_square_attack_all b) as (rb & Hrb & _).
  split.
  { unfold compare_images. rewrite Hra, Hrb. cbn [rbind].
    repeat (match goal with |- context [if xlt ?x ?c then _ else _] =>
                              destruct (xlt x c) end);
      eexists; reflexivity. }
  split.
  - intros Hne. specialize (Hfin Hne).
    unfold compare_images. rewrite Hra. cbn [rbind]. rewrite Hfin.
    cbn [of_pyfloat xsub xabs].
    set (d := Qabs (inject_Z (lsb_0_count ra) / inject_Z (total_pixels ra) * 100 - 50)).
    assert (Hz : (Qabs (d - d) == 0)%Q).
    { assert (Hdd : (d - d == 0)%Q) by ring. by rewrite Hdd. }
    assert (Hlt : xlt (XFinite (Qabs (d - d))) (5 # 10) = true).
    { cbn [xlt]. destruct (Qle_bool (5 # 10) (Qabs (d - d))) eqn:E; [|done].
      apply Qle_bool_iff in E. rewrite Hz in E. by vm_compute in E. }
    rewrite Hlt. eexists _, _. split; [reflexivity|]. cbn.
    split; [reflexivity|]. split; [exact Hz|].
    split; [done|]. split; [done|]. split; [done|].
    by rewrite String.eqb_refl.
  - intros Hnil. specialize (Hnan Hnil).
    unfold compare_images. rewrite Hra. cbn [rbind]. rewrite Hnan.
    cbn [of_pyfloat xsub xabs xlt].
    eexists. split; [reflexivity|]. cbn.
    split; [done|]. split; [done|]. by rewrite String.eqb_refl.
Qed.

(** Two buffers of the same size that differ in at most [k] samples. *)
Lemma compare_images_close orig stego k :
  length (data orig) = length (data stego) ->
  data orig <> [] ->
  np_count (fun p : Z * Z => negb (fst p =? snd p)) (zip (data orig) (data stego)) <= k ->
  exists r q,
    compare_images' orig stego = Ok r /\
    deviation_change r = XFinite q /\
    (0 <= q)%Q /\
    (q <= inject_Z k / inject_Z (Z.of_nat (length (data orig))) * 100)%Q /\
    ((q < 5 # 10)%Q -> rating r = "EXCELLENT") /\
    ((q < 1)%Q -> rating r = "EXCELLENT" \/ rating r = "GOOD") /\
    ((q < 2)%Q -> rating r <> "POOR").
Proof.
  intros Hlen Hne Hk.
  assert (Hne' : data stego <> []).
  { intros Hnil. rewrite Hnil in Hlen. by destruct (data orig). }
  destruct (chi_square_attack_all orig) as (ro & Hro & Hco & HTo & Hdo & _).
  destruct (chi_square_attack_all stego) as (rs & Hrs & Hcs & HTs & Hds & _).
  specialize (Hdo Hne). specialize (Hds Hne').
  pose proof (count_diff_le_changed (fun b => b =? 0) (fun v => Z.land v 1)
                (data orig) (data stego) Hlen) as Hdiff.
  rewrite <- Hco, <- Hcs in Hdiff. rewrite <- Hlen in HTs. rewrite <- HTo in *.
  rewrite HTs in Hds.
  set (co := lsb_0_count ro) in *. set (cs := lsb_0_count rs) in *.
  set (T := total_pixels ro) in *.
  assert (HT : 0 < T).
  { rewrite HTo. destruct (data orig); [done|]. cbn [length]. lia. }
  assert (HTq : (0 < inject_Z T)%Q).
  { replace 0%Q with (inject_Z 0) by reflexivity. rewrite <- Zlt_Qlt. lia. }
  assert (HTne : ~ (inject_Z T == 0)%Q).
  { intros Heq. rewrite Heq in HTq. by apply Qlt_irrefl in HTq. }
  set (q := Qabs (Qabs (inject_Z cs / inject_Z T * 100 - 50)
                  - Qabs (inject_Z co / inject_Z T * 100 - 50))).
  assert (Hq : (q <= inject_Z k / inject_Z T * 100)%Q).
  { subst q. eapply Qle_trans; [apply Qabs_diff_abs|].
    assert (Heq : (inject_Z cs / inject_Z T * 100 - 50
                   - (inject_Z co / inject_Z T * 100 - 50)
                   == inject_Z (cs - co) / inject_Z T * 100)%Q).
    { unfold Zminus. rewrite inject_Z_plus, inject_Z_opp. by field. }
    rewrite Heq. apply Qabs_Qle_condition. split.
    - assert (Hopp : (- (inject_Z k / inject_Z T * 100)
                      == inject_Z (- k) / inject_Z T * 100)%Q).
      { rewrite inject_Z_opp. by field. }
      rewrite Hopp. apply percent_le_percent; lia.
    - apply percent_le_percent; lia. }
  assert (Hr : exists r,
            compare_images' orig stego = Ok r /\
            deviation_change r = XFinite q /\
            (xlt (XFinite q) (5 # 10) = true -> rating r = "EXCELLENT") /\
            (xlt (XFinite q) 1 = true -> rating r = "EXCELLENT" \/ rating r = "GOOD") /\
            (xlt (XFinite q) 2 = true -> rating r <> "POOR")).
  { unfold compare_images. rewrite Hro, Hrs. cbn [rbind]. rewrite Hdo, Hds.
    cbn [of_pyfloat xsub xabs]. fold q.
    destruct (xlt (XFinite q) (5 # 10)) eqn:E1;
      [|destruct (xlt (XFinite q) 1) eqn:E2;
        [|destruct (xlt (XFinite q) 2) eqn:E3]];
      eexists; (split; [reflexivity|]); cbn; repeat split; auto; done. }
  destruct Hr as (r & Hr & Hdc & Hex & Hgood & Hfair).
  exists r, q. split; [done|]. split; [done|].
  split; [apply Qabs_nonneg|]. split; [done|].
  split; [intros Hlt; by apply Hex, xlt_finite|].
  split; [intros Hlt; by apply Hgood, xlt_finite|].
  intros Hlt; by apply Hfair, xlt_finite.
Qed.

End ComparisonProperties.

Lemma cover_24x24_wf : wf_image cover_24x24.
Proof.
  unfold wf_image, wf_array, cover_24x24, size, rgb. cbn [height width data].
  split; [lia|]. split; [lia|]. split.
  - by rewrite length_fmap, length_seq.
  - apply Forall_fmap, Forall_forall. intros i _. cbn.
    pose proof (Nat.mod_upper_bound (i * 37 + 11) 256 ltac:(lia)). lia.
Qed.

Lemma percent_below (q : Q) F T :
  (q <= inject_Z F / inject_Z T * 100)%Q -> 0 < T ->
  forall n c, 0 < n -> (c == inject_Z 100 / inject_Z n)%Q -> n * F < T -> (q < c)%Q.
Proof.
  intros Hq HT n c Hn Hc HnF. eapply Qle_lt_trans; [exact Hq|]. rewrite Hc.
  assert (HTq : (0 < inject_Z T)%Q).
  { replace 0%Q with (inject_Z 0) by reflexivity. rewrite <- Zlt_Qlt. lia. }
  assert (Hnq : (0 < inject_Z n)%Q).
  { replace 0%Q with (inject_Z 0) by reflexivity. rewrite <- Zlt_Qlt. lia. }
  apply Qlt_shift_div_l; [done|].
  apply (Qmult_lt_r _ _ (inject_Z T)); [done|].
  assert (Heq : (inject_Z F / inject_Z T * 100 * inject_Z n * inject_Z T
                 == inject_Z (n * F) * inject_Z 100)%Q).
  { rewrite inject_Z_mult. change (inject_Z 100) with 100%Q. field.
    intros Heq. rewrite Heq in HTq. by apply Qlt_irrefl in HTq. }
  rewrite Heq, (Qmult_comm (inject_Z 100)).
  apply Qmult_lt_compat_r; [reflexivity|]. rewrite <- Zlt_Qlt. lia.
Qed.

Section ComparisonOfStego.

Context (utf8_encode : pystr -> list Z) (sha256 : list Z -> list Z).
Context (shuffle : Z -> list nat -> list nat).
Hypothesis shuffle_perm : forall seed l, shuffle seed l ≡ₚ l.
Context (chisquare : Z * Z -> Q * Q -> pyfloat * pyfloat).

Local Abbreviation embed' := (embed utf8_encode sha256 shuffle).
Local Abbreviation compare_images' := (compare_images chisquare).

(** X20: [compare_images] on a cover and the stego image [embed] makes
    of it. Each modified sample moves the count of zero bits by at most
    one, so, reading floats as exact rationals, the 'deviation_change' is
    at most 'capacity_used_percent', 100 * 'total_pixels_modified' /
    'total_capacity': the rating is "EXCELLENT" when fewer than one slot
    in 200 was modified, "EXCELLENT" or "GOOD" below one in 100, and not
    "POOR" below one in 50, whatever the message, the password and the
    decoy bits. *)
Theorem embed_compare_images cover img message password eps noise decoy (h : heap) :
  h !! cover = Some img ->
  wf_image img ->
  Z.of_nat (length (string_to_bits message)) <= Z.of_nat (size img) ->
  exists stego st h' s r q,
    embed' cover message password eps noise decoy h = (Ok (stego, st), h') /\
    h' !! stego = Some s /\
    total_capacity st = Z.of_nat (size img) /\
    total_pixels_modified st
    = final_count (Z.of_nat (length (string_to_bits message))) noise
        (Z.of_nat (size img)) /\
    compare_images' img s = Ok r /\
    deviation_change r = XFinite q /\
    (0 <= q <= capacity_used_percent st)%Q /\
    (200 * total_pixels_modified st < total_capacity st -> rating r = "EXCELLENT") /\
    (100 * total_pixels_modified st < total_capacity st ->
     rating r = "EXCELLENT" \/ rating r = "GOOD") /\
    (50 * total_pixels_modified st < total_capacity st -> rating r <> "POOR").
Proof.
  intros Hcover Hwf Hcap.
  pose proof (wf_image_size_pos img Hwf) as Hpos.
  destruct (embed_effect utf8_encode sha256 shuffle shuffle_perm cover img message
              password eps noise decoy h Hcover Hwf Hcap)
    as [st Hok].
  pose proof Hok as Hstats.
  apply embed_ok_stats in Hstats as (img' & Hcover' & _ & _ & Hst).
  assert (img' = img) as -> by congruence.
  set (C := Z.of_nat (length (string_to_bits message))) in *.
  set (T := Z.of_nat (size img)) in *.
  pose proof (final_count_bounds C noise T ltac:(lia)) as HF.
  set (F := final_count C noise T) in *.
  set (path := take (Z.to_nat F) _) in Hok.
  set (bit_at := bit_written (string_to_bits message) decoy) in Hok.
  destruct Hwf as (_ & _ & Hlen & Hrange).
  destruct (compare_images_close chisquare img
              (mk_ndarray (height img) (width img) (lsb_writes bit_at 0 path (data img)))
              F)
    as (r & q & Hr & Hdc & Hq0 & Hq & Hex & Hgood & Hfair).
  { cbn [data]. by rewrite lsb_writes_length. }
  { intros Hnil. rewrite Hnil in Hlen. cbn [length] in Hlen. lia. }
  { cbn [data]. etransitivity; [apply changed_lsb_writes|].
    subst path. rewrite length_take. lia. }
  rewrite Hlen in Hq. fold T in Hq.
  pose proof (percent_below q F T Hq ltac:(lia)) as Hbelow.
  eexists _, st, _, _, r, q. split; [exact Hok|].
  split; [by apply list_lookup_middle|].
  rewrite Hst. cbn [capacity_used_percent total_capacity total_pixels_modified].
  fold C T F.
  split; [done|]. split; [done|]. split; [exact Hr|]. split; [done|].
  split; [done|].
  split; [intros Hlt; apply Hex; by apply (Hbelow 200)|].
  split; [intros Hlt; apply Hgood; by apply (Hbelow 100)|].
  intros Hlt; apply Hfair; by apply (Hbelow 50).
Qed.

(** X21: the same for [embed_standard_lsb]: the 'deviation_change' is at
    most its 'capacity_used_percent', 100 * bits / capacity, with the same
    consequences for the rating. *)
Theorem embed_standard_lsb_compare_images cover img message (h : heap) :
  h !! cover = Some img ->
  wf_image img ->
  Z.of_nat (length (string_to_bits message)) <= Z.of_nat (size img) ->
  exists stego st h' s r q,
    embed_standard_lsb cover message h = (Ok (stego, st), h') /\
    h' !! stego = Some s /\
    std_total_capacity st = Z.of_nat (size img) /\
    std_total_pixels_modified st = Z.of_nat (length (string_to_bits message)) /\
    compare_images' img s = Ok r /\
    deviation_change r = XFinite q /\
    (0 <= q <= std_capacity_used_percent st)%Q /\
    (200 * std_total_pixels_modified st < std_total_capacity st ->
     rating r = "EXCELLENT") /\
    (100 * std_total_pixels_modified st < std_total_capacity st ->
     rating r = "EXCELLENT" \/ rating r = "GOOD") /\
    (50 * std_total_pixels_modified st < std_total_capacity st ->
     rating r <> "POOR").
Proof.
  intros Hcover Hwf Hcap.
  pose proof (wf_image_size_pos img Hwf) as Hpos.
  pose proof (embed_standard_lsb_effect cover img message h Hcover Hwf Hcap) as Hok.
  set (bits := string_to_bits message) in *.
  set (T := Z.of_nat (size img)) in *.
  destruct Hwf as (_ & _ & Hlen & Hrange).
  destruct (compare_images_close chisquare img
              (with_data img
                 (lsb_writes (message_bit bits) 0 (seq 0 (length bits)) (data img)))
              (Z.of_nat (length bits)))
    as (r & q & Hr & Hdc & Hq0 & Hq & Hex & Hgood & Hfair).
  { cbn [with_data data]. by rewrite lsb_writes_length. }
  { intros Hnil. rewrite Hnil in Hlen. cbn [length] in Hlen. lia. }
  { cbn [with_data data]. etransitivity; [apply changed_lsb_writes|].
    by rewrite length_seq. }
  rewrite Hlen in Hq. fold T in Hq.
  pose proof (percent_below q (Z.of_nat (length bits)) T Hq ltac:(lia)) as Hbelow.
  eexists _, _, _, _, r, q. split; [exact Hok|].
  split; [by apply list_lookup_middle|].
  cbn [std_capacity_used_percent std_total_capacity std_total_pixels_modified].
  split; [done|]. split; [done|]. split; [exact Hr|]. split; [done|].
  split; [done|].
  split; [intros Hlt; apply Hex; by apply (Hbelow 200)|].
  split; [intros Hlt; apply Hgood; by apply (Hbelow 100)|].
  intros Hlt; apply Hfair; by apply (Hbelow 50).
Qed.

End ComparisonOfStego.

Lemma embed_compare_images_witness :
  exists stego st h' s r,
    embed ascii_encode toy_digest lcg_shuffle 0%nat msg_H pw 1 (1 # 2) no_decoy
      [cover_24x24]
    = (Ok (stego, st), h') /\
    h' !! stego = Some s /\
    compare_images chisquare_standin cover_24x24 s = Ok r /\
    rating r = "EXCELLENT".
Proof.
  destruct (embed_compare_images ascii_encode toy_digest lcg_shuffle lcg_shuffle_perm
              chisquare_standin 0%nat cover_24x24 msg_H pw 1 (1 # 2) no_decoy
              [cover_24x24] eq_refl cover_24x24_wf)
    as (stego & st & h' & s & r & q & Hok & Hs & HT & HF & Hr & _ & _ & Hex & _).
  - vm_compute. discriminate.
  - exists stego, st, h', s, r. split; [exact Hok|]. split; [exact Hs|].
    split; [exact Hr|]. apply Hex. rewrite HT, HF. vm_compute. reflexivity.
Defined.

Lemma embed_standard_lsb_compare_images_witness :
  exists stego st h' s r,
    embed_standard_lsb 0%nat msg_H [cover_24x24] = (Ok (stego, st), h') /\
    h' !! stego = Some s /\
    compare_images chisquare_standin cover_24x24 s = Ok r /\
    rating r = "EXCELLENT".
Proof.
  destruct (embed_standard_lsb_compare_images chisquare_standin 0%nat cover_24x24
              msg_H [cover_24x24] eq_refl cover_24x24_wf)
    as (stego & st & h' & s & r & q & Hok & Hs & HT & HF & Hr & _ & _ & Hex & _).
  - vm_compute. discriminate.
  - exists stego, st, h', s, r. split; [exact Hok|]. split; [exact Hs|].
    split; [exact Hr|]. apply Hex. rewrite HT, HF. vm_compute. reflexivity.
Defined.

(* ===================================================================== *)
(** * Further properties: the epsilon analysis                            *)
(* ===================================================================== *)

Lemma py_max_lower a b : (a <= py_max a b)%Q /\ (b <= py_max a b)%Q.
Proof.
  unfold py_max. destruct (Qlt_le_dec a b) as [Hlt|Hle].
  - split; [by apply Qlt_le_weak|apply Qle_refl].
  - split; [apply Qle_refl|done].
Qed.

Lemma py_max_clamped a b : (b <= a)%Q -> py_max a b = a.
Proof.
  intros Hle. unfold py_max. destruct (Qlt_le_dec a b) as [Hlt|_]; [|done].
  by apply Qle_not_lt in Hle.
Qed.

(** X22: the result of [calculate_epsilon_visibility] does not depend on
    the order of the two epsilons, except that the two scales are
    exchanged. Both scales lie in (0, 800] and the noise difference in
    [0, 800). The recommendation is the "WILL be visible" one exactly when
    the flag is set and the "capacity usage too low" one exactly when the
    usage is below 5 percent; two epsilons that are both at most 0.01 are
    clamped to the same scale and are never visible. *)
Theorem epsilon_visibility_symmetric (message_bits image_capacity : Z)
    (epsilon_low epsilon_high : Q) r :
  calculate_epsilon_visibility message_bits image_capacity epsilon_low epsilon_high
  = Ok r ->
  (exists r',
     calculate_epsilon_visibility message_bits image_capacity epsilon_high epsilon_low
     = Ok r' /\
     statistically_visible r' = statistically_visible r /\
     recommendation r' = recommendation r /\
     expected_noise_difference r' = expected_noise_difference r /\
     capacity_usage_percent r' = capacity_usage_percent r /\
     scale_low_epsilon r' = scale_high_epsilon r /\
     scale_high_epsilon r' = scale_low_epsilon r) /\
  (0 < scale_low_epsilon r <= 800)%Q /\
  (0 < scale_high_epsilon r <= 800)%Q /\
  (0 <= expected_noise_difference r < 800)%Q /\
  (recommendation r = WillBeVisible <-> statistically_visible r = true) /\
  (recommendation r = CapacityTooLow <-> (capacity_usage_percent r < 5)%Q) /\
  ((epsilon_low <= 1 # 100)%Q -> (epsilon_high <= 1 # 100)%Q ->
   statistically_visible r = false).
Proof.
  unfold calculate_epsilon_visibility, py_truediv.
  destruct (image_capacity =? 0); [discriminate|]. cbn [rbind].
  match goal with |- Ok ?x = Ok r -> _ => set (res := x) end.
  intros Heq. assert (r = res) as -> by congruence. clear Heq. subst res.
  cbn [statistically_visible recommendation expected_noise_difference
         capacity_usage_percent scale_low_epsilon scale_high_epsilon].
  set (cap := (inject_Z message_bits / inject_Z image_capacity * 100)%Q).
  assert (Hscale : forall eps, (0 < 8 / py_max (1 # 100) eps <= 800)%Q).
  { intros eps. pose proof (proj1 (py_max_lower (1 # 100) eps)) as Hlow.
    assert (Hpos : (0 < py_max (1 # 100) eps)%Q).
    { eapply Qlt_le_trans; [|exact Hlow]. reflexivity. }
    split.
    - apply Qlt_shift_div_l; [done|]. rewrite Qmult_0_l. reflexivity.
    - apply Qle_shift_div_r; [done|].
      apply (Qle_trans _ (800 * (1 # 100))); [vm_compute; discriminate|].
      apply Qmult_le_l; [reflexivity|done]. }
  pose proof (Hscale epsilon_low) as [Hl0 Hl800].
  pose proof (Hscale epsilon_high) as [Hh0 Hh800].
  set (sl := (8 / py_max (1 # 100) epsilon_low)%Q) in *.
  set (sh := (8 / py_max (1 # 100) epsilon_high)%Q) in *.
  split.
  { eexists. split; [reflexivity|].
    cbn [statistically_visible recommendation expected_noise_difference
           capacity_usage_percent scale_low_epsilon scale_high_epsilon].
    fold sl sh cap. by rewrite (Qabs_Qminus sh sl). }
  split; [done|]. split; [done|]. split.
  { split; [apply Qabs_nonneg|]. apply Qabs_Qlt_condition. split.
    - apply (Qplus_lt_l _ _ (sh + 800)). ring_simplify.
      eapply Qle_lt_trans; [exact Hh800|].
      apply (Qplus_lt_l _ _ (- (800))). ring_simplify. exact Hl0.
    - apply (Qplus_lt_l _ _ sh). ring_simplify.
      eapply Qle_lt_trans; [exact Hl800|].
      apply (Qplus_lt_l _ _ (- (800))). ring_simplify. exact Hh0. }
  split.
  { destruct (Qle_bool 5 cap), (Qle_bool 10 (Qabs (sl - sh))); cbn [andb negb];
      split; done. }
  split.
  { destruct (Qle_bool 5 cap) eqn:E; cbn [andb negb].
    - apply Qle_bool_iff in E.
      destruct (Qle_bool 10 (Qabs (sl - sh))); split; try done;
        intros Hlt; exfalso; exact (Qle_not_lt _ _ E Hlt).
    - split; [|done]. intros _. apply Qnot_le_lt. intros Hle.
      apply Qle_bool_iff in Hle. congruence. }
  intros Hlow Hhigh. subst sl sh.
  rewrite (py_max_clamped _ _ Hlow), (py_max_clamped _ _ Hhigh).
  apply andb_false_r.
Qed.

Lemma epsilon_visibility_symmetric_witness :
  exists r,
    calculate_epsilon_visibility 1000 12288 (1 # 10) 5 = Ok r /\
    (recommendation r = WillBeVisible <-> statistically_visible r = true).
Proof.
  eexists. split; [reflexivity|].
  eapply (epsilon_visibility_symmetric 1000 12288 (1 # 10) 5). reflexivity.
Defined.

(* ===================================================================== *)
(** * Further properties: the front end                                   *)
(* ===================================================================== *)

Section FrontEnd.

Context (utf8_encode : pystr -> list Z) (sha256 : list Z -> list Z).
Context (shuffle : Z -> list nat -> list nat).

Local Abbreviation embed' := (embed utf8_encode sha256 shuffle).

(** X23: the epsilon analysis the front end runs on the statistics of a
    successful [embed] never fails, the capacity of an embedded image is
    not zero. Its two scales are 80 and 1.6, their difference 78.4 is
    above the threshold, so the flag depends on the capacity alone: it is
    set exactly when the message bits are at least a twentieth of the
    capacity, and the recommendation is the "capacity usage too low" one
    otherwise, never the "marginal" one. *)
Theorem embed_epsilon_analysis_after_embed cover message password eps noise decoy
    (h h' : heap) stego st :
  embed' cover message password eps noise decoy h = (Ok (stego, st), h') ->
  exists r,
    embed_epsilon_analysis st = Ok r /\
    (scale_low_epsilon r == 80)%Q /\
    (scale_high_epsilon r == 8 # 5)%Q /\
    (expected_noise_difference r == 392 # 5)%Q /\
    (capacity_usage_percent r
     == inject_Z (message_length_bits st) / inject_Z (total_capacity st) * 100)%Q /\
    (0 <= capacity_usage_percent r <= 100)%Q /\
    (statistically_visible r = true <->
     total_capacity st <= 20 * message_length_bits st) /\
    (recommendation r = WillBeVisible <->
     total_capacity st <= 20 * message_length_bits st) /\
    (recommendation r = CapacityTooLow <->
     20 * message_length_bits st < total_capacity st).
Proof.
  intros Hembed.
  apply embed_ok_stats in Hembed as (img & Hcover & Hpos & Hcap & ->).
  cbn [message_length_bits total_capacity].
  set (C := Z.of_nat (length (string_to_bits message))) in *.
  set (T := Z.of_nat (size img)) in *.
  unfold embed_epsilon_analysis, calculate_epsilon_visibility, py_truediv.
  cbn [message_length_bits total_capacity]. fold C T.
  destruct (T =? 0) eqn:E; [apply Z.eqb_eq in E; lia|]. cbn [rbind].
  eexists. split; [reflexivity|].
  cbn [statistically_visible recommendation expected_noise_difference
         capacity_usage_percent scale_low_epsilon scale_high_epsilon].
  assert (HTq : (0 < inject_Z T)%Q).
  { replace 0%Q with (inject_Z 0) by reflexivity. rewrite <- Zlt_Qlt. lia. }
  assert (Hnoise : Qle_bool 10 (Qabs (8 / py_max (1 # 100) (1 # 10)
                                      - 8 / py_max (1 # 100) 5)) = true)
    by reflexivity.
  rewrite Hnoise, andb_true_r.
  set (cap := (inject_Z C / inject_Z T * 100)%Q).
  assert (Hcap5 : Qle_bool 5 cap = true <-> T <= 20 * C).
  { rewrite Qle_bool_iff. subst cap. split.
    - intros Hle.
      assert (H5 : (5 * inject_Z T <= inject_Z C * 100)%Q).
      { apply (Qmult_le_r _ _ (/ inject_Z T)); [by apply Qinv_lt_0_compat|].
        eapply Qle_trans; [|eapply Qle_trans; [exact Hle|]];
          apply Qle_lteq; right; field;
          intros Heq; rewrite Heq in HTq; by apply Qlt_irrefl in HTq. }
      replace 5%Q with (inject_Z 5) in H5 by reflexivity.
      replace 100%Q with (inject_Z 100) in H5 by reflexivity.
      rewrite <- !inject_Z_mult, <- Zle_Qle in H5. lia.
    - intros Hle.
      apply (Qle_trans _ (inject_Z T / inject_Z T * 5)).
      + apply Qle_lteq. right. field.
        intros Heq; rewrite Heq in HTq; by apply Qlt_irrefl in HTq.
      + apply (Qle_trans _ (inject_Z (20 * C) / inject_Z T * 5)).
        * apply Qmult_le_compat_r; [|discriminate].
          apply Qmult_le_compat_r; [by rewrite <- Zle_Qle|].
          apply Qlt_le_weak. by apply Qinv_lt_0_compat.
        * apply Qle_lteq. right. rewrite inject_Z_mult.
          replace (inject_Z 20) with 20%Q by reflexivity. field.
          intros Heq; rewrite Heq in HTq; by apply Qlt_irrefl in HTq. }
  split; [reflexivity|]. split; [reflexivity|]. split; [reflexivity|].
  split; [reflexivity|]. split.
  { subst cap. split.
    - apply Qmult_le_0_compat; [|discriminate].
      apply Qle_shift_div_l; [done|]. rewrite Qmult_0_l.
      replace 0%Q with (inject_Z 0) by reflexivity. rewrite <- Zle_Qle. lia.
    - apply (Qle_trans _ (1 * 100)); [|vm_compute; discriminate].
      apply Qmult_le_compat_r; [|discriminate].
      apply Qle_shift_div_r; [done|]. rewrite Qmult_1_l.
      rewrite <- Zle_Qle. lia. }
  split; [exact Hcap5|].
  destruct (decide (T <= 20 * C)) as [Hle|Hgt].
  - rewrite (proj2 Hcap5 Hle). cbn [negb]. split; split; try done; lia.
  - assert (E5 : Qle_bool 5 cap = false).
    { apply not_true_is_false. intros E5. apply Hcap5 in E5. lia. }
    rewrite E5. cbn [negb]. split; split; try done; lia.
Qed.

End FrontEnd.

Lemma embed_epsilon_analysis_after_embed_witness :
  let st := mk_stats 16 2 116 100 18 2 (1 # 2) 16 18 (1800 # 18) (3, 2)%nat in
  exists r,
    embed_epsilon_analysis st = Ok r /\
    (scale_low_epsilon r == 80)%Q /\
    (scale_high_epsilon r == 8 # 5)%Q /\
    (expected_noise_difference r == 392 # 5)%Q /\
    (capacity_usage_percent r
     == inject_Z (message_length_bits st) / inject_Z (total_capacity st) * 100)%Q /\
    (0 <= capacity_usage_percent r <= 100)%Q /\
    (statistically_visible r = true <->
     total_capacity st <= 20 * message_length_bits st) /\
    (recommendation r = WillBeVisible <->
     total_capacity st <= 20 * message_length_bits st) /\
    (recommendation r = CapacityTooLow <->
     20 * message_length_bits st < total_capacity st).
Proof.
  exact (embed_epsilon_analysis_after_embed ascii_encode toy_digest lcg_shuffle 0%nat
           msg_Hi pw (1 # 2) 100 all_decoy heap_2x3 _ _ _ embed_2x3_large_noise).
Defined.
